(** * Esp32Radio: streaming buffer, ID3 skip, downmix, lyric engine

    A shallow embedding of the parts of [Esp32Radio] (the streaming audio
    engine of the firmware) that its design document makes statements about,
    and the proofs of those statements.

    Conventions.
    - [int] is the 32-bit signed integer of the target, [size_t] and
      [uint32_t] are 32-bit unsigned; values live in [Z], and an
      operation of the source that can leave the range of its type carries
      the wrap-around of that type ([wrap_int], [wrap_u32], [wrap_i16]).
    - [uint8_t] buffers are lists of [Byte.byte]; [std::string] is [string].
    - Collaborators that are not part of this class (HTTP client, MP3
      decoder, [std::stof]) appear as inputs of the functions that call them. *)

From Stdlib Require Import ZArith List Bool Lia.
From Stdlib Require Import Strings.Ascii Strings.String Strings.Byte.
From Stdlib Require Import Sorting.Sorted Sorting.Permutation.
From Stdlib Require Import Numbers.DecimalString.
Import ListNotations.

Local Open Scope Z_scope.

(** ** Machine integers *)

Definition wrap_u32 (z : Z) : Z := z mod 2 ^ 32.
Definition wrap_int (z : Z) : Z := (z + 2 ^ 31) mod 2 ^ 32 - 2 ^ 31.
Definition wrap_i16 (z : Z) : Z := (z + 2 ^ 15) mod 2 ^ 16 - 2 ^ 15.

Definition in_int (z : Z) : Prop := - 2 ^ 31 <= z < 2 ^ 31.
Definition in_i16 (z : Z) : Prop := - 2 ^ 15 <= z < 2 ^ 15.

(** ** Bounded chunk buffer

    [audio_buffer_] is a [std::queue<AudioChunk>], [buffer_size_] a [size_t]
    running total, [is_downloading_] the producer flag.  The three critical
    sections that touch them are the push in [DownloadAudioStream], the pop in
    [PlayAudioStream] and [ClearAudioBuffer]; each runs under [buffer_mutex_],
    so an execution is a sequence of these sections. *)

Module ChunkBuffer.

Record AudioChunk := mkChunk { data : list byte; size : Z }.

Record Radio := mkRadio {
  audio_buffer_ : list AudioChunk;   (* front of the queue first *)
  buffer_size_ : Z;
  is_downloading_ : bool
}.

(** The constructor: empty queue, [buffer_size_(0)], [is_downloading_(false)]. *)
Definition init : Radio := mkRadio [] 0 false.

(** [const size_t chunk_size = 4096] in [DownloadAudioStream]. *)
Definition chunk_size : Z := 4096.

Definition queued_bytes (q : list AudioChunk) : Z :=
  fold_right (fun c acc => size c + acc) 0 q.

Inductive event :=
| Push (bytes : list byte)      (* one successful [http->Read] and its push *)
| Pop                           (* the decoder takes the front chunk *)
| Clear                         (* [ClearAudioBuffer] *)
| SetDownloading (b : bool).    (* [StartStreaming] / [StopStreaming] *)

Section WithCapacity.

(** [MAX_BUFFER_SIZE] is a constant of the class declaration, which is not
    among the sources; it is a parameter here. *)
Variable MAX_BUFFER_SIZE : Z.

(** The critical section of the downloader.  The condition variable lets
    the thread through when [buffer_size_ < MAX_BUFFER_SIZE ||
    !is_downloading_]; until then nothing changes.  Once through, the chunk is
    queued if the flag is still set and freed otherwise. *)
Definition push_chunk (bytes : list byte) (r : Radio) : Radio :=
  let bytes_read := Z.of_nat (List.length bytes) in
  if (buffer_size_ r <? MAX_BUFFER_SIZE) || negb (is_downloading_ r) then
    if is_downloading_ r then
      mkRadio (audio_buffer_ r ++ [mkChunk bytes bytes_read])
              (wrap_u32 (buffer_size_ r + bytes_read))
              (is_downloading_ r)
    else r
  else r.

(** The critical section of the decoder: with an empty queue it leaves or
    waits; otherwise [front], [pop], [buffer_size_ -= chunk.size]. *)
Definition pop_chunk (r : Radio) : option AudioChunk * Radio :=
  match audio_buffer_ r with
  | [] => (None, r)
  | chunk :: rest =>
      (Some chunk,
       mkRadio rest (wrap_u32 (buffer_size_ r - size chunk)) (is_downloading_ r))
  end.

Definition ClearAudioBuffer (r : Radio) : Radio :=
  mkRadio [] 0 (is_downloading_ r).

Definition step (r : Radio) (e : event) : Radio :=
  match e with
  | Push bytes => push_chunk bytes r
  | Pop => snd (pop_chunk r)
  | Clear => ClearAudioBuffer r
  | SetDownloading b => mkRadio (audio_buffer_ r) (buffer_size_ r) b
  end.

Definition run (r : Radio) (evs : list event) : Radio := fold_left step evs r.

(** A read that reaches the push returned between 1 and [chunk_size] bytes:
    a negative or zero result leaves the loop before it. *)
Definition read_ok (e : event) : Prop :=
  match e with
  | Push bytes => 0 < Z.of_nat (List.length bytes) <= chunk_size
  | _ => True
  end.

Definition chunk_ok (c : AudioChunk) : Prop := 0 < size c <= chunk_size.

(** The invariant the code maintains: the total is the sum of the queued
    sizes, and it stays below the capacity plus one chunk. *)
Definition buffer_inv (r : Radio) : Prop :=
  buffer_size_ r = queued_bytes (audio_buffer_ r)
  /\ Forall chunk_ok (audio_buffer_ r)
  /\ 0 <= buffer_size_ r < MAX_BUFFER_SIZE + chunk_size.

End WithCapacity.

End ChunkBuffer.

(** ** ID3v2 tag skip *)

Module Id3.

Definition u8 (b : byte) : Z := Z.of_N (Byte.to_N b).

(** [data[i]]; the caller passes [size] readable bytes. *)
Definition byte_at (data : list byte) (i : nat) : Z := u8 (nth i data x00).

(** [memcmp(data, "ID3", 3) == 0]: the bytes 0x49 0x44 0x33. *)
Definition has_id3_marker (data : list byte) : bool :=
  (byte_at data 0 =? 73) && (byte_at data 1 =? 68) && (byte_at data 2 =? 51).

(** The four size bytes, each masked with [0x7F], shifted and or-ed as
    [uint32_t]. *)
Definition tag_size (data : list byte) : Z :=
  Z.lor (Z.lor (Z.lor
    (wrap_u32 (Z.shiftl (Z.land (byte_at data 6) 127) 21))
    (wrap_u32 (Z.shiftl (Z.land (byte_at data 7) 127) 14)))
    (wrap_u32 (Z.shiftl (Z.land (byte_at data 8) 127) 7)))
    (Z.land (byte_at data 9) 127).

Definition SkipId3Tag (data : list byte) (size : Z) : Z :=
  if size <? 10 then 0
  else if negb (has_id3_marker data) then 0
  else
    let total_skip := wrap_u32 (10 + tag_size data) in
    if total_skip >? size then size else total_skip.

(** The synchsafe reading of four bytes as the ID3v2 format defines it:
    seven payload bits per byte, most significant byte first. *)
Definition synchsafe28 (b6 b7 b8 b9 : Z) : Z :=
  (b6 mod 128) * 2 ^ 21 + (b7 mod 128) * 2 ^ 14 + (b8 mod 128) * 2 ^ 7
  + b9 mod 128.

End Id3.

(** ** Frame duration and downmix (the decode step of [PlayAudioStream]) *)

Module Frame.

(** The fields of the decoder's [MP3FrameInfo] that [PlayAudioStream] reads;
    all are [int]. *)
Record MP3FrameInfo := mkFrameInfo {
  nChans : Z;
  samprate : Z;
  outputSamps : Z
}.

Definition frame_info_ok (fi : MP3FrameInfo) : Prop :=
  in_int (nChans fi) /\ in_int (samprate fi) /\ in_int (outputSamps fi).

(** What the MP3 decoder puts into [MP3FrameInfo]: a sample rate of the
    MP3 format, at most 48000 Hz, and one or two channels, or zeros where it
    has nothing to report.  The decoder is a library outside this
    repository. *)
Definition decoded_frame (fi : MP3FrameInfo) : Prop :=
  0 <= samprate fi <= 48000 /\ 0 <= nChans fi <= 2.

Inductive duration_result :=
| FrameSkipped                 (* the [continue] of the validity check *)
| DivisionByZero               (* the divisor evaluated to 0 *)
| Duration (frame_duration_ms : Z).

(** The validity check and the duration computation that follows it. *)
Definition frame_duration (fi : MP3FrameInfo) : duration_result :=
  if (samprate fi =? 0) || (nChans fi =? 0) then FrameSkipped
  else
    let dividend := wrap_int (outputSamps fi * 1000) in
    let divisor := wrap_int (samprate fi * nChans fi) in
    if divisor =? 0 then DivisionByZero
    else Duration (wrap_int (Z.quot dividend divisor)).

(** The stereo loop: [mono_buffer[i] = (int16_t)((left + right) / 2)] with
    [left = pcm_buffer[i * 2]], [right = pcm_buffer[i * 2 + 1]] read as [int]. *)
Definition mix_pair (pcm_buffer : list Z) (i : nat) : Z :=
  let left := nth (i * 2) pcm_buffer 0 in
  let right := nth (i * 2 + 1) pcm_buffer 0 in
  wrap_i16 (Z.quot (wrap_int (left + right)) 2).

Definition stereo_to_mono (pcm_buffer : list Z) (mono_samples : Z) : list Z :=
  map (mix_pair pcm_buffer) (seq 0 (Z.to_nat mono_samples)).

(** The samples [final_pcm_data[0 .. final_sample_count)] that are copied
    into the packet. *)
Definition downmix (nChans outputSamps : Z) (pcm_buffer : list Z) : list Z :=
  if nChans =? 2 then
    let stereo_samples := outputSamps in
    let mono_samples := Z.quot stereo_samples 2 in
    stereo_to_mono pcm_buffer mono_samples
  else if nChans =? 1 then firstn (Z.to_nat outputSamps) pcm_buffer
  else firstn (Z.to_nat outputSamps) pcm_buffer.



End Frame.

(** ** URL resolution in [Download] *)

Module Url.

Local Open Scope string_scope.

Definition base_url : string := "https://ai.daongoc.vn/radio/".

(** [s.rfind(p, 0) == 0]: [p] is a prefix of [s]. *)
Definition starts_with (p s : string) : bool := String.prefix p s.

(** [s.find(m) != std::string::npos]. *)
Definition contains (m s : string) : bool :=
  match String.index 0 m s with Some _ => true | None => false end.

(** The rule applied to [audio_url] and, in the same words, to [lyric_url]. *)
Definition resolve_url (path : string) : string :=
  if starts_with "http://" path || starts_with "https://" path then path
  else if contains "radio_proxy.php" path then base_url ++ path
  else base_url ++ path.

End Url.

(** ** Lyric engine: parsing, sorting, matching *)

Module Lyrics.

(** An element of [lyrics_]: [std::pair<int, std::string>]. *)
Definition LyricLine : Type := Z * string.

(** *** [std::string] operations used by the parser *)

(** [s.find(c)]: position of the first [c], [None] for [npos]. *)
Fixpoint find_char (c : ascii) (s : string) : option nat :=
  match s with
  | EmptyString => None
  | String d rest =>
      if Ascii.eqb d c then Some O
      else match find_char c rest with
           | Some n => Some (S n)
           | None => None
           end
  end.

(** [s.substr(pos)]. *)
Fixpoint substr_from (pos : nat) (s : string) : string :=
  match pos, s with
  | O, _ => s
  | S p, String _ rest => substr_from p rest
  | S _, EmptyString => EmptyString
  end.

(** [s.substr(pos, len)]. *)
Definition substr (pos len : nat) (s : string) : string :=
  String.substring pos len s.

Definition isdigit (c : ascii) : bool :=
  (48 <=? nat_of_ascii c)%nat && (nat_of_ascii c <=? 57)%nat.

Fixpoint all_digits (s : string) : bool :=
  match s with
  | EmptyString => true
  | String c rest => isdigit c && all_digits rest
  end.

Definition digit_value (c : ascii) : Z := Z.of_nat (nat_of_ascii c) - 48.

Fixpoint decimal_value (s : string) (acc : Z) : Z :=
  match s with
  | EmptyString => acc
  | String c rest => decimal_value rest (acc * 10 + digit_value c)
  end.

(** [std::stoi] on the strings the parser passes to it, which consist of
    decimal digits only: [None] stands for the exception it throws,
    [std::invalid_argument] on the empty string and [std::out_of_range]
    above [INT_MAX]. *)
Definition stoi (s : string) : option Z :=
  match s with
  | EmptyString => None
  | _ => let v := decimal_value s 0 in
         if v <=? 2 ^ 31 - 1 then Some v else None
  end.

(** [std::getline] until it fails: the pieces between line feeds; a last
    piece without line feed counts when it is not empty. *)
Fixpoint getlines (content : string) (line : string) : list string :=
  match content with
  | EmptyString =>
      match line with EmptyString => [] | _ => [line] end
  | String c rest =>
      if Ascii.eqb c "010"%char then line :: getlines rest EmptyString
      else getlines rest (line ++ String c EmptyString)%string
  end.

(** [if (!line.empty() && line.back() == '\r') line.pop_back()]. *)
Fixpoint strip_cr (line : string) : string :=
  match line with
  | EmptyString => EmptyString
  | String c EmptyString =>
      if Ascii.eqb c "013"%char then EmptyString else line
  | String c rest => String c (strip_cr rest)
  end.

(** *** Ordering of the entries: [operator<] of [std::pair<int, std::string>] *)

Definition pair_lt (a b : LyricLine) : bool :=
  (fst a <? fst b) || (negb (fst b <? fst a) && String.ltb (snd a) (snd b)).

(** [a] does not come after [b]: [!(b < a)]. *)
Definition pair_le (a b : LyricLine) : bool := negb (pair_lt b a).

Definition pair_order (a b : LyricLine) : Prop := pair_le a b = true.

(** [std::sort(lyrics_.begin(), lyrics_.end())].  Two entries that compare
    equivalent under [operator<] are equal, so the sorted vector does not
    depend on the sorting algorithm; insertion sort computes it here. *)
Fixpoint insert_sorted (x : LyricLine) (l : list LyricLine) : list LyricLine :=
  match l with
  | [] => [x]
  | y :: rest => if pair_lt x y then x :: l else y :: insert_sorted x rest
  end.

Definition std_sort (l : list LyricLine) : list LyricLine :=
  fold_right insert_sorted [] l.

Section Parser.

(** [seconds_to_ms s] stands for [(int)(std::stof(s) * 1000)], the
    single-precision part of the timestamp; [None] when [std::stof]
    throws.  [std::stof] belongs to the C++ library. *)
Variable seconds_to_ms : string -> option Z.

(** The body of the loop for one line, after the carriage return has been
    removed: the entry pushed onto [lyrics_], if any. *)
Definition parse_line (line : string) : option LyricLine :=
  match line with
  | EmptyString => None
  | String first _ =>
    if (10 <? String.length line)%nat && Ascii.eqb first "["%char then
      match find_char "]"%char line with
      | None => None
      | Some close_bracket =>
        let tag_or_time := substr 1 (close_bracket - 1) line in
        let content := substr_from (close_bracket + 1) line in
        match find_char ":"%char tag_or_time with
        | None => None
        | Some colon_pos =>
          let left_part := substr 0 colon_pos tag_or_time in
          if negb (all_digits left_part) then None
          else
            match stoi (substr 0 colon_pos tag_or_time) with
            | None => None
            | Some minutes =>
              match seconds_to_ms (substr_from (colon_pos + 1) tag_or_time) with
              | None => None
              | Some ms =>
                let timestamp_ms :=
                  wrap_int (wrap_int (wrap_int (minutes * 60) * 1000) + ms) in
                Some (timestamp_ms, content)
              end
            end
        end
      end
    else None
  end.

(** [lyrics_] after the loop over the lines, before sorting. *)
Definition parsed_lines (content : string) : list LyricLine :=
  fold_left
    (fun lyrics_ line =>
       match parse_line (strip_cr line) with
       | Some entry => lyrics_ ++ [entry]
       | None => lyrics_
       end)
    (getlines content EmptyString) [].

(** [lyrics_] when [ParseLyrics] returns; its result is
    [!lyrics_.empty()]. *)
Definition ParseLyrics (content : string) : list LyricLine :=
  std_sort (parsed_lines content).

End Parser.

(** *** Matching the play time *)

(** The [for] loop of [UpdateLyricDisplay] over [lyrics_[i ..]], with
    [new_lyric_index] as accumulator. *)
Fixpoint scan_forward (rest : list LyricLine) (i : Z) (current_time_ms : Z)
    (new_lyric_index : Z) : Z :=
  match rest with
  | [] => new_lyric_index
  | line :: rest' =>
      if fst line <=? current_time_ms
      then scan_forward rest' (i + 1) current_time_ms i
      else new_lyric_index
  end.

(** The new value of [current_lyric_index_]. *)
Definition UpdateLyricDisplay (lyrics_ : list LyricLine)
    (current_lyric_index_ : Z) (current_time_ms : Z) : Z :=
  match lyrics_ with
  | [] => current_lyric_index_
  | _ =>
      let start_index :=
        if current_lyric_index_ >=? 0 then current_lyric_index_ else 0 in
      scan_forward (skipn (Z.to_nat start_index) lyrics_) start_index
        current_time_ms (-1)
  end.

(** The text sent to the display when the index changed. *)
Definition displayed_text (lyrics_ : list LyricLine)
    (old_index new_index : Z) : option string :=
  if new_index =? old_index then None
  else if (0 <=? new_index) && (new_index <? Z.of_nat (List.length lyrics_))
       then Some (snd (nth (Z.to_nat new_index) lyrics_ (0, EmptyString)))
       else Some EmptyString.

Definition timestamp_at (lyrics_ : list LyricLine) (i : Z) : Z :=
  fst (nth (Z.to_nat i) lyrics_ (0, EmptyString)).

(** Ascending by timestamp. *)
Definition sorted_by_time (lyrics_ : list LyricLine) : Prop :=
  StronglySorted (fun a b => fst a <= fst b) lyrics_.

(** [i] is the index of the last line of [lyrics_] that is not later than
    [t], or -1 when every line is later. *)
Definition last_not_later (lyrics_ : list LyricLine) (t : Z) (i : Z) : Prop :=
  (i = -1 /\ forall line, In line lyrics_ -> t < fst line)
  \/ (0 <= i < Z.of_nat (List.length lyrics_)
      /\ timestamp_at lyrics_ i <= t
      /\ forall j, i < j < Z.of_nat (List.length lyrics_) ->
           t < timestamp_at lyrics_ j).

(** The index before a call is usable for the time [t] of the call when
    nothing is matched or the matched line is not later than [t]. *)
Definition index_not_later (lyrics_ : list LyricLine) (t : Z) (i : Z) : Prop :=
  i = -1
  \/ (0 <= i < Z.of_nat (List.length lyrics_) /\ timestamp_at lyrics_ i <= t).

(** The index after a series of calls, one per decoded frame. *)
Definition match_sequence (lyrics_ : list LyricLine) (index : Z)
    (times : list Z) : Z :=
  fold_left (UpdateLyricDisplay lyrics_) times index.

End Lyrics.

(** ** Lyric download: the retry loop of [DownloadLyrics] *)

Module LyricFetch.

(** What the network does during one pass of the loop. *)
Record response := mkResponse {
  http_created : bool;        (* [CreateHttp] returned a client *)
  open_ok : bool;             (* [http->Open("GET", current_url)] *)
  status_code : Z;            (* [http->GetStatusCode()] *)
  chunks : list string;       (* the reads that returned data, in order *)
  last_read : Z               (* the first read result that is <= 0 *)
}.

Inductive io :=
| Sleep (ms : Z)              (* [std::this_thread::sleep_for] *)
| CreateHttp
| OpenGet (url : string)
| Close.

Definition max_retries : Z := 3.
Definition max_redirects : Z := 5.

Definition is_redirect (status_code : Z) : bool :=
  (status_code =? 301) || (status_code =? 302) || (status_code =? 303)
  || (status_code =? 307) || (status_code =? 308).

(** [lyric_content += buffer], [buffer] being a NUL-terminated [char]
    array: the bytes before the first NUL are appended. *)
Fixpoint c_str (s : string) : string :=
  match s with
  | EmptyString => EmptyString
  | String c rest =>
      if Ascii.eqb c "000"%char then EmptyString else String c (c_str rest)
  end.

(** The inner read loop: [(lyric_content, success, read_error)]. *)
Definition read_body (r : response) : string * bool * bool :=
  let lyric_content :=
    fold_left (fun acc buffer => (acc ++ c_str buffer)%string) (chunks r)
      EmptyString in
  if last_read r =? 0 then (lyric_content, true, false)
  else
    match lyric_content with
    | EmptyString => (lyric_content, false, true)
    | _ => (lyric_content, true, false)
    end.

Record loop_state := mkLoop {
  retry_count : Z;
  success : bool;
  lyric_content : string;
  current_url : string;
  redirect_count : Z;
  trace : list io              (* what was done so far, oldest first *)
}.

(** One pass of the [while] body, given the network's behaviour. *)
Definition attempt (r : response) (s : loop_state) : loop_state :=
  let t0 :=
    if retry_count s >? 0 then (trace s ++ [Sleep 500])%list else trace s in
  let t1 := (t0 ++ [CreateHttp])%list in
  let failed t :=
    mkLoop (wrap_int (retry_count s + 1)) (success s) (lyric_content s)
      (current_url s) (redirect_count s) t in
  if negb (http_created r) then failed t1
  else
    let t2 := (t1 ++ [OpenGet (current_url s)])%list in
    if negb (open_ok r) then failed t2
    else if is_redirect (status_code r) then failed (t2 ++ [Close])%list
    else if (status_code r <? 200) || (status_code r >=? 300)
    then failed (t2 ++ [Close])%list
    else
      let '(content, ok, read_error) := read_body r in
      let t3 := (t2 ++ [Close])%list in
      if read_error then
        mkLoop (wrap_int (retry_count s + 1)) (success s) content
          (current_url s) (redirect_count s) t3
      else
        mkLoop (retry_count s) ok content (current_url s)
          (redirect_count s) t3.

(** [while (retry_count < max_retries && !success &&
    redirect_count < max_redirects)]; the [n]-th pass meets the [n]-th
    response of the network.  The recursion is on [fuel]. *)
Fixpoint retry_loop (fuel : nat) (network : nat -> response) (pass : nat)
    (s : loop_state) : loop_state :=
  match fuel with
  | O => s
  | S fuel' =>
      if (retry_count s <? max_retries) && negb (success s)
         && (redirect_count s <? max_redirects)
      then retry_loop fuel' network (S pass) (attempt (network pass) s)
      else s
  end.

Definition loop_done (s : loop_state) : bool :=
  negb ((retry_count s <? max_retries) && negb (success s)
        && (redirect_count s <? max_redirects)).

(** [DownloadLyrics]: the trace of network operations and the text handed
    to [ParseLyrics], [None] where the function returns [false] without
    parsing. *)
Definition DownloadLyrics (fuel : nat) (network : nat -> response)
    (lyric_url : string) : list io * option string :=
  match lyric_url with
  | EmptyString => ([], None)
  | _ =>
      let s := retry_loop fuel network 0
                 (mkLoop 0 false EmptyString lyric_url 0 []) in
      if retry_count s >=? max_retries then (trace s, None)
      else
        match lyric_content s with
        | EmptyString => (trace s, None)
        | content => (trace s, Some content)
        end
  end.

Definition count_io (p : io -> bool) (t : list io) : nat :=
  List.length (filter p t).

Definition is_create (e : io) : bool :=
  match e with CreateHttp => true | _ => false end.

(** The operations of one pass. *)
Definition pass_ops (url : string) (ops : list io) : Prop :=
  ops = [CreateHttp] \/ ops = [CreateHttp; OpenGet url]
  \/ ops = [CreateHttp; OpenGet url; Close].

(** A trace made of passes with a 500 ms sleep before each but the first. *)
Inductive retry_trace (url : string) : nat -> list io -> Prop :=
| retry_none : retry_trace url 0 []
| retry_first ops : pass_ops url ops -> retry_trace url 1 ops
| retry_next n t ops :
    retry_trace url (S n) t -> pass_ops url ops ->
    retry_trace url (S (S n)) (t ++ Sleep 500 :: ops).

(** The state of the loop after [pass] passes: the counters, and the
    operations performed so far. *)
Definition fetch_inv (network : nat -> response) (lyric_url : string)
    (pass : nat) (s : loop_state) : Prop :=
  current_url s = lyric_url
  /\ redirect_count s = 0
  /\ retry_trace lyric_url pass (trace s)
  /\ (pass <= 3)%nat
  /\ ((success s = false /\ retry_count s = Z.of_nat pass)
      \/ (success s = true /\ (1 <= pass)%nat
          /\ retry_count s = Z.of_nat pass - 1
          /\ 200 <= status_code (network (pass - 1)%nat) < 300
          /\ is_redirect (status_code (network (pass - 1)%nat)) = false)).

End LyricFetch.

(** ** Single precision, for [std::stof] and the product with 1000

    A model of IEEE 754 binary32 on the values the lyric parser meets: a
    decimal literal is converted to the nearest binary32 number (ties to
    even), the product with [1000] is rounded the same way, and the
    conversion to [int] drops the fraction.  It covers decimal spellings
    (sign, digits, fraction, exponent); the hexadecimal, [inf] and [nan]
    spellings that [strtof] also reads are not covered and give [None]. *)

Module Float32.

(** [(-1)^sign * mant * 2^expo] with [0 <= mant <= 2^24]. *)
Record float := mkFloat { sign : bool; mant : Z; expo : Z }.

Definition round_half_even (N D : Z) : Z :=
  let q := N / D in
  let r := N mod D in
  if (D <? 2 * r) || ((2 * r =? D) && Z.odd q) then q + 1 else q.

Definition scaled_num (n e : Z) : Z := if e <? 0 then n * 2 ^ (- e) else n.
Definition scaled_den (d e : Z) : Z := if e <? 0 then d else d * 2 ^ e.

(** The binary32 number nearest to [n / d], for [n, d > 0], as mantissa
    and exponent; [None] outside the range of normal numbers. *)
Definition nearest (n d : Z) : option (Z * Z) :=
  let e1 := Z.log2 n - Z.log2 d - 23 in
  let e := if scaled_num n e1 / scaled_den d e1 <? 2 ^ 23 then e1 - 1 else e1 in
  let m := round_half_even (scaled_num n e) (scaled_den d e) in
  if (e <? -149) || (104 <? e) || ((e =? 104) && (2 ^ 24 <=? m)) then None
  else Some (m, e).

Definition isspace (c : ascii) : bool :=
  let n := nat_of_ascii c in
  (n =? 32)%nat || ((9 <=? n)%nat && (n <=? 13)%nat).

Fixpoint skip_spaces (s : string) : string :=
  match s with
  | String c rest => if isspace c then skip_spaces rest else s
  | EmptyString => s
  end.

(** Reads decimal digits: the value with the digits appended to [acc], how
    many were read, and the rest of the string. *)
Fixpoint read_digits (s : string) (acc : Z) (count : Z) : Z * Z * string :=
  match s with
  | String c rest =>
      if Lyrics.isdigit c
      then read_digits rest (acc * 10 + Lyrics.digit_value c) (count + 1)
      else (acc, count, s)
  | EmptyString => (acc, count, s)
  end.

Definition read_sign (s : string) : bool * string :=
  match s with
  | String c rest =>
      if Ascii.eqb c "-"%char then (true, rest)
      else if Ascii.eqb c "+"%char then (false, rest)
      else (false, s)
  | EmptyString => (false, s)
  end.

Definition is_hex_prefix (s : string) : bool :=
  match s with
  | String z (String x _) =>
      Ascii.eqb z "0"%char && (Ascii.eqb x "x"%char || Ascii.eqb x "X"%char)
  | _ => false
  end.

(** The decimal literal at the start of [s]: sign, digits without the
    point, power of ten.  [None] when no digit is found. *)
Definition parse_decimal (s : string) : option (bool * Z * Z) :=
  let '(negative, s1) := read_sign (skip_spaces s) in
  if is_hex_prefix s1 then None
  else
    let '(int_part, n_int, s2) := read_digits s1 0 0 in
    let '(digits, n_frac, s3) :=
      match s2 with
      | String c rest =>
          if Ascii.eqb c "."%char then read_digits rest int_part 0
          else (int_part, 0, s2)
      | EmptyString => (int_part, 0, s2)
      end in
    if n_int + n_frac =? 0 then None
    else
      let exponent :=
        match s3 with
        | String c rest =>
            if Ascii.eqb c "e"%char || Ascii.eqb c "E"%char then
              let '(exp_negative, s4) := read_sign rest in
              let '(e, n_exp, _) := read_digits s4 0 0 in
              if n_exp =? 0 then 0 else if exp_negative then - e else e
            else 0
        | EmptyString => 0
        end in
      Some (negative, digits, exponent - n_frac).

(** [std::stof]: [None] when it throws ([std::invalid_argument] without a
    number, [std::out_of_range] when the value leaves the range). *)
Definition stof (s : string) : option float :=
  match parse_decimal s with
  | None => None
  | Some (negative, digits, exp10) =>
      if digits =? 0 then Some (mkFloat negative 0 0)
      else
        let n := if exp10 <? 0 then digits else digits * 10 ^ exp10 in
        let d := if exp10 <? 0 then 10 ^ (- exp10) else 1 in
        match nearest n d with
        | Some (m, e) => Some (mkFloat negative m e)
        | None => None
        end
  end.

(** The rounded product; [None] for an infinite result. *)
Definition mul (a b : float) : option float :=
  let s := xorb (sign a) (sign b) in
  let m := mant a * mant b in
  let e := expo a + expo b in
  if m =? 0 then Some (mkFloat s 0 0)
  else
    match nearest (scaled_num m (- e)) (scaled_den 1 (- e)) with
    | Some (m', e') => Some (mkFloat s m' e')
    | None => None
    end.

Definition int_max : Z := 2 ^ 31 - 1.
Definition int_min : Z := - 2 ^ 31.

(** [(int) f]: toward zero; out of range the conversion of the target
    saturates. *)
Definition to_int (f : float) : Z :=
  let magnitude :=
    if expo f <? 0 then mant f / 2 ^ (- expo f) else mant f * 2 ^ expo f in
  let v := if sign f then - magnitude else magnitude in
  Z.max int_min (Z.min int_max v).

(** [(int)(std::stof(s) * 1000)]: the [int] 1000 is converted to [float]
    for the product. *)
Definition seconds_to_ms (s : string) : option Z :=
  match stof s with
  | None => None
  | Some seconds =>
      match mul seconds (mkFloat false 1000 0) with
      | Some product => Some (to_int product)
      | None => Some (if sign seconds then int_min else int_max)
      end
  end.

End Float32.

(** ** The timestamp formula of the design document

    [minutes * 60000 + round(seconds * 1000)] for [seconds = num / den],
    rounding to the nearest integer; stated here to compare the parser
    with it. *)

Definition timestamp_ms_rounded (minutes num den : Z) : Z :=
  minutes * 60000 + (2 * num * 1000 + den) / (2 * den).

(** ** Request helpers: URL encoding and the authentication headers *)

Module Request.

(** The characters [url_encode] copies: letters, digits, [-], [_], [.],
    [~]. *)
Definition is_unreserved (c : ascii) : bool :=
  let n := nat_of_ascii c in
  ((65 <=? n) && (n <=? 90) || (97 <=? n) && (n <=? 122)
   || (48 <=? n) && (n <=? 57)
   || (n =? 45) || (n =? 95) || (n =? 46) || (n =? 126))%nat.

(** One digit of the [%02X] conversion. *)
Definition hex_digit (n : nat) : ascii :=
  if (n <? 10)%nat then ascii_of_nat (48 + n) else ascii_of_nat (55 + n).

(** [snprintf(hex, sizeof(hex), "%%%02X", c)] for an [unsigned char]. *)
Definition percent_hex (c : ascii) : string :=
  String "%" (String (hex_digit (nat_of_ascii c / 16))
                (String (hex_digit (nat_of_ascii c mod 16)) EmptyString)).

(** What one pass of the loop appends to [encoded]. *)
Definition encode_char (c : ascii) : string :=
  if is_unreserved c then String c EmptyString
  else if Ascii.eqb c " " then String "+" EmptyString
  else percent_hex c.

Fixpoint url_encode (str : string) : string :=
  match str with
  | EmptyString => EmptyString
  | String c rest => (encode_char c ++ url_encode rest)%string
  end.

(** The characters a result of [url_encode] is made of. *)
Definition is_encoded_char (c : ascii) : bool :=
  is_unreserved c || Ascii.eqb c "+" || Ascii.eqb c "%".

Fixpoint string_forall (p : ascii -> bool) (s : string) : bool :=
  match s with
  | EmptyString => true
  | String c rest => p c && string_forall p rest
  end.

(** [query.find("&", pos)] / [substr] loop of [buildUrlWithParams]: the
    pieces of [query] between ampersands, [param] being the piece under
    construction. *)
Fixpoint split_params (query : string) (param : string) : list string :=
  match query with
  | EmptyString => [param]
  | String c rest =>
      if Ascii.eqb c "&" then param :: split_params rest EmptyString
      else split_params rest (param ++ String c EmptyString)%string
  end.

(** What is appended for one parameter, without the separator: the value
    after the first [=] is encoded, a parameter without [=] is copied. *)
Definition encode_param (param : string) : string :=
  match Lyrics.find_char "=" param with
  | Some eq_pos =>
      let key := Lyrics.substr 0 eq_pos param in
      let value := Lyrics.substr_from (eq_pos + 1) param in
      (key ++ "=" ++ url_encode value)%string
  | None => param
  end.

Definition buildUrlWithParams (base_url path query : string) : string :=
  (base_url ++ path ++ "?"
   ++ String.concat "&" (map encode_param (split_params query EmptyString)))%string.

(** [mac.erase(std::remove(mac.begin(), mac.end(), ':'), mac.end())]. *)
Fixpoint remove_colons (mac : string) : string :=
  match mac with
  | EmptyString => EmptyString
  | String c rest =>
      if Ascii.eqb c ":" then remove_colons rest
      else String c (remove_colons rest)
  end.

Definition get_device_chip_id (mac : string) : string := remove_colons mac.

Definition secret_key : string := "your-esp32-secret-key-2024".

(** [std::to_string] of an [int64_t]. *)
Definition to_string (z : Z) : string :=
  DecimalString.NilZero.string_of_int (Z.to_int z).

Definition is_upper_hex (c : ascii) : bool :=
  let n := nat_of_ascii c in
  ((48 <=? n) && (n <=? 57) || (65 <=? n) && (n <=? 70))%nat.

(** The loop over [hash[0 .. 15]] with [%02X]. *)
Definition hex_byte (b : byte) : string :=
  let n := Byte.to_nat b in
  String (hex_digit (n / 16)) (String (hex_digit (n mod 16)) EmptyString).

Fixpoint hex_string (bytes : list byte) : string :=
  match bytes with
  | [] => EmptyString
  | b :: rest => (hex_byte b ++ hex_string rest)%string
  end.

Section WithDevice.

(** [SystemInfo::GetMacAddress()] and [mbedtls_sha256] (which fills the 32
    bytes of [hash]) belong to the platform. *)
Variable mac : string.
Variable sha256 : string -> list byte.

Definition dynamic_key_data (timestamp : Z) : string :=
  (mac ++ ":" ++ get_device_chip_id mac ++ ":" ++ to_string timestamp
   ++ ":" ++ secret_key)%string.

Definition generate_dynamic_key (timestamp : Z) : string :=
  hex_string (firstn 16 (sha256 (dynamic_key_data timestamp))).

(** The headers [add_auth_headers] sets, in order, when the timer reads
    [time_us] microseconds since boot. *)
Definition add_auth_headers (time_us : Z) : list (string * string) :=
  let timestamp := Z.quot time_us 1000000 in
  [("X-MAC-Address"%string, mac);
   ("X-Chip-ID"%string, get_device_chip_id mac);
   ("X-Timestamp"%string, to_string timestamp);
   ("X-Dynamic-Key"%string, generate_dynamic_key timestamp)].

End WithDevice.

(** The request [Download] opens for a song name. *)
Definition lookup_url (song_name : string) : string :=
  (Url.base_url ++ "stream_pcm.php?song=" ++ url_encode song_name)%string.

End Request.

(** ** The chunk queue with a record of what entered and left it *)

Module ChunkLog.

Import ChunkBuffer.

(** How a chunk left the queue. *)
Inductive release :=
| ToDecoder (c : AudioChunk)      (* popped in [PlayAudioStream], freed there *)
| FreedByClear (c : AudioChunk).  (* freed in [ClearAudioBuffer] *)

Definition released_chunk (r : release) : AudioChunk :=
  match r with ToDecoder c => c | FreedByClear c => c end.

Record log := mkLog {
  accepted : list AudioChunk;     (* chunks queued by the downloader, oldest first *)
  dropped : list AudioChunk;      (* chunks the downloader freed itself *)
  released : list release         (* chunks that left the queue, oldest first *)
}.

Definition empty_log : log := mkLog [] [] [].

Section WithCapacity.

Variable MAX_BUFFER_SIZE : Z.

(** [step] of the buffer, with the record kept beside it. *)
Definition log_step (s : Radio * log) (e : event) : Radio * log :=
  let (r, l) := s in
  let l' :=
    match e with
    | Push bytes =>
        let chunk := mkChunk bytes (Z.of_nat (List.length bytes)) in
        if (buffer_size_ r <? MAX_BUFFER_SIZE) || negb (is_downloading_ r) then
          if is_downloading_ r
          then mkLog (accepted l ++ [chunk]) (dropped l) (released l)
          else mkLog (accepted l) (dropped l ++ [chunk]) (released l)
        else l
    | Pop =>
        match fst (pop_chunk r) with
        | Some chunk => mkLog (accepted l) (dropped l) (released l ++ [ToDecoder chunk])
        | None => l
        end
    | Clear =>
        mkLog (accepted l) (dropped l)
              (released l ++ map FreedByClear (audio_buffer_ r))
    | SetDownloading _ => l
    end in
  (step MAX_BUFFER_SIZE r e, l').

Definition log_run (s : Radio * log) (evs : list event) : Radio * log :=
  fold_left log_step evs s.

End WithCapacity.

End ChunkLog.

(** ** Starting a stream: the URL check of [DownloadAudioStream] and the
    refill of the decoder's input window in [PlayAudioStream] *)

Module Stream.

(** [Radio_url.empty() || Radio_url.find("http") != 0]. *)
Definition url_rejected (Radio_url : string) : bool :=
  match Radio_url with
  | EmptyString => true
  | _ => match String.index 0 "http" Radio_url with
         | Some O => false
         | _ => true
         end
  end.

(** [status_code != 200 && status_code != 206]. *)
Definition status_rejected (status_code : Z) : bool :=
  negb (status_code =? 200) && negb (status_code =? 206).

(** The decoder's input: the 8192-byte [mp3_input_buffer], the offset of
    [read_ptr] in it, [bytes_left] and [id3_processed]. *)
Record input := mkInput {
  mp3_input_buffer : list byte;
  read_ptr : Z;
  bytes_left : Z;
  id3_processed : bool
}.

Definition buffer_capacity : Z := 8192.

(** The bytes [read_ptr[0 .. bytes_left)]. *)
Definition window (s : input) : list byte :=
  firstn (Z.to_nat (bytes_left s)) (skipn (Z.to_nat (read_ptr s)) (mp3_input_buffer s)).

(** [memcpy(dst + offset, src, n)] and [memmove] into the buffer. *)
Definition write_at (buffer : list byte) (offset : Z) (src : list byte) : list byte :=
  firstn (Z.to_nat offset) buffer ++ src
  ++ skipn (Z.to_nat offset + List.length src) buffer.

(** The body of [if (chunk.data && chunk.size > 0)] for a popped chunk. *)
Definition refill (s : input) (chunk : ChunkBuffer.AudioChunk) : input :=
  if ChunkBuffer.size chunk >? 0 then
    let moved :=
      if (bytes_left s >? 0) && negb (read_ptr s =? 0)
      then write_at (mp3_input_buffer s) 0 (window s)
      else mp3_input_buffer s in
    let space_available := buffer_capacity - bytes_left s in
    let copy_size := Z.min (ChunkBuffer.size chunk) space_available in
    let filled :=
      write_at moved (bytes_left s)
        (firstn (Z.to_nat copy_size) (ChunkBuffer.data chunk)) in
    let bytes_left1 := bytes_left s + copy_size in
    if negb (id3_processed s) && (bytes_left1 >=? 10) then
      let id3_skip := Id3.SkipId3Tag filled bytes_left1 in
      if id3_skip >? 0
      then mkInput filled id3_skip (bytes_left1 - id3_skip) true
      else mkInput filled 0 bytes_left1 true
    else mkInput filled 0 bytes_left1 (id3_processed s)
  else s.

(** The window lies inside the buffer. *)
Definition input_ok (s : input) : Prop :=
  List.length (mp3_input_buffer s) = Z.to_nat buffer_capacity
  /\ 0 <= read_ptr s /\ 0 <= bytes_left s
  /\ read_ptr s + bytes_left s <= buffer_capacity.

(** A chunk as the downloader queues it. *)
Definition chunk_wf (c : ChunkBuffer.AudioChunk) : Prop :=
  ChunkBuffer.size c = Z.of_nat (List.length (ChunkBuffer.data c))
  /\ 0 < ChunkBuffer.size c <= ChunkBuffer.chunk_size.

End Stream.

(** ** Elapsed play time *)

Module PlayTime.

(** [current_play_time_ms_ += frame_duration_ms] for a decoded frame; a
    frame that fails the validity check leaves the time as it is. *)
Definition advance (current_play_time_ms_ : Z) (fi : Frame.MP3FrameInfo) : Z :=
  match Frame.frame_duration fi with
  | Frame.Duration frame_duration_ms => current_play_time_ms_ + frame_duration_ms
  | _ => current_play_time_ms_
  end.

(** [current_play_time_ms_] after the given frames, from the 0 it is set
    to when [PlayAudioStream] starts.  The counter is an [int64_t]: the sum
    is written without wrap-around, the bound is a conclusion of the
    theorem on it. *)
Definition play_time (frames : list Frame.MP3FrameInfo) : Z :=
  fold_left advance frames 0.

(** [int buffer_latency_ms = 600]: the time handed to
    [UpdateLyricDisplay]. *)
Definition lyric_time (frames : list Frame.MP3FrameInfo) : Z :=
  play_time frames + 600.

(** Frames as an MP3 decoder reports them: positive rate and channel
    count, a sample count that is not negative, all small enough for the
    [int] products of the duration formula. *)
Definition frame_valid (fi : Frame.MP3FrameInfo) : Prop :=
  0 < Frame.samprate fi /\ 0 < Frame.nChans fi /\ 0 <= Frame.outputSamps fi
  /\ in_int (Frame.outputSamps fi * 1000)
  /\ in_int (Frame.samprate fi * Frame.nChans fi).

End PlayTime.

(** * The outcome of a lyric fetch *)

Module FetchOutcome.

Import LyricFetch.

(** The text a pass leaves in [lyric_content] when it reaches the read
    loop. *)
Definition body (r : response) : string := fst (fst (read_body r)).

(** A pass that reaches the end of the loop body without [retry_count++]:
    a client, an open connection, a status in 200..299 that is no redirect,
    and a read loop that ends without [read_error]. *)
Definition pass_succeeds (r : response) : bool :=
  http_created r && open_ok r
  && negb (is_redirect (status_code r))
  && negb ((status_code r <? 200) || (status_code r >=? 300))
  && negb (snd (read_body r)).

(** The first of the passes [from], [from + 1], ... ([count] of them) that
    succeeds. *)
Fixpoint first_success (network : nat -> response) (from count : nat)
    : option nat :=
  match count with
  | O => None
  | S count' =>
      if pass_succeeds (network from) then Some from
      else first_success network (S from) count'
  end.

Definition nonempty (content : string) : option string :=
  match content with
  | EmptyString => None
  | _ => Some content
  end.

End FetchOutcome.

(** * Lyric text as lines *)

Module LrcText.

Definition LF : ascii := "010"%char.

(** A text whose lines are the given ones, each ended by a line feed. *)
Fixpoint unlines (lines : list string) : string :=
  match lines with
  | [] => EmptyString
  | line :: rest => (line ++ String LF (unlines rest))%string
  end.

Definition no_line_feed (line : string) : Prop :=
  Lyrics.find_char LF line = None.

End LrcText.

(** * Lyrics during playback *)

Module LyricSync.

(** [current_play_time_ms_] and [current_lyric_index_]. *)
Record state := mkState { time : Z; index : Z }.

(** A decoded frame: the time advances by the duration of the frame and
    [UpdateLyricDisplay(current_play_time_ms_ + buffer_latency_ms)] runs,
    [buffer_latency_ms] being 600.  A frame that fails the validity check is
    skipped before both. *)
Definition on_frame (lyrics_ : list Lyrics.LyricLine) (s : state)
    (fi : Frame.MP3FrameInfo) : state :=
  match Frame.frame_duration fi with
  | Frame.Duration frame_duration_ms =>
      let t := time s + frame_duration_ms in
      mkState t (Lyrics.UpdateLyricDisplay lyrics_ (index s) (t + 600))
  | _ => s
  end.

(** The frames decoded while [lyrics_] holds the given lines. *)
Definition run (lyrics_ : list Lyrics.LyricLine)
    (frames : list Frame.MP3FrameInfo) (s : state) : state :=
  fold_left (on_frame lyrics_) frames s.

(** A song with lyrics: [Download] sets the index to -1 and clears
    [lyrics_] at some play time; the frames [before] are decoded while the
    lyric thread downloads, [ParseLyrics] then fills [lyrics_] under the
    mutex that [UpdateLyricDisplay] takes, and the frames [after] follow. *)
Definition play (lyrics_ : list Lyrics.LyricLine) (current_play_time_ms_ : Z)
    (before after : list Frame.MP3FrameInfo) : state :=
  run lyrics_ after (run [] before (mkState current_play_time_ms_ (-1))).

(** A frame that passes the validity check with values a decoder
    reports, or one that fails it. *)
Definition frame_usable (fi : Frame.MP3FrameInfo) : Prop :=
  PlayTime.frame_valid fi \/ Frame.frame_duration fi = Frame.FrameSkipped.

Definition counted (fi : Frame.MP3FrameInfo) : bool :=
  match Frame.frame_duration fi with
  | Frame.Duration _ => true
  | _ => false
  end.

End LyricSync.

(** * The tool list of the MCP server *)

Module Mcp.

(** What the server reads of an [McpTool]: the results of [name()],
    [user_only()] and [to_json()].  The class is declared in the server's
    header. *)
Record McpTool := mkTool {
  name : string;
  user_only : bool;
  to_json : string
}.

Definition has_name (n : string) (t : McpTool) : bool := String.eqb (name t) n.

(** [std::find_if(tools_.begin(), tools_.end(), ... name() == tool_name)],
    the lookup of [DoToolCall]. *)
Definition find_tool (tools_ : list McpTool) (tool_name : string)
    : option McpTool :=
  find (has_name tool_name) tools_.

(** [AddTool], the overload that takes the tool: the new [tools_]. *)
Definition AddTool (tools_ : list McpTool) (tool : McpTool) : list McpTool :=
  if existsb (has_name (name tool)) tools_ then tools_ else tools_ ++ [tool].

(** [AddCommonTools]: [tools_] is moved aside, the common tools are added
    to the empty vector by [AddTool], and the original tools are inserted
    at the end.  Which common tools there are depends on the board. *)
Definition AddCommonTools (common : list McpTool) (tools_ : list McpTool)
    : list McpTool :=
  fold_left AddTool common [] ++ tools_.

(** *** [tools/list] *)

Definition quote : string := String "034" EmptyString.

Definition max_payload_size : Z := 8000.

(** [s.length()]. *)
Definition len (s : string) : Z := Z.of_nat (String.length s).

(** The text that opens the list, an object with the key [tools] and the
    bracket of its array. *)
Definition tools_open : string :=
  (String "{" quote ++ "tools" ++ quote ++ ":[")%string.

Definition is_empty (s : string) : bool :=
  match s with EmptyString => true | _ => false end.

(** The [while] loop: the text collected and [next_cursor]. *)
Fixpoint list_loop (tools : list McpTool) (cursor : string)
    (list_user_only_tools found_cursor : bool) (json : string)
    : string * string :=
  match tools with
  | [] => (json, EmptyString)
  | t :: rest =>
      if negb found_cursor && negb (String.eqb (name t) cursor)
      then list_loop rest cursor list_user_only_tools false json
      else if negb list_user_only_tools && user_only t
      then list_loop rest cursor list_user_only_tools true json
      else
        let tool_json := (to_json t ++ ",")%string in
        if max_payload_size <? len json + len tool_json + 30
        then (json, name t)
        else list_loop rest cursor list_user_only_tools true
               (json ++ tool_json)%string
  end.

(** [s.back()], for a string that is not empty, and [s.pop_back()]. *)
Fixpoint back (s : string) : option ascii :=
  match s with
  | EmptyString => None
  | String c EmptyString => Some c
  | String _ rest => back rest
  end.

Fixpoint pop_back (s : string) : string :=
  match s with
  | EmptyString => EmptyString
  | String _ EmptyString => EmptyString
  | String c rest => String c (pop_back rest)
  end.

Definition back_is (c : ascii) (s : string) : bool :=
  match back s with
  | Some d => Ascii.eqb d c
  | None => false
  end.

(** [ReplyResult(id, result)] and [ReplyError(id, message)]. *)
Inductive reply :=
| ReplyResult (id : Z) (result : string)
| ReplyError (id : Z) (message : string).

Definition cursor_tail (next_cursor : string) : string :=
  if is_empty next_cursor then "]}"%string
  else ("]," ++ quote ++ "nextCursor" ++ quote ++ ":" ++ quote
        ++ next_cursor ++ quote ++ "}")%string.

Definition GetToolsList (id : Z) (cursor : string) (list_user_only_tools : bool)
    (tools_ : list McpTool) : reply :=
  let '(json, next_cursor) :=
    list_loop tools_ cursor list_user_only_tools (is_empty cursor) tools_open in
  let json := if back_is "," json then pop_back json else json in
  if back_is "[" json && negb (match tools_ with [] => true | _ => false end)
  then ReplyError id
         ("Failed to add tool " ++ next_cursor
          ++ " because of payload size limit")%string
  else ReplyResult id (json ++ cursor_tail next_cursor)%string.

(** *** The list seen as pages *)

(** The tools from the one named [cursor] on; all of them for the empty
    cursor. *)
Fixpoint from_cursor (cursor : string) (tools : list McpTool) : list McpTool :=
  match tools with
  | [] => []
  | t :: rest =>
      if is_empty cursor || String.eqb (name t) cursor then tools
      else from_cursor cursor rest
  end.

(** The tools a request may see. *)
Definition visible (list_user_only_tools : bool) (tools : list McpTool)
    : list McpTool :=
  filter (fun t => list_user_only_tools || negb (user_only t)) tools.

(** The longest run of tools that fits after [used] characters, and the
    tools left over. *)
Fixpoint take_page (used : Z) (tools : list McpTool)
    : list McpTool * list McpTool :=
  match tools with
  | [] => ([], [])
  | t :: rest =>
      if max_payload_size <? used + (len (to_json t) + 1) + 30
      then ([], tools)
      else
        let '(page, remaining) := take_page (used + (len (to_json t) + 1)) rest in
        (t :: page, remaining)
  end.

Definition next_name (remaining : list McpTool) : string :=
  match remaining with
  | [] => EmptyString
  | t :: _ => name t
  end.

(** The texts of the tools, each followed by a comma, as the loop
    collects them. *)
Fixpoint with_commas (page : list McpTool) : string :=
  match page with
  | [] => EmptyString
  | t :: rest => (to_json t ++ "," ++ with_commas rest)%string
  end.

(** [to_json()] prints a JSON object: its text ends with a closing
    brace. *)
Definition prints_object (t : McpTool) : Prop := back (to_json t) = Some "}"%char.

End Mcp.

(** * Stopping a stream *)

Module Stop.

(** What [StopStreaming] does to its surroundings. *)
Inductive action :=
| ResetSampleRate
| SetMusicInfo (text : string)   (* [display->SetMusicInfo] *)
| NotifyAll                      (* [buffer_cv_.notify_all()] *)
| JoinDownload                   (* [download_thread_.join()] *)
| Delay (ms : Z)                 (* [vTaskDelay(pdMS_TO_TICKS(ms))] *)
| JoinPlay                       (* [play_thread_.join()] *)
| DetachPlay                     (* [play_thread_.detach()] *)
| StopFft.                       (* [display->stopFft()] *)

Definition max_wait : Z := 100.

(** The wait loop; [joinable k] is the answer of the [k]-th call of
    [play_thread_.joinable()] in [StopStreaming].  The result holds
    [wait_count], the number of calls made so far and the delays. *)
Fixpoint wait_loop (fuel : nat) (joinable : nat -> bool) (calls : nat)
    (wait_count : Z) : Z * nat * list action :=
  match fuel with
  | O => (wait_count, calls, [])
  | S fuel' =>
      if wait_count <? max_wait then
        if negb (joinable calls)
        then (wait_count + 1, S calls, [Delay 10])
        else
          let r := wait_loop fuel' joinable (S calls) (wait_count + 1) in
          (fst (fst r), snd (fst r), Delay 10 :: snd r)
      else (wait_count, calls, [])
  end.

(** The part for the play thread. *)
Definition stop_play_thread (fuel : nat) (joinable : nat -> bool)
    : list action :=
  if joinable 0%nat then
    let r := wait_loop fuel joinable 1 0 in
    let wait_count := fst (fst r) in
    let calls := snd (fst r) in
    NotifyAll :: snd r
    ++ (if joinable calls
        then if wait_count >=? max_wait then [DetachPlay] else [JoinPlay]
        else [])
  else [].

Record flags := mkFlags { is_playing_ : bool; is_downloading_ : bool }.

(** [StopStreaming]: the value returned, the flags and the actions.
    [display] tells whether the board has a display, [spectrum] whether
    [display_mode_] is [DISPLAY_MODE_SPECTRUM]. *)
Definition StopStreaming (fuel : nat) (s : flags) (display spectrum : bool)
    (download_joinable : bool) (play_joinable : nat -> bool)
    : bool * flags * list action :=
  if negb (is_playing_ s) && negb (is_downloading_ s)
  then (true, s, [ResetSampleRate])
  else
    (true, mkFlags false false,
     [ResetSampleRate]
     ++ (if display then [SetMusicInfo EmptyString] else [])
     ++ [NotifyAll]
     ++ (if download_joinable then [JoinDownload] else [])
     ++ stop_play_thread fuel play_joinable
     ++ (if display && spectrum then [StopFft] else [])).

(** The answer of the tool [self.radio.stop]. *)
Inductive stop_answer :=
| Stopped            (* the text with [success] true *)
| NothingPlaying.    (* the text with [success] false *)

Definition radio_stop_tool (ket_qua : bool) : stop_answer :=
  if ket_qua then Stopped else NothingPlaying.

Definition is_delay (a : action) : bool :=
  match a with Delay _ => true | _ => false end.

Definition delays (acts : list action) : nat := List.length (filter is_delay acts).

(** [joinable()] of a thread object turns false by [join] or [detach]
    only and then stays false: a thread that has finished is still
    joinable. *)
Definition stays_false (joinable : nat -> bool) : Prop :=
  forall i j : nat, (i <= j)%nat -> joinable i = false -> joinable j = false.

End Stop.

(** * Proofs *)

(** ** Machine integers *)

Lemma wrap_u32_small z : 0 <= z < 2 ^ 32 -> wrap_u32 z = z.
Proof. intros H. unfold wrap_u32. now apply Z.mod_small. Qed.

Lemma wrap_int_small z : in_int z -> wrap_int z = z.
Proof.
  unfold in_int, wrap_int. intros H.
  rewrite Z.mod_small; lia.
Qed.

Lemma wrap_i16_small z : in_i16 z -> wrap_i16 z = z.
Proof.
  unfold in_i16, wrap_i16. intros H.
  rewrite Z.mod_small; lia.
Qed.

Lemma wrap_int_range z : in_int (wrap_int z).
Proof.
  unfold in_int, wrap_int.
  pose proof (Z.mod_pos_bound (z + 2 ^ 31) (2 ^ 32) ltac:(lia)). lia.
Qed.

(** ** Bounded chunk buffer *)

Section BufferFacts.

Import ChunkBuffer.

Variable MAX_BUFFER_SIZE : Z.
Hypothesis capacity_nonneg : 0 <= MAX_BUFFER_SIZE.
Hypothesis capacity_fits : MAX_BUFFER_SIZE + chunk_size <= 2 ^ 32.

Lemma queued_bytes_app q c :
  queued_bytes (q ++ [c]) = queued_bytes q + size c.
Proof.
  induction q as [|d q IH]; simpl.
  - lia.
  - rewrite IH. lia.
Qed.

Lemma queued_bytes_nonneg q : Forall chunk_ok q -> 0 <= queued_bytes q.
Proof.
  induction 1 as [|c q Hc _ IH]; simpl.
  - lia.
  - unfold chunk_ok in Hc. lia.
Qed.

Lemma init_inv : buffer_inv MAX_BUFFER_SIZE init.
Proof.
  unfold buffer_inv, init, chunk_size; simpl.
  repeat split; try constructor; lia.
Qed.

Lemma push_chunk_inv bytes r :
  0 < Z.of_nat (List.length bytes) <= chunk_size ->
  buffer_inv MAX_BUFFER_SIZE r ->
  buffer_inv MAX_BUFFER_SIZE (push_chunk MAX_BUFFER_SIZE bytes r).
Proof.
  intros Hlen (Hsum & Hall & Hrange).
  unfold push_chunk.
  destruct (is_downloading_ r) eqn:Hdl; simpl.
  - rewrite orb_false_r.
    destruct (buffer_size_ r <? MAX_BUFFER_SIZE) eqn:Hlt.
    + apply Z.ltb_lt in Hlt.
      unfold buffer_inv; simpl.
      rewrite wrap_u32_small by (unfold chunk_size in *; lia).
      rewrite queued_bytes_app; simpl.
      repeat split; try lia.
      apply Forall_app; split; [assumption|].
      constructor; [exact Hlen | constructor].
    + repeat split; assumption || lia.
  - rewrite orb_true_r. repeat split; assumption || lia.
Qed.

Lemma pop_chunk_inv r :
  buffer_inv MAX_BUFFER_SIZE r ->
  buffer_inv MAX_BUFFER_SIZE (snd (pop_chunk r)).
Proof.
  intros (Hsum & Hall & Hrange).
  unfold pop_chunk.
  destruct (audio_buffer_ r) as [|c rest] eqn:Hq; simpl.
  - unfold buffer_inv. rewrite Hq. repeat split; assumption || lia.
  - simpl in Hsum. inversion Hall as [|? ? Hc Hrest]; subst.
    pose proof (queued_bytes_nonneg rest Hrest) as Hnn.
    unfold chunk_ok in Hc.
    unfold buffer_inv; simpl.
    rewrite wrap_u32_small by (unfold chunk_size in *; lia).
    repeat split; try assumption; lia.
Qed.

Lemma step_inv r e :
  read_ok e -> buffer_inv MAX_BUFFER_SIZE r ->
  buffer_inv MAX_BUFFER_SIZE (step MAX_BUFFER_SIZE r e).
Proof.
  intros He Hinv. destruct e as [bytes| | |b]; simpl.
  - now apply push_chunk_inv.
  - now apply pop_chunk_inv.
  - unfold buffer_inv, ClearAudioBuffer, chunk_size; simpl.
    repeat split; try constructor; lia.
  - exact Hinv.
Qed.

Lemma run_inv evs : forall r,
  Forall read_ok evs -> buffer_inv MAX_BUFFER_SIZE r ->
  buffer_inv MAX_BUFFER_SIZE (run MAX_BUFFER_SIZE r evs).
Proof.
  induction evs as [|e evs IH]; intros r Hok Hinv; simpl.
  - exact Hinv.
  - inversion Hok; subst. apply IH; [assumption|].
    now apply step_inv.
Qed.

End BufferFacts.

(** Filling the queue byte by byte up to one byte below the capacity. *)
Lemma run_single_bytes (cap : Z) (n : nat) (q : list ChunkBuffer.AudioChunk) :
  Z.of_nat n <= cap -> cap <= 2 ^ 31 ->
  exists q',
    ChunkBuffer.run cap (ChunkBuffer.mkRadio q 0 true)
      (repeat (ChunkBuffer.Push [x00]) n)
    = ChunkBuffer.mkRadio q' (Z.of_nat n) true.
Proof.
  revert q. induction n as [|n IH]; intros q Hn Hcap.
  - exists q. reflexivity.
  - destruct (IH q ltac:(lia) Hcap) as (q' & Hq').
    replace (S n) with (n + 1)%nat by lia.
    rewrite repeat_app. unfold ChunkBuffer.run in *.
    rewrite fold_left_app, Hq'. simpl.
    unfold ChunkBuffer.push_chunk; simpl.
    destruct (Z.of_nat n <? cap) eqn:Hlt; [|apply Z.ltb_ge in Hlt; lia].
    simpl. eexists. f_equal.
    rewrite wrap_u32_small by lia. lia.
Qed.

(** Whatever the capacity, the total can be driven to [capacity + 4095]:
    the push goes through while the total is below the capacity and then adds
    a whole chunk. *)
Lemma buffer_overshoot_any_capacity (cap : Z) :
  0 < cap -> cap <= 2 ^ 31 ->
  exists evs,
    Forall ChunkBuffer.read_ok evs
    /\ ChunkBuffer.buffer_size_ (ChunkBuffer.run cap ChunkBuffer.init evs)
       = cap + ChunkBuffer.chunk_size - 1.
Proof.
  intros Hpos Hcap.
  exists (ChunkBuffer.SetDownloading true
            :: repeat (ChunkBuffer.Push [x00]) (Z.to_nat (cap - 1))
            ++ [ChunkBuffer.Push (repeat x00 4096)]).
  split.
  - constructor; [exact I|].
    apply Forall_app; split.
    + apply Forall_forall. intros e He. apply repeat_spec in He. subst e.
      simpl. unfold ChunkBuffer.chunk_size. lia.
    + constructor; [|constructor]. unfold ChunkBuffer.read_ok.
      rewrite repeat_length. unfold ChunkBuffer.chunk_size. lia.
  - unfold ChunkBuffer.run. simpl fold_left at 1.
    rewrite fold_left_app.
    destruct (run_single_bytes cap (Z.to_nat (cap - 1)) [] ltac:(lia) Hcap)
      as (q' & Hq').
    unfold ChunkBuffer.run in Hq'. simpl ChunkBuffer.step at 2.
    unfold ChunkBuffer.init; simpl ChunkBuffer.audio_buffer_;
      simpl ChunkBuffer.buffer_size_.
    rewrite Hq'. simpl fold_left.
    unfold ChunkBuffer.push_chunk.
    simpl ChunkBuffer.buffer_size_; simpl ChunkBuffer.is_downloading_.
    rewrite Z2Nat.id by lia.
    destruct (cap - 1 <? cap) eqn:Hlt; [|apply Z.ltb_ge in Hlt; lia].
    simpl orb. cbv iota. simpl ChunkBuffer.buffer_size_.
    rewrite wrap_u32_small by lia.
    unfold ChunkBuffer.chunk_size. lia.
Qed.

(** C1, as stated, fails: with capacity 8192, two reads bring the total to
    8191 and the third still goes through, leaving 12287 bytes queued; and
    whatever the capacity, some sequence of reads takes the total above it. *)
Lemma buffer_total_exceeds_capacity :
  (let r := ChunkBuffer.run 8192 ChunkBuffer.init
              [ChunkBuffer.SetDownloading true;
               ChunkBuffer.Push (repeat x00 4096);
               ChunkBuffer.Push (repeat x00 4095);
               ChunkBuffer.Push (repeat x00 4096)] in
   ChunkBuffer.buffer_size_ r = 12287
   /\ ~ (0 <= ChunkBuffer.buffer_size_ r <= 8192))
  /\ (forall cap, 0 < cap <= 2 ^ 31 ->
        exists evs,
          Forall ChunkBuffer.read_ok evs
          /\ cap < ChunkBuffer.buffer_size_
                     (ChunkBuffer.run cap ChunkBuffer.init evs)).
Proof.
  split.
  - vm_compute. split; [reflexivity|].
    intros [_ H]. apply H. reflexivity.
  - intros cap [Hpos Hcap].
    destruct (buffer_overshoot_any_capacity cap Hpos Hcap) as (evs & Hok & Hsize).
    exists evs. split; [exact Hok|].
    rewrite Hsize. unfold ChunkBuffer.chunk_size. lia.
Qed.

(** C1 (amended): after every sequence of pushes, pops, clears and flag
    changes, [buffer_size_] equals the sum of the sizes of the queued chunks
    and lies in [0, MAX_BUFFER_SIZE + 4095]. *)
Theorem buffer_total_invariant (MAX_BUFFER_SIZE : Z) (evs : list ChunkBuffer.event) :
  0 <= MAX_BUFFER_SIZE ->
  MAX_BUFFER_SIZE + ChunkBuffer.chunk_size <= 2 ^ 32 ->
  Forall ChunkBuffer.read_ok evs ->
  let r := ChunkBuffer.run MAX_BUFFER_SIZE ChunkBuffer.init evs in
  ChunkBuffer.buffer_size_ r
    = ChunkBuffer.queued_bytes (ChunkBuffer.audio_buffer_ r)
  /\ 0 <= ChunkBuffer.buffer_size_ r <= MAX_BUFFER_SIZE + 4095.
Proof.
  intros Hnn Hfit Hok r.
  destruct (run_inv MAX_BUFFER_SIZE Hnn Hfit evs ChunkBuffer.init Hok
              (init_inv MAX_BUFFER_SIZE Hnn))
    as (Hsum & _ & Hrange).
  fold r in Hsum, Hrange. unfold ChunkBuffer.chunk_size in Hrange.
  split; [exact Hsum | lia].
Qed.

Lemma buffer_total_invariant_witness :
  let r := ChunkBuffer.run 8192 ChunkBuffer.init
             [ChunkBuffer.SetDownloading true;
              ChunkBuffer.Push [x49; x44; x33];
              ChunkBuffer.Push [xff; xfb];
              ChunkBuffer.Pop] in
  ChunkBuffer.buffer_size_ r
    = ChunkBuffer.queued_bytes (ChunkBuffer.audio_buffer_ r)
  /\ 0 <= ChunkBuffer.buffer_size_ r <= 8192 + 4095.
Proof.
  apply (buffer_total_invariant 8192).
  - lia.
  - unfold ChunkBuffer.chunk_size. lia.
  - repeat constructor; simpl; unfold ChunkBuffer.chunk_size; lia.
Defined.

(** ** ID3v2 tag skip *)

Lemma lor_shifted_low (hi lo n : Z) :
  0 <= n -> 0 <= lo < 2 ^ n -> Z.lor (hi * 2 ^ n) lo = hi * 2 ^ n + lo.
Proof.
  intros Hn Hlo.
  assert (Hdisj : Z.land (hi * 2 ^ n) lo = 0).
  { apply Z.bits_inj'. intros m Hm.
    rewrite Z.land_spec, Z.bits_0.
    destruct (Z.lt_ge_cases m n) as [Hlt | Hge].
    - rewrite Z.mul_pow2_bits_low by lia. reflexivity.
    - replace lo with (lo mod 2 ^ n) by (apply Z.mod_small; lia).
      rewrite Z.mod_pow2_bits_high by lia. apply andb_false_r. }
  rewrite <- Z.lxor_lor by exact Hdisj.
  symmetry. apply Z.add_nocarry_lxor. exact Hdisj.
Qed.

Lemma land_127 (b : Z) : Z.land b 127 = b mod 128.
Proof. change 127 with (Z.ones 7). rewrite Z.land_ones by lia. reflexivity. Qed.

Lemma tag_size_synchsafe (data : list byte) :
  Id3.tag_size data
  = Id3.synchsafe28 (Id3.byte_at data 6) (Id3.byte_at data 7)
      (Id3.byte_at data 8) (Id3.byte_at data 9).
Proof.
  unfold Id3.tag_size, Id3.synchsafe28.
  rewrite !land_127, !Z.shiftl_mul_pow2 by lia.
  pose proof (Z.mod_pos_bound (Id3.byte_at data 6) 128 ltac:(lia)) as H6.
  pose proof (Z.mod_pos_bound (Id3.byte_at data 7) 128 ltac:(lia)) as H7.
  pose proof (Z.mod_pos_bound (Id3.byte_at data 8) 128 ltac:(lia)) as H8.
  pose proof (Z.mod_pos_bound (Id3.byte_at data 9) 128 ltac:(lia)) as H9.
  set (b6 := Id3.byte_at data 6 mod 128) in *.
  set (b7 := Id3.byte_at data 7 mod 128) in *.
  set (b8 := Id3.byte_at data 8 mod 128) in *.
  set (b9 := Id3.byte_at data 9 mod 128) in *.
  rewrite !wrap_u32_small by lia.
  rewrite (lor_shifted_low b6 (b7 * 2 ^ 14) 21) by lia.
  replace (b6 * 2 ^ 21 + b7 * 2 ^ 14) with ((b6 * 2 ^ 7 + b7) * 2 ^ 14) by lia.
  rewrite (lor_shifted_low _ (b8 * 2 ^ 7) 14) by lia.
  replace ((b6 * 2 ^ 7 + b7) * 2 ^ 14 + b8 * 2 ^ 7)
    with (((b6 * 2 ^ 7 + b7) * 2 ^ 7 + b8) * 2 ^ 7) by lia.
  rewrite (lor_shifted_low _ b9 7) by lia.
  lia.
Qed.

Lemma synchsafe28_range (b6 b7 b8 b9 : Z) :
  0 <= Id3.synchsafe28 b6 b7 b8 b9 < 2 ^ 28.
Proof.
  unfold Id3.synchsafe28.
  pose proof (Z.mod_pos_bound b6 128 ltac:(lia)).
  pose proof (Z.mod_pos_bound b7 128 ltac:(lia)).
  pose proof (Z.mod_pos_bound b8 128 ltac:(lia)).
  pose proof (Z.mod_pos_bound b9 128 ltac:(lia)).
  lia.
Qed.

(** C4: on a buffer that starts with the bytes "ID3" and has at least
    10 bytes available, the skip is [10 + tag_size] clamped to the available
    bytes, where [tag_size] is the synchsafe 28-bit reading of bytes 6..9
    (bit 7 of each ignored); with size bytes 00 00 02 01 the tag size is 257
    and, given at least 267 bytes, the skip is 267. *)
Theorem skip_id3_tag_synchsafe (rest : list byte) (size : Z) :
  10 <= size ->
  let data := x49 :: x44 :: x33 :: rest in
  let tag := Id3.synchsafe28 (Id3.byte_at data 6) (Id3.byte_at data 7)
               (Id3.byte_at data 8) (Id3.byte_at data 9) in
  Id3.tag_size data = tag
  /\ 0 <= tag < 2 ^ 28
  /\ Id3.SkipId3Tag data size = Z.min (10 + tag) size
  /\ (Id3.byte_at data 6 = 0 -> Id3.byte_at data 7 = 0 ->
      Id3.byte_at data 8 = 2 -> Id3.byte_at data 9 = 1 ->
      tag = 257 /\ (267 <= size -> Id3.SkipId3Tag data size = 267)).
Proof.
  intros Hsize data tag.
  assert (Hmark : Id3.has_id3_marker data = true) by reflexivity.
  pose proof (tag_size_synchsafe data) as Htag. fold tag in Htag.
  pose proof (synchsafe28_range (Id3.byte_at data 6) (Id3.byte_at data 7)
                (Id3.byte_at data 8) (Id3.byte_at data 9)) as Hrange.
  fold tag in Hrange.
  assert (Hskip : Id3.SkipId3Tag data size = Z.min (10 + tag) size).
  { unfold Id3.SkipId3Tag.
    destruct (size <? 10) eqn:Hlt; [apply Z.ltb_lt in Hlt; lia|].
    rewrite Hmark; simpl negb; cbv iota.
    rewrite Htag, wrap_u32_small by lia.
    destruct (10 + tag >? size) eqn:Hgt.
    - apply Z.gtb_lt in Hgt. lia.
    - rewrite Z.gtb_ltb in Hgt. apply Z.ltb_ge in Hgt. lia. }
  split; [exact Htag|]. split; [exact Hrange|]. split; [exact Hskip|].
  intros H6 H7 H8 H9.
  assert (Hval : tag = 257) by (subst tag; rewrite H6, H7, H8, H9; reflexivity).
  split; [exact Hval|].
  intros Hbig. rewrite Hskip, Hval. lia.
Qed.

Lemma skip_id3_tag_synchsafe_witness :
  let data := [x49; x44; x33; x04; x00; x00; x00; x00; x02; x01; xff; xfb] in
  let tag := Id3.synchsafe28 (Id3.byte_at data 6) (Id3.byte_at data 7)
               (Id3.byte_at data 8) (Id3.byte_at data 9) in
  Id3.tag_size data = tag
  /\ 0 <= tag < 2 ^ 28
  /\ Id3.SkipId3Tag data 300 = Z.min (10 + tag) 300
  /\ (Id3.byte_at data 6 = 0 -> Id3.byte_at data 7 = 0 ->
      Id3.byte_at data 8 = 2 -> Id3.byte_at data 9 = 1 ->
      tag = 257 /\ (267 <= 300 -> Id3.SkipId3Tag data 300 = 267)).
Proof.
  apply (skip_id3_tag_synchsafe
           [x04; x00; x00; x00; x00; x02; x01; xff; xfb] 300).
  lia.
Defined.

(** The worked example of the design document, evaluated; without the
    marker or with fewer than 10 bytes nothing is skipped. *)
Example skip_id3_example :
  let header := [x49; x44; x33; x04; x00; x00; x00; x00; x02; x01] in
  Id3.tag_size header = 257
  /\ Id3.SkipId3Tag (header ++ repeat xff 290) 300 = 267
  /\ Id3.SkipId3Tag (header ++ repeat xff 90) 100 = 100
  /\ Id3.SkipId3Tag [xff; xfb; x90; x00; x00; x00; x00; x00; x02; x01] 10 = 0
  /\ Id3.SkipId3Tag [x49; x44; x33; x04; x00; x00; x00; x00; x02] 9 = 0.
Proof. vm_compute. repeat split. Qed.

(** ** Frame duration and downmix *)

Lemma nth_in_i16 (pcm : list Z) (k : nat) :
  Forall in_i16 pcm -> in_i16 (nth k pcm 0).
Proof.
  intros Hall. destruct (Nat.lt_ge_cases k (List.length pcm)) as [Hlt | Hge].
  - rewrite Forall_forall in Hall. apply Hall. now apply nth_In.
  - rewrite nth_overflow by exact Hge. unfold in_i16. lia.
Qed.

Lemma mix_pair_average (pcm : list Z) (i : nat) :
  Forall in_i16 pcm ->
  Frame.mix_pair pcm i = Z.quot (nth (i * 2) pcm 0 + nth (i * 2 + 1) pcm 0) 2.
Proof.
  intros Hall. unfold Frame.mix_pair.
  pose proof (nth_in_i16 pcm (i * 2) Hall) as Hl.
  pose proof (nth_in_i16 pcm (i * 2 + 1) Hall) as Hr.
  unfold in_i16 in Hl, Hr.
  rewrite wrap_int_small by (unfold in_int; lia).
  apply wrap_i16_small. unfold in_i16.
  Z.quot_rem_to_equations. lia.
Qed.



(** The average truncates toward zero, and an odd trailing sample of a
    stereo frame is dropped. *)
Example downmix_truncates :
  Frame.downmix 2 4 [100; 200; -3; 0] = [150; -1]
  /\ Frame.downmix 2 3 [7; 8; 9] = [7]
  /\ Frame.downmix 1 2 [100; 200] = [100; 200]
  /\ Frame.downmix 6 2 [100; 200] = [100; 200].
Proof. vm_compute. repeat split. Qed.

(** The bound on the product matters: the check looks at the two factors,
    the division at their 32-bit product, and 65536 * 65536 wraps to 0.  No
    MP3 frame has such values. *)
Lemma wrapped_product_outside_mp3_range :
  let fi := Frame.mkFrameInfo 65536 65536 2304 in
  Frame.frame_info_ok fi
  /\ ~ Frame.decoded_frame fi
  /\ Frame.samprate fi <> 0 /\ Frame.nChans fi <> 0
  /\ Frame.frame_duration fi = Frame.DivisionByZero.
Proof.
  cbv zeta. split; [|split; [|split; [|split]]].
  - vm_compute. repeat split; congruence.
  - unfold Frame.decoded_frame. cbn [Frame.samprate Frame.nChans]. lia.
  - discriminate.
  - discriminate.
  - reflexivity.
Qed.

Lemma decoded_frame_product (fi : Frame.MP3FrameInfo) :
  Frame.decoded_frame fi -> in_int (Frame.samprate fi * Frame.nChans fi).
Proof.
  intros [Hs Hc]. unfold in_int. nia.
Qed.

(** C9: a frame with zero rate or zero channel count is skipped before
    the duration is computed, so for every frame the decoder reports the
    division is never a division by zero: the frame is skipped, or its
    duration is [outputSamps * 1000 / (samprate * nChans)] in [int]
    arithmetic.  The same holds for every frame whose product
    [samprate * nChans] is representable as [int]. *)
Theorem frame_duration_no_zero_divisor (fi : Frame.MP3FrameInfo) :
  (Frame.samprate fi = 0 \/ Frame.nChans fi = 0 ->
     Frame.frame_duration fi = Frame.FrameSkipped)
  /\ (Frame.decoded_frame fi ->
        Frame.frame_duration fi <> Frame.DivisionByZero
        /\ (Frame.frame_duration fi = Frame.FrameSkipped
            \/ Frame.frame_duration fi
               = Frame.Duration
                   (wrap_int (Z.quot (wrap_int (Frame.outputSamps fi * 1000))
                                (Frame.samprate fi * Frame.nChans fi)))))
  /\ (in_int (Frame.samprate fi * Frame.nChans fi) ->
        Frame.frame_duration fi <> Frame.DivisionByZero
        /\ (Frame.samprate fi <> 0 -> Frame.nChans fi <> 0 ->
            Frame.frame_duration fi
            = Frame.Duration
                (wrap_int (Z.quot (wrap_int (Frame.outputSamps fi * 1000))
                             (Frame.samprate fi * Frame.nChans fi))))).
Proof.
  assert (Hskip : Frame.samprate fi = 0 \/ Frame.nChans fi = 0 ->
                  Frame.frame_duration fi = Frame.FrameSkipped).
  { unfold Frame.frame_duration.
    intros [H | H]; rewrite H; simpl; rewrite ?orb_true_r; reflexivity. }
  assert (Hfits : in_int (Frame.samprate fi * Frame.nChans fi) ->
        Frame.frame_duration fi <> Frame.DivisionByZero
        /\ (Frame.samprate fi <> 0 -> Frame.nChans fi <> 0 ->
            Frame.frame_duration fi
            = Frame.Duration
                (wrap_int (Z.quot (wrap_int (Frame.outputSamps fi * 1000))
                             (Frame.samprate fi * Frame.nChans fi))))).
  { unfold Frame.frame_duration. intros Hfit.
    destruct (Frame.samprate fi =? 0) eqn:Es; simpl.
    { apply Z.eqb_eq in Es. split; [discriminate | congruence]. }
    destruct (Frame.nChans fi =? 0) eqn:Ec; simpl.
    { apply Z.eqb_eq in Ec. split; [discriminate | congruence]. }
    apply Z.eqb_neq in Es, Ec.
    rewrite (wrap_int_small _ Hfit).
    destruct (Frame.samprate fi * Frame.nChans fi =? 0) eqn:Ep.
    { apply Z.eqb_eq in Ep. apply Z.mul_eq_0 in Ep. tauto. }
    split; [discriminate | reflexivity]. }
  split; [exact Hskip|]. split; [|exact Hfits].
  intros Hdec.
  destruct (Hfits (decoded_frame_product fi Hdec)) as [Hnz Hdur].
  split; [exact Hnz|].
  destruct (Z.eq_dec (Frame.samprate fi) 0) as [Hs | Hs]; [left; auto|].
  destruct (Z.eq_dec (Frame.nChans fi) 0) as [Hc | Hc]; [left; auto|].
  right. now apply Hdur.
Qed.

Lemma frame_duration_no_zero_divisor_witness :
  let fi := Frame.mkFrameInfo 2 44100 2304 in
  (Frame.samprate fi = 0 \/ Frame.nChans fi = 0 ->
     Frame.frame_duration fi = Frame.FrameSkipped)
  /\ (Frame.decoded_frame fi ->
        Frame.frame_duration fi <> Frame.DivisionByZero
        /\ (Frame.frame_duration fi = Frame.FrameSkipped
            \/ Frame.frame_duration fi
               = Frame.Duration
                   (wrap_int (Z.quot (wrap_int (Frame.outputSamps fi * 1000))
                                (Frame.samprate fi * Frame.nChans fi)))))
  /\ (in_int (Frame.samprate fi * Frame.nChans fi) ->
        Frame.frame_duration fi <> Frame.DivisionByZero
        /\ (Frame.samprate fi <> 0 -> Frame.nChans fi <> 0 ->
            Frame.frame_duration fi
            = Frame.Duration
                (wrap_int (Z.quot (wrap_int (Frame.outputSamps fi * 1000))
                             (Frame.samprate fi * Frame.nChans fi))))).
Proof. intros fi. apply (frame_duration_no_zero_divisor fi). Defined.

(** A 1152-sample stereo frame at 44.1 kHz lasts 26 ms. *)
Example frame_duration_example :
  Frame.frame_duration (Frame.mkFrameInfo 2 44100 2304) = Frame.Duration 26
  /\ Frame.frame_duration (Frame.mkFrameInfo 0 44100 2304) = Frame.FrameSkipped
  /\ Frame.frame_duration (Frame.mkFrameInfo 2 0 2304) = Frame.FrameSkipped.
Proof. vm_compute. repeat split. Qed.

(** ** URL resolution *)

(** C6: an [audio_url] or [lyric_url] that starts with "http://" or
    "https://" is kept as it is; every other one, with or without the
    proxy marker, becomes the API base followed by the path. *)
Theorem resolve_url_rule (path : string) :
  (Url.starts_with "http://" path = true
   \/ Url.starts_with "https://" path = true ->
     Url.resolve_url path = path)
  /\ (Url.starts_with "http://" path = false ->
      Url.starts_with "https://" path = false ->
      Url.resolve_url path = (Url.base_url ++ path)%string).
Proof.
  unfold Url.resolve_url. split.
  - intros [H | H]; rewrite H; [reflexivity | now rewrite orb_true_r].
  - intros H1 H2. rewrite H1, H2. simpl.
    now destruct (Url.contains "radio_proxy.php" path).
Qed.

Lemma resolve_url_rule_witness :
  let path := "radio_proxy.php?id=7"%string in
  (Url.starts_with "http://" path = true
   \/ Url.starts_with "https://" path = true ->
     Url.resolve_url path = path)
  /\ (Url.starts_with "http://" path = false ->
      Url.starts_with "https://" path = false ->
      Url.resolve_url path = (Url.base_url ++ path)%string).
Proof. intros path. apply (resolve_url_rule path). Defined.

Example resolve_url_examples :
  Url.resolve_url "https://cdn.example/a.mp3" = "https://cdn.example/a.mp3"%string
  /\ Url.resolve_url "http://cdn.example/a.mp3" = "http://cdn.example/a.mp3"%string
  /\ Url.resolve_url "radio_proxy.php?id=7"
     = "https://ai.daongoc.vn/radio/radio_proxy.php?id=7"%string
  /\ Url.resolve_url "music/a.mp3" = "https://ai.daongoc.vn/radio/music/a.mp3"%string
  /\ Url.contains "radio_proxy.php" "x/radio_proxy.php?u=1" = true.
Proof. vm_compute. repeat split. Qed.

(** ** Lyric matching *)

Section MatchFacts.

Import Lyrics.

Lemma sorted_by_time_skipn (n : nat) (l : list LyricLine) :
  sorted_by_time l -> sorted_by_time (skipn n l).
Proof.
  revert l. induction n as [|n IH]; intros l Hs; simpl.
  - exact Hs.
  - destruct l as [|x l]; [exact Hs|].
    apply IH. now inversion Hs.
Qed.

(** What the forward scan returns on a time-sorted suffix: the accumulator
    when the first entry is already later than the play time, and otherwise
    the position of the last entry that is not later. *)
Lemma scan_forward_sorted (rest : list LyricLine) :
  forall (i t acc : Z),
  sorted_by_time rest ->
  (scan_forward rest i t acc = acc /\ forall x, In x rest -> t < fst x)
  \/ exists k : nat,
       (k < List.length rest)%nat
       /\ scan_forward rest i t acc = i + Z.of_nat k
       /\ fst (nth k rest (0, EmptyString)) <= t
       /\ forall j : nat, (k < j < List.length rest)%nat ->
            t < fst (nth j rest (0, EmptyString)).
Proof.
  induction rest as [|x rest IH]; intros i t acc Hs.
  - left. split; [reflexivity | intros y []].
  - inversion Hs as [|? ? Hrest Hall]; subst. simpl.
    destruct (fst x <=? t) eqn:Hx.
    + apply Z.leb_le in Hx. right.
      destruct (IH (i + 1) t i Hrest) as [[Heq Hlater] | (k & Hk & Heq & Hle & Hgt)].
      * exists 0%nat. repeat split; simpl; try lia; try assumption.
        intros j Hj. destruct j as [|j]; [lia|]. simpl.
        apply Hlater. apply nth_In. lia.
      * exists (S k). repeat split; simpl; try lia; try assumption.
        intros j Hj. destruct j as [|j]; [lia|]. simpl.
        apply Hgt. lia.
    + apply Z.leb_gt in Hx. left. split; [reflexivity|].
      intros y [<- | Hy]; [exact Hx|].
      rewrite Forall_forall in Hall. specialize (Hall y Hy). simpl in Hall. lia.
Qed.

Lemma nth_skipn_add (n k : nat) (l : list LyricLine) :
  nth k (skipn n l) (0, EmptyString) = nth (n + k) l (0, EmptyString).
Proof.
  revert l. induction n as [|n IH]; intros l; simpl.
  - reflexivity.
  - destruct l as [|x l]; simpl; [now destruct k | apply IH].
Qed.

End MatchFacts.

(** C3, as stated, fails when the query time lies before the line matched
    last: after the 2000 ms line has been matched (index 2), a query at
    1500 ms starts at index 2, stops at once and reports "none", although
    the 1000 ms line is the last one not later than 1500. *)
Lemma lyric_match_regressing_time :
  let lyrics := [(0, "a"%string); (1000, "b"%string); (2000, "c"%string)] in
  Lyrics.sorted_by_time lyrics
  /\ Lyrics.UpdateLyricDisplay lyrics (-1) 2500 = 2
  /\ Lyrics.UpdateLyricDisplay lyrics 2 1500 = -1
  /\ Lyrics.timestamp_at lyrics 1 <= 1500.
Proof.
  split.
  - unfold Lyrics.sorted_by_time. repeat constructor; simpl; lia.
  - vm_compute. repeat split. discriminate.
Qed.

(** The matcher started from a usable index. *)
Lemma matcher_selects_last
    (lyrics_ : list Lyrics.LyricLine) (current_lyric_index_ t : Z) :
  Lyrics.sorted_by_time lyrics_ ->
  Lyrics.index_not_later lyrics_ t current_lyric_index_ ->
  Lyrics.last_not_later lyrics_ t
    (Lyrics.UpdateLyricDisplay lyrics_ current_lyric_index_ t).
Proof.
  intros Hs Hcur. unfold Lyrics.last_not_later, Lyrics.index_not_later in *.
  unfold Lyrics.UpdateLyricDisplay.
  destruct lyrics_ as [|l0 ls] eqn:Hl.
  { left. destruct Hcur as [-> | [Hr _]]; [|simpl in Hr; lia].
    split; [reflexivity | intros line []]. }
  rewrite <- Hl in *. clear Hl l0 ls.
  destruct Hcur as [-> | [Hrange Hts]].
  - simpl (if -1 >=? 0 then _ else _). simpl skipn.
    destruct (scan_forward_sorted lyrics_ 0 t (-1) Hs)
      as [[Heq Hlater] | (k & Hk & Heq & Hle & Hgt)].
    + left. split; assumption.
    + right. rewrite Heq. unfold Lyrics.timestamp_at.
      replace (Z.to_nat (0 + Z.of_nat k)) with k by lia.
      repeat split; try lia; try assumption.
      intros j Hj. replace j with (Z.of_nat (Z.to_nat j)) in Hj |- * by lia.
      rewrite Nat2Z.id. apply Hgt. lia.
  - destruct (current_lyric_index_ >=? 0) eqn:Hge;
      [|rewrite Z.geb_leb in Hge; apply Z.leb_gt in Hge; lia].
    set (n := Z.to_nat current_lyric_index_).
    pose proof (sorted_by_time_skipn n lyrics_ Hs) as Hs'.
    assert (Hlen : List.length (skipn n lyrics_) = (List.length lyrics_ - n)%nat)
      by apply length_skipn.
    destruct (scan_forward_sorted (skipn n lyrics_) current_lyric_index_ t (-1) Hs')
      as [[Heq Hlater] | (k & Hk & Heq & Hle & Hgt)].
    + exfalso.
      assert (Hin : In (nth 0 (skipn n lyrics_) (0, EmptyString)) (skipn n lyrics_))
        by (apply nth_In; lia).
      specialize (Hlater _ Hin). rewrite nth_skipn_add in Hlater.
      unfold Lyrics.timestamp_at in Hts. fold n in Hts.
      replace (n + 0)%nat with n in Hlater by lia. lia.
    + right. rewrite Heq. unfold Lyrics.timestamp_at.
      rewrite nth_skipn_add in Hle.
      replace (Z.to_nat (current_lyric_index_ + Z.of_nat k)) with (n + k)%nat by lia.
      repeat split; try lia; try assumption.
      intros j Hj.
      specialize (Hgt (Z.to_nat j - n)%nat ltac:(lia)).
      rewrite nth_skipn_add in Hgt.
      replace (n + (Z.to_nat j - n))%nat with (Z.to_nat j) in Hgt by lia.
      exact Hgt.
Qed.


Lemma last_not_later_usable (lyrics_ : list Lyrics.LyricLine) (t t' i : Z) :
  t <= t' -> Lyrics.last_not_later lyrics_ t i ->
  Lyrics.index_not_later lyrics_ t' i.
Proof.
  intros Hle [[Hi _] | (Hr & Hts & _)].
  - now left.
  - right. split; [exact Hr | lia].
Qed.

Lemma last_cons (l : list Z) : forall a d : Z, last (a :: l) d = last l a.
Proof.
  induction l as [|b l IH]; intros a d; [reflexivity|].
  change (last (a :: b :: l) d) with (last (b :: l) d).
  now rewrite !IH.
Qed.

(** Along play times that never decrease, starting with nothing matched,
    the index is after every call that of the last line not later than the
    time of the call. *)
Lemma match_sequence_monotone (lyrics_ : list Lyrics.LyricLine) :
  Lyrics.sorted_by_time lyrics_ ->
  forall (times : list Z) (t0 index : Z),
  Lyrics.index_not_later lyrics_ t0 index ->
  StronglySorted Z.le (t0 :: times) ->
  Lyrics.last_not_later lyrics_ (last times t0)
    (Lyrics.match_sequence lyrics_ index (t0 :: times)).
Proof.
  intros Hs. unfold Lyrics.match_sequence.
  induction times as [|t1 times IH]; intros t0 index Hidx Hsorted.
  - simpl. now apply matcher_selects_last.
  - inversion Hsorted as [|? ? Hrest Hall]; subst.
    rewrite last_cons.
    change (fold_left (Lyrics.UpdateLyricDisplay lyrics_) (t0 :: t1 :: times) index)
      with (fold_left (Lyrics.UpdateLyricDisplay lyrics_) (t1 :: times)
              (Lyrics.UpdateLyricDisplay lyrics_ index t0)).
    apply IH; [|exact Hrest].
    apply last_not_later_usable with t0.
    + inversion Hall; assumption.
    + now apply matcher_selects_last.
Qed.

(** C3 (amended): on a list sorted by timestamp, when nothing was matched
    before (index -1) or the line matched last is not later than the query
    time -- as along every series of play times that never decrease -- the
    new index is that of the last line whose timestamp is at most the query
    time, and -1 ("none") when there is no such line; lines at 0, 1000,
    2000 ms and time 1500 give the 1000 ms line, time -100 gives none. *)
Theorem update_lyric_display_last_le
    (lyrics_ : list Lyrics.LyricLine) (current_lyric_index_ t : Z) :
  Lyrics.sorted_by_time lyrics_ ->
  current_lyric_index_ = -1
  \/ (0 <= current_lyric_index_ < Z.of_nat (List.length lyrics_)
      /\ Lyrics.timestamp_at lyrics_ current_lyric_index_ <= t) ->
  let new_index := Lyrics.UpdateLyricDisplay lyrics_ current_lyric_index_ t in
  let len := Z.of_nat (List.length lyrics_) in
  ((new_index = -1 /\ forall line, In line lyrics_ -> t < fst line)
   \/ (0 <= new_index < len
       /\ Lyrics.timestamp_at lyrics_ new_index <= t
       /\ forall j, new_index < j < len -> t < Lyrics.timestamp_at lyrics_ j))
  /\ (let lines := [(0, "a"%string); (1000, "b"%string); (2000, "c"%string)] in
      Lyrics.UpdateLyricDisplay lines (-1) 1500 = 1
      /\ Lyrics.UpdateLyricDisplay lines (-1) (-100) = -1).
Proof.
  intros Hs Hcur new_index len. split; [|split; reflexivity].
  exact (matcher_selects_last lyrics_ current_lyric_index_ t Hs Hcur).
Qed.

(** What reaches the display: the text of the new line, an empty text
    when the index falls back to "none", nothing when the index is the
    same. *)
Example displayed_text_examples :
  let lines := [(0, "a"%string); (1000, "b"%string); (2000, "c"%string)] in
  Lyrics.displayed_text lines 0 (Lyrics.UpdateLyricDisplay lines 0 1500)
  = Some "b"%string
  /\ Lyrics.displayed_text lines 1 (Lyrics.UpdateLyricDisplay lines 1 1700) = None
  /\ Lyrics.displayed_text lines 2 (Lyrics.UpdateLyricDisplay lines 2 1500)
     = Some EmptyString.
Proof. vm_compute. repeat split. Qed.

Lemma update_lyric_display_last_le_witness :
  let lyrics_ := [(0, "a"%string); (1000, "b"%string); (2000, "c"%string)] in
  let new_index := Lyrics.UpdateLyricDisplay lyrics_ 1 2100 in
  let len := Z.of_nat (List.length lyrics_) in
  ((new_index = -1 /\ forall line, In line lyrics_ -> 2100 < fst line)
   \/ (0 <= new_index < len
       /\ Lyrics.timestamp_at lyrics_ new_index <= 2100
       /\ forall j, new_index < j < len -> 2100 < Lyrics.timestamp_at lyrics_ j))
  /\ (let lines := [(0, "a"%string); (1000, "b"%string); (2000, "c"%string)] in
      Lyrics.UpdateLyricDisplay lines (-1) 1500 = 1
      /\ Lyrics.UpdateLyricDisplay lines (-1) (-100) = -1).
Proof.
  intros lyrics_.
  apply (update_lyric_display_last_le lyrics_ 1 2100).
  - unfold Lyrics.sorted_by_time. repeat constructor; simpl; lia.
  - right. vm_compute. repeat split; discriminate.
Defined.

(** ** Lyric download *)

Section FetchFacts.

Import LyricFetch.

Variable network : nat -> response.
Variable lyric_url : string.

Lemma retry_trace_extend (pass : nat) (t ops : list io) :
  retry_trace lyric_url pass t -> pass_ops lyric_url ops ->
  retry_trace lyric_url (S pass)
    ((if Z.of_nat pass >? 0 then t ++ [Sleep 500] else t) ++ ops).
Proof.
  intros Ht Hops. destruct pass as [|n].
  - simpl. inversion Ht; subst. simpl. now constructor.
  - destruct (Z.of_nat (S n) >? 0) eqn:E;
      [|rewrite Z.gtb_ltb in E; apply Z.ltb_ge in E; lia].
    rewrite <- app_assoc. simpl. now constructor.
Qed.

Lemma attempt_inv (pass : nat) (s : loop_state) :
  fetch_inv network lyric_url pass s -> success s = false -> (pass < 3)%nat ->
  fetch_inv network lyric_url (S pass) (attempt (network pass) s).
Proof.
  intros (Hurl & Hred & Htr & _ & Hst) Hsucc Hlt.
  destruct Hst as [[_ Hrc] | [Ht _]]; [|congruence].
  assert (Hwrap : wrap_int (retry_count s + 1) = Z.of_nat (S pass))
    by (rewrite wrap_int_small by (unfold in_int; lia); lia).
  assert (Hfail : forall ops, pass_ops lyric_url ops ->
            fetch_inv network lyric_url (S pass)
              (mkLoop (wrap_int (retry_count s + 1)) (success s)
                 (lyric_content s) (current_url s) (redirect_count s)
                 ((if retry_count s >? 0 then trace s ++ [Sleep 500]
                   else trace s) ++ ops))).
  { intros ops Hops. unfold fetch_inv; simpl.
    repeat split; try assumption; try lia.
    - rewrite Hrc. now apply retry_trace_extend.
    - left. split; assumption. }
  unfold attempt.
  destruct (http_created (network pass)); simpl negb; cbv iota.
  2:{ apply Hfail. left. reflexivity. }
  destruct (open_ok (network pass)); simpl negb; cbv iota.
  2:{ rewrite <- app_assoc. apply Hfail. right. left. now rewrite Hurl. }
  destruct (is_redirect (status_code (network pass))) eqn:Hredir.
  { rewrite <- !app_assoc. apply Hfail. right. right. now rewrite Hurl. }
  destruct ((status_code (network pass) <? 200)
            || (status_code (network pass) >=? 300)) eqn:Hcode.
  { rewrite <- !app_assoc. apply Hfail. right. right. now rewrite Hurl. }
  apply orb_false_elim in Hcode. destruct Hcode as [Hlo Hhi].
  apply Z.ltb_ge in Hlo. rewrite Z.geb_leb in Hhi. apply Z.leb_gt in Hhi.
  destruct (read_body (network pass)) as [[content ok] read_error] eqn:Hbody.
  assert (Hok : read_error = false -> ok = true).
  { unfold read_body in Hbody.
    destruct (last_read (network pass) =? 0).
    - inversion Hbody; reflexivity.
    - destruct (fold_left _ _ _); inversion Hbody; subst; congruence. }
  assert (Hops : retry_trace lyric_url (S pass)
            ((((if retry_count s >? 0 then trace s ++ [Sleep 500] else trace s)
               ++ [CreateHttp]) ++ [OpenGet (current_url s)]) ++ [Close])).
  { rewrite <- !app_assoc. rewrite Hrc. apply retry_trace_extend; [assumption|].
    right. right. now rewrite Hurl. }
  destruct read_error.
  - unfold fetch_inv; simpl. repeat split; try assumption; try lia.
    left. split; assumption.
  - rewrite (Hok eq_refl).
    unfold fetch_inv;
      cbn [retry_count success lyric_content current_url redirect_count trace].
    replace (S pass - 1)%nat with pass by lia.
    repeat split; try assumption; try lia.
    right. repeat split; try assumption; lia.
Qed.

(** With three units of fuel or more left for the remaining passes the
    loop leaves through its own condition. *)
Lemma retry_loop_inv (fuel : nat) : forall (pass : nat) (s : loop_state),
  fetch_inv network lyric_url pass s -> (3 <= fuel + pass)%nat ->
  exists pass',
    fetch_inv network lyric_url pass' (retry_loop fuel network pass s)
    /\ loop_done (retry_loop fuel network pass s) = true.
Proof.
  induction fuel as [|fuel IH]; intros pass s Hinv Hfuel.
  - exists pass. split; [exact Hinv|].
    destruct Hinv as (_ & _ & _ & Hle & Hst). simpl.
    unfold loop_done, max_retries.
    destruct Hst as [[_ Hrc] | [Ht _]].
    + rewrite Hrc. replace (Z.of_nat pass <? 3) with false
        by (symmetry; apply Z.ltb_ge; lia). reflexivity.
    + rewrite Ht. simpl. now rewrite andb_false_r.
  - simpl. fold (loop_done s).
    destruct (loop_done s) eqn:Hdone.
    + assert (Hc : (retry_count s <? max_retries) && negb (success s)
                   && (redirect_count s <? max_redirects) = false)
        by (unfold loop_done in Hdone; now apply negb_true_iff in Hdone).
      rewrite Hc. exists pass. split; assumption.
    + assert (Hc : (retry_count s <? max_retries) && negb (success s)
                   && (redirect_count s <? max_redirects) = true)
        by (unfold loop_done in Hdone; now apply negb_false_iff in Hdone).
      rewrite Hc.
      apply andb_prop in Hc. destruct Hc as [Hc _].
      apply andb_prop in Hc. destruct Hc as [Hrc Hns].
      apply negb_true_iff in Hns. apply Z.ltb_lt in Hrc.
      unfold max_retries in Hrc.
      assert (Hlt : (pass < 3)%nat).
      { destruct Hinv as (_ & _ & _ & _ & [[_ E] | [E _]]); [lia | congruence]. }
      apply IH; [now apply attempt_inv | lia].
Qed.

Lemma retry_trace_creates (n : nat) (t : list io) :
  retry_trace lyric_url n t -> count_io is_create t = n.
Proof.
  unfold count_io.
  induction 1 as [|ops Hops|n t ops _ IH Hops].
  - reflexivity.
  - destruct Hops as [-> | [-> | ->]]; reflexivity.
  - rewrite filter_app, length_app, IH.
    destruct Hops as [-> | [-> | ->]]; simpl; lia.
Qed.

Lemma retry_trace_urls (n : nat) (t : list io) :
  retry_trace lyric_url n t -> forall u, In (OpenGet u) t -> u = lyric_url.
Proof.
  assert (Hp : forall ops u, pass_ops lyric_url ops -> In (OpenGet u) ops ->
                 u = lyric_url).
  { intros ops u [-> | [-> | ->]] Hin; simpl in Hin;
      repeat (destruct Hin as [Hin | Hin]; try discriminate; try contradiction);
      congruence. }
  induction 1 as [|ops Hops|n t ops _ IH Hops]; intros u Hin.
  - contradiction.
  - eapply Hp; eassumption.
  - apply in_app_or in Hin. destruct Hin as [Hin | [Hin | Hin]].
    + now apply IH.
    + discriminate.
    + eapply Hp; eassumption.
Qed.

End FetchFacts.

Lemma retry_loop_fuel (network : nat -> LyricFetch.response) (url : string)
    (fuel : nat) : forall (pass : nat) (s : LyricFetch.loop_state),
  LyricFetch.fetch_inv network url pass s -> (3 <= fuel + pass)%nat ->
  LyricFetch.retry_loop fuel network pass s
  = LyricFetch.retry_loop (3 - pass) network pass s.
Proof.
  induction fuel as [|fuel IH]; intros pass s Hinv Hfuel.
  - replace (3 - pass)%nat with 0%nat by lia. reflexivity.
  - cbn [LyricFetch.retry_loop].
    destruct ((LyricFetch.retry_count s <? LyricFetch.max_retries)
              && negb (LyricFetch.success s)
              && (LyricFetch.redirect_count s <? LyricFetch.max_redirects))
      eqn:Hc.
    + assert (Hlt : (pass < 3)%nat).
      { apply andb_prop in Hc. destruct Hc as [Hc _].
        apply andb_prop in Hc. destruct Hc as [Hrc Hns].
        apply negb_true_iff in Hns. apply Z.ltb_lt in Hrc.
        unfold LyricFetch.max_retries in Hrc.
        destruct Hinv as (_ & _ & _ & _ & [[_ E] | [E _]]); [lia | congruence]. }
      replace (3 - pass)%nat with (S (3 - S pass)) by lia.
      cbn [LyricFetch.retry_loop]. rewrite Hc.
      apply IH; [|lia].
      apply attempt_inv; try assumption.
      apply andb_prop in Hc. destruct Hc as [Hc _].
      apply andb_prop in Hc. destruct Hc as [_ Hns].
      now apply negb_true_iff in Hns.
    + destruct (3 - pass)%nat; cbn [LyricFetch.retry_loop];
        [reflexivity | now rewrite Hc].
Qed.

Lemma fetch_inv_start (network : nat -> LyricFetch.response) (url : string) :
  LyricFetch.fetch_inv network url 0 (LyricFetch.mkLoop 0 false EmptyString url 0 []).
Proof.
  unfold LyricFetch.fetch_inv; simpl.
  split; [reflexivity|]. split; [reflexivity|]. split; [constructor|].
  split; [lia|]. left. split; reflexivity.
Qed.

Lemma DownloadLyrics_nonempty (fuel : nat)
    (network : nat -> LyricFetch.response) (url : string) :
  url <> EmptyString ->
  LyricFetch.DownloadLyrics fuel network url
  = let s := LyricFetch.retry_loop fuel network 0
               (LyricFetch.mkLoop 0 false EmptyString url 0 []) in
    (LyricFetch.trace s,
     if LyricFetch.retry_count s >=? LyricFetch.max_retries then None
     else match LyricFetch.lyric_content s with
          | EmptyString => None
          | content => Some content
          end).
Proof.
  intros Hne. unfold LyricFetch.DownloadLyrics.
  destruct url as [|c u]; [congruence|]. cbv zeta.
  destruct (LyricFetch.retry_count _ >=? LyricFetch.max_retries); [reflexivity|].
  now destruct (LyricFetch.lyric_content _).
Qed.

Lemma attempt_redirect (r : LyricFetch.response) (s : LyricFetch.loop_state) :
  LyricFetch.http_created r = true -> LyricFetch.open_ok r = true ->
  LyricFetch.is_redirect (LyricFetch.status_code r) = true ->
  LyricFetch.attempt r s
  = LyricFetch.mkLoop (wrap_int (LyricFetch.retry_count s + 1))
      (LyricFetch.success s) (LyricFetch.lyric_content s)
      (LyricFetch.current_url s) (LyricFetch.redirect_count s)
      ((if LyricFetch.retry_count s >? 0
        then LyricFetch.trace s ++ [LyricFetch.Sleep 500]
        else LyricFetch.trace s)
       ++ [LyricFetch.CreateHttp; LyricFetch.OpenGet (LyricFetch.current_url s);
           LyricFetch.Close]).
Proof.
  intros Hc Ho Hr. unfold LyricFetch.attempt. rewrite Hc, Ho, Hr. simpl negb.
  cbv iota. rewrite <- !app_assoc. reflexivity.
Qed.

(** C8: a lyric fetch makes at most three passes; each pass opens the
    original URL and no other, and each pass after the first starts with a
    500 ms sleep.  A pass that meets a redirect status fails like any other:
    text is handed to the parser only after a pass with a 2xx status, and
    three redirects in a row give three requests for the same URL and no
    lyrics. *)
Theorem download_lyrics_retries
    (network : nat -> LyricFetch.response) (lyric_url : string) (fuel : nat) :
  (3 <= fuel)%nat ->
  let t := fst (LyricFetch.DownloadLyrics fuel network lyric_url) in
  let result := snd (LyricFetch.DownloadLyrics fuel network lyric_url) in
  (exists passes : nat,
     (passes <= 3)%nat
     /\ LyricFetch.retry_trace lyric_url passes t
     /\ LyricFetch.count_io LyricFetch.is_create t = passes
     /\ forall content, result = Some content ->
          (1 <= passes)%nat
          /\ 200 <= LyricFetch.status_code (network (passes - 1)%nat) < 300
          /\ LyricFetch.is_redirect
               (LyricFetch.status_code (network (passes - 1)%nat)) = false)
  /\ (forall u, In (LyricFetch.OpenGet u) t -> u = lyric_url)
  /\ LyricFetch.DownloadLyrics fuel network lyric_url
     = LyricFetch.DownloadLyrics 3 network lyric_url
  /\ (lyric_url <> EmptyString ->
      (forall i, (i < 3)%nat ->
         LyricFetch.http_created (network i) = true
         /\ LyricFetch.open_ok (network i) = true
         /\ LyricFetch.is_redirect (LyricFetch.status_code (network i)) = true) ->
      result = None
      /\ t = [LyricFetch.CreateHttp; LyricFetch.OpenGet lyric_url; LyricFetch.Close;
              LyricFetch.Sleep 500;
              LyricFetch.CreateHttp; LyricFetch.OpenGet lyric_url; LyricFetch.Close;
              LyricFetch.Sleep 500;
              LyricFetch.CreateHttp; LyricFetch.OpenGet lyric_url; LyricFetch.Close]).
Proof.
  intros Hfuel t result.
  assert (Hsame : LyricFetch.DownloadLyrics fuel network lyric_url
                  = LyricFetch.DownloadLyrics 3 network lyric_url).
  { unfold LyricFetch.DownloadLyrics. destruct lyric_url as [|c u]; [reflexivity|].
    rewrite (retry_loop_fuel network (String c u) fuel 0 _
               (fetch_inv_start network (String c u)) ltac:(lia)).
    reflexivity. }
  assert (Hshape : exists passes : nat,
     (passes <= 3)%nat
     /\ LyricFetch.retry_trace lyric_url passes t
     /\ forall content, result = Some content ->
          (1 <= passes)%nat
          /\ 200 <= LyricFetch.status_code (network (passes - 1)%nat) < 300
          /\ LyricFetch.is_redirect
               (LyricFetch.status_code (network (passes - 1)%nat)) = false).
  { subst t result.
    destruct (string_dec lyric_url EmptyString) as [-> | Hne].
    { exists 0%nat. simpl. repeat split; try lia; try constructor; discriminate. }
    rewrite (DownloadLyrics_nonempty fuel network lyric_url Hne).
    destruct (retry_loop_inv network lyric_url fuel 0 _
                (fetch_inv_start network lyric_url) ltac:(lia))
      as (passes & Hinv & Hdone).
    set (s := LyricFetch.retry_loop fuel network 0 _) in *.
    destruct Hinv as (_ & Hrd & Htr & Hle & Hst).
    exists passes. cbn [fst snd]. split; [exact Hle|]. split; [exact Htr|].
    intros content Hres.
    destruct (LyricFetch.retry_count s >=? LyricFetch.max_retries) eqn:Hrc;
      [discriminate|].
    rewrite Z.geb_leb in Hrc. apply Z.leb_gt in Hrc.
    unfold LyricFetch.max_retries in Hrc.
    destruct Hst as [[Hs Hn] | (Hs & H1 & Hn & Hcode & Hredir)].
    - exfalso. unfold LyricFetch.loop_done in Hdone.
      apply negb_true_iff in Hdone.
      rewrite Hs, Hrd in Hdone. simpl in Hdone. rewrite !andb_true_r in Hdone.
      apply Z.ltb_ge in Hdone. unfold LyricFetch.max_retries in Hdone. lia.
    - repeat split; assumption || lia. }
  destruct Hshape as (passes & Hle & Htr & Hres).
  split.
  { exists passes. split; [exact Hle|]. split; [exact Htr|].
    split; [|exact Hres].
    now apply retry_trace_creates with (lyric_url := lyric_url). }
  split; [now apply retry_trace_urls with (n := passes)|].
  split; [exact Hsame|].
  intros Hne Hall. subst t result. rewrite Hsame.
  destruct (Hall 0%nat ltac:(lia)) as (Hc0 & Ho0 & Hr0).
  destruct (Hall 1%nat ltac:(lia)) as (Hc1 & Ho1 & Hr1).
  destruct (Hall 2%nat ltac:(lia)) as (Hc2 & Ho2 & Hr2).
  unfold LyricFetch.DownloadLyrics.
  destruct lyric_url as [|c u]; [congruence|].
  cbn [LyricFetch.retry_loop].
  change ((0 <? LyricFetch.max_retries) && negb false
          && (0 <? LyricFetch.max_redirects)) with true. cbv iota.
  rewrite (attempt_redirect (network 0%nat) _ Hc0 Ho0 Hr0).
  cbn [LyricFetch.retry_count LyricFetch.success LyricFetch.redirect_count
       LyricFetch.trace LyricFetch.current_url LyricFetch.lyric_content].
  change (wrap_int (0 + 1)) with 1.
  change ((1 <? LyricFetch.max_retries) && negb false
          && (0 <? LyricFetch.max_redirects)) with true. cbv iota.
  rewrite (attempt_redirect (network 1%nat) _ Hc1 Ho1 Hr1).
  cbn [LyricFetch.retry_count LyricFetch.success LyricFetch.redirect_count
       LyricFetch.trace LyricFetch.current_url LyricFetch.lyric_content].
  change (wrap_int (1 + 1)) with 2.
  change ((2 <? LyricFetch.max_retries) && negb false
          && (0 <? LyricFetch.max_redirects)) with true. cbv iota.
  rewrite (attempt_redirect (network 2%nat) _ Hc2 Ho2 Hr2).
  cbn [LyricFetch.retry_count LyricFetch.success LyricFetch.redirect_count
       LyricFetch.trace LyricFetch.current_url LyricFetch.lyric_content].
  change (wrap_int (2 + 1)) with 3.
  change ((3 <? LyricFetch.max_retries) && negb false
          && (0 <? LyricFetch.max_redirects)) with false. cbv iota.
  cbn [LyricFetch.retry_count LyricFetch.trace fst snd].
  change (3 >=? LyricFetch.max_retries) with true. cbv iota.
  split; reflexivity.
Qed.

Lemma download_lyrics_retries_witness :
  let network := fun _ : nat => LyricFetch.mkResponse true true 302 [] 0 in
  let lyric_url := "https://ai.daongoc.vn/radio/lyric.php?id=1"%string in
  let t := fst (LyricFetch.DownloadLyrics 3 network lyric_url) in
  let result := snd (LyricFetch.DownloadLyrics 3 network lyric_url) in
  (exists passes : nat,
     (passes <= 3)%nat
     /\ LyricFetch.retry_trace lyric_url passes t
     /\ LyricFetch.count_io LyricFetch.is_create t = passes
     /\ forall content, result = Some content ->
          (1 <= passes)%nat
          /\ 200 <= LyricFetch.status_code (network (passes - 1)%nat) < 300
          /\ LyricFetch.is_redirect
               (LyricFetch.status_code (network (passes - 1)%nat)) = false)
  /\ (forall u, In (LyricFetch.OpenGet u) t -> u = lyric_url)
  /\ LyricFetch.DownloadLyrics 3 network lyric_url
     = LyricFetch.DownloadLyrics 3 network lyric_url
  /\ (lyric_url <> EmptyString ->
      (forall i, (i < 3)%nat ->
         LyricFetch.http_created (network i) = true
         /\ LyricFetch.open_ok (network i) = true
         /\ LyricFetch.is_redirect (LyricFetch.status_code (network i)) = true) ->
      result = None
      /\ t = [LyricFetch.CreateHttp; LyricFetch.OpenGet lyric_url; LyricFetch.Close;
              LyricFetch.Sleep 500;
              LyricFetch.CreateHttp; LyricFetch.OpenGet lyric_url; LyricFetch.Close;
              LyricFetch.Sleep 500;
              LyricFetch.CreateHttp; LyricFetch.OpenGet lyric_url; LyricFetch.Close]).
Proof.
  intros network lyric_url.
  apply (download_lyrics_retries network lyric_url 3).
  apply le_n.
Defined.

(** A redirect followed by a good answer: two passes, the second against
    the same URL after the sleep, and the body goes to the parser. *)
Example download_lyrics_after_redirect :
  let network := fun pass : nat =>
    match pass with
    | O => LyricFetch.mkResponse true true 302 [] 0
    | _ => LyricFetch.mkResponse true true 200 ["[00:01.00]la la"%string] 0
    end in
  LyricFetch.DownloadLyrics 3 network "http://h/l.lrc"
  = ([LyricFetch.CreateHttp; LyricFetch.OpenGet "http://h/l.lrc"; LyricFetch.Close;
      LyricFetch.Sleep 500;
      LyricFetch.CreateHttp; LyricFetch.OpenGet "http://h/l.lrc"; LyricFetch.Close],
     Some "[00:01.00]la la"%string).
Proof. vm_compute. reflexivity. Qed.

(** ** Lyric parsing *)

Section StringFacts.

Import Lyrics.

Lemma string_length_app (a b : string) :
  String.length (a ++ b) = (String.length a + String.length b)%nat.
Proof. induction a as [|c a IH]; simpl; [reflexivity | now rewrite IH]. Qed.

Lemma string_app_assoc (a b c : string) :
  ((a ++ b) ++ c = a ++ (b ++ c))%string.
Proof. induction a as [|x a IH]; simpl; [reflexivity | now rewrite IH]. Qed.

Lemma find_char_app (c : ascii) (a b : string) :
  find_char c a = None ->
  find_char c (a ++ String c b) = Some (String.length a).
Proof.
  induction a as [|x a IH]; simpl; intros H.
  - now rewrite Ascii.eqb_refl.
  - destruct (Ascii.eqb x c); [discriminate|].
    destruct (find_char c a); [discriminate|].
    now rewrite IH.
Qed.

Lemma find_char_app_none (c : ascii) (a b : string) :
  find_char c a = None -> find_char c b = None ->
  find_char c (a ++ b) = None.
Proof.
  induction a as [|x a IH]; simpl; intros Ha Hb.
  - exact Hb.
  - destruct (Ascii.eqb x c); [discriminate|].
    destruct (find_char c a); [discriminate|].
    now rewrite IH.
Qed.

Lemma substring_prefix (a b : string) :
  String.substring 0 (String.length a) (a ++ b) = a.
Proof.
  induction a as [|x a IH]; simpl.
  - now destruct b.
  - now rewrite IH.
Qed.

Lemma substr_from_app (a b : string) :
  substr_from (String.length a) (a ++ b) = b.
Proof. induction a as [|x a IH]; simpl; [reflexivity | exact IH]. Qed.

Lemma substr_from_after (a : string) (c : ascii) (b : string) :
  substr_from (String.length a + 1) (a ++ String c b) = b.
Proof.
  induction a as [|x a IH]; simpl; [reflexivity | exact IH].
Qed.

Lemma all_digits_no_char (c : ascii) (s : string) :
  isdigit c = false -> all_digits s = true -> find_char c s = None.
Proof.
  intros Hc. induction s as [|x s IH]; simpl; intros H.
  - reflexivity.
  - apply andb_prop in H. destruct H as [Hx Hs].
    destruct (Ascii.eqb x c) eqn:E.
    + apply Ascii.eqb_eq in E. congruence.
    + now rewrite IH.
Qed.

Lemma strip_cr_length (line : string) :
  (String.length (strip_cr line) <= String.length line)%nat.
Proof.
  induction line as [|c rest IH]; simpl.
  - lia.
  - destruct rest as [|d rest'].
    + destruct (Ascii.eqb c "013"); simpl; lia.
    + simpl in *. lia.
Qed.

End StringFacts.

(** [int] arithmetic: the wrapped operations agree with the exact ones
    modulo 2^32, so intermediate wrap-arounds do not show in the result. *)
Lemma wrap_int_mod (z : Z) : wrap_int z mod 2 ^ 32 = z mod 2 ^ 32.
Proof.
  unfold wrap_int.
  rewrite Zminus_mod, Zmod_mod, <- Zminus_mod.
  f_equal. lia.
Qed.

Lemma wrap_int_congr (a b : Z) :
  a mod 2 ^ 32 = b mod 2 ^ 32 -> wrap_int a = wrap_int b.
Proof.
  intros H. unfold wrap_int.
  rewrite (Zplus_mod a), (Zplus_mod b), H. reflexivity.
Qed.

Lemma timestamp_wrap (minutes ms : Z) :
  wrap_int (wrap_int (wrap_int (minutes * 60) * 1000) + ms)
  = wrap_int (minutes * 60000 + ms).
Proof.
  apply wrap_int_congr.
  rewrite Zplus_mod, wrap_int_mod, Zmult_mod, wrap_int_mod.
  rewrite <- Zmult_mod, <- Zplus_mod. f_equal. lia.
Qed.

(** The parser on a line of the form [[left:rest]text]. *)
Lemma parse_line_tagged (seconds_to_ms : string -> option Z)
    (left rest text : string) :
  Lyrics.find_char ":" left = None ->
  Lyrics.find_char "]" left = None ->
  Lyrics.find_char "]" rest = None ->
  let line := String "[" (left ++ String ":" (rest ++ String "]" text)) in
  (10 < String.length line)%nat ->
  Lyrics.parse_line seconds_to_ms line
  = if negb (Lyrics.all_digits left) then None
    else match Lyrics.stoi left with
         | None => None
         | Some minutes =>
             match seconds_to_ms rest with
             | None => None
             | Some ms =>
                 Some (wrap_int (wrap_int (wrap_int (minutes * 60) * 1000) + ms),
                       text)
             end
         end.
Proof.
  intros Hcolon Hbr_left Hbr_rest line Hlen.
  set (tag := (left ++ String ":" rest)%string).
  assert (Hline : line = String "[" (tag ++ String "]" text)).
  { unfold line, tag. f_equal. rewrite string_app_assoc. reflexivity. }
  assert (Hbr_tag : Lyrics.find_char "]" tag = None).
  { unfold tag. apply find_char_app_none; [assumption|]. simpl. now rewrite Hbr_rest. }
  assert (Hclose : Lyrics.find_char "]" line = Some (S (String.length tag))).
  { rewrite Hline. cbn [Lyrics.find_char]. simpl (Ascii.eqb "[" "]").
    now rewrite (find_char_app "]" tag text Hbr_tag). }
  assert (Htag : Lyrics.substr 1 (S (String.length tag) - 1) line = tag).
  { rewrite Hline. unfold Lyrics.substr.
    replace (S (String.length tag) - 1)%nat with (String.length tag) by lia.
    cbn [String.substring]. apply substring_prefix. }
  assert (Hcontent : Lyrics.substr_from (S (String.length tag) + 1) line = text).
  { rewrite Hline.
    replace (S (String.length tag) + 1)%nat
      with (S (String.length tag + 1)) by lia.
    cbn [Lyrics.substr_from]. apply substr_from_after. }
  assert (Hcol : Lyrics.find_char ":" tag = Some (String.length left))
    by (unfold tag; now apply find_char_app).
  assert (Hleft : Lyrics.substr 0 (String.length left) tag = left)
    by (unfold tag, Lyrics.substr; apply substring_prefix).
  assert (Hsec : Lyrics.substr_from (String.length left + 1) tag = rest)
    by (unfold tag; apply substr_from_after).
  apply Nat.ltb_lt in Hlen.
  unfold Lyrics.parse_line. unfold line at 1. cbv iota.
  rewrite Hlen, Hclose, Htag, Hcontent, Hcol, Hleft, Hsec.
  reflexivity.
Qed.

(** *** The order of [std::pair<int, std::string>] *)

Lemma ascii_compare_lt_trans (a b c : ascii) :
  Ascii.compare a b = Lt -> Ascii.compare b c = Lt -> Ascii.compare a c = Lt.
Proof.
  unfold Ascii.compare. rewrite !N.compare_lt_iff. lia.
Qed.

Lemma string_compare_lt_trans (a : string) : forall b c : string,
  String.compare a b = Lt -> String.compare b c = Lt -> String.compare a c = Lt.
Proof.
  induction a as [|x a IH]; intros [|y b] [|z c]; simpl; try congruence.
  destruct (Ascii.compare x y) eqn:Exy; try discriminate;
    destruct (Ascii.compare y z) eqn:Eyz; try discriminate; intros H1 H2.
  - apply Ascii.compare_eq_iff in Exy, Eyz. subst.
    assert (E : Ascii.compare z z = Eq) by (unfold Ascii.compare; apply N.compare_refl).
    rewrite E. now apply IH with b.
  - apply Ascii.compare_eq_iff in Exy. subst. now rewrite Eyz.
  - apply Ascii.compare_eq_iff in Eyz. subst. now rewrite Exy.
  - now rewrite (ascii_compare_lt_trans x y z Exy Eyz).
Qed.

Lemma string_compare_refl (a : string) : String.compare a a = Eq.
Proof.
  induction a as [|x a IH]; simpl; [reflexivity|].
  assert (E : Ascii.compare x x = Eq) by (unfold Ascii.compare; apply N.compare_refl).
  now rewrite E.
Qed.

Lemma string_leb_trans (a b c : string) :
  String.leb a b = true -> String.leb b c = true -> String.leb a c = true.
Proof.
  unfold String.leb.
  destruct (String.compare a b) eqn:Eab; try discriminate;
    destruct (String.compare b c) eqn:Ebc; try discriminate; intros _ _.
  - apply String.compare_eq_iff in Eab, Ebc. subst. now rewrite string_compare_refl.
  - apply String.compare_eq_iff in Eab. subst. now rewrite Ebc.
  - apply String.compare_eq_iff in Ebc. subst. now rewrite Eab.
  - now rewrite (string_compare_lt_trans a b c Eab Ebc).
Qed.

Lemma pair_le_iff (a b : Lyrics.LyricLine) :
  Lyrics.pair_le a b = true
  <-> fst a < fst b \/ (fst a = fst b /\ String.leb (snd a) (snd b) = true).
Proof.
  unfold Lyrics.pair_le, Lyrics.pair_lt, String.ltb, String.leb.
  rewrite (String.compare_antisym (snd a) (snd b)).
  destruct (fst b <? fst a) eqn:E1; destruct (fst a <? fst b) eqn:E2;
    try apply Z.ltb_lt in E1; try apply Z.ltb_lt in E2;
    try apply Z.ltb_ge in E1; try apply Z.ltb_ge in E2;
    destruct (String.compare (snd b) (snd a)); simpl; split; intros H;
    try discriminate; try lia; try (left; lia); try (right; split; [lia | reflexivity]);
    try (destruct H as [H | [H1 H2]]; [lia | discriminate]);
    try reflexivity.
Qed.

Lemma pair_le_trans (a b c : Lyrics.LyricLine) :
  Lyrics.pair_le a b = true -> Lyrics.pair_le b c = true ->
  Lyrics.pair_le a c = true.
Proof.
  rewrite !pair_le_iff.
  intros [H1 | [H1 L1]] [H2 | [H2 L2]]; try (left; lia).
  right. split; [lia|]. now apply string_leb_trans with (snd b).
Qed.

Lemma pair_le_antisym (a b : Lyrics.LyricLine) :
  Lyrics.pair_le a b = true -> Lyrics.pair_le b a = true -> a = b.
Proof.
  rewrite !pair_le_iff.
  intros [H1 | [H1 L1]] [H2 | [H2 L2]]; try lia.
  destruct a as [ta sa], b as [tb sb]; simpl in *.
  f_equal; [exact H1 | now apply String.leb_antisym].
Qed.

Lemma pair_lt_le (a b : Lyrics.LyricLine) :
  Lyrics.pair_lt a b = true -> Lyrics.pair_le a b = true.
Proof.
  intros H. apply pair_le_iff.
  unfold Lyrics.pair_lt in H. apply orb_prop in H.
  destruct H as [H | H].
  - left. now apply Z.ltb_lt.
  - apply andb_prop in H. destruct H as [H1 H2].
    apply negb_true_iff, Z.ltb_ge in H1.
    unfold String.ltb in H2. unfold String.leb.
    destruct (String.compare (snd a) (snd b)) eqn:E; try discriminate.
    destruct (Z.eq_dec (fst a) (fst b)); [right; split; [assumption | reflexivity] | left; lia].
Qed.

(** *** [std::sort] *)

Lemma insert_sorted_perm (x : Lyrics.LyricLine) (l : list Lyrics.LyricLine) :
  Permutation (x :: l) (Lyrics.insert_sorted x l).
Proof.
  induction l as [|y l IH]; simpl.
  - apply Permutation_refl.
  - destruct (Lyrics.pair_lt x y).
    + apply Permutation_refl.
    + eapply perm_trans; [apply perm_swap|]. now apply perm_skip.
Qed.

Lemma insert_sorted_sorted (x : Lyrics.LyricLine) (l : list Lyrics.LyricLine) :
  StronglySorted Lyrics.pair_order l ->
  StronglySorted Lyrics.pair_order (Lyrics.insert_sorted x l).
Proof.
  induction 1 as [|y l Hs IH Hall]; simpl.
  - constructor; constructor.
  - destruct (Lyrics.pair_lt x y) eqn:E.
    + constructor; [now constructor|].
      apply pair_lt_le in E. constructor; [exact E|].
      eapply Forall_impl; [|exact Hall].
      intros z Hz. now apply pair_le_trans with y.
    + constructor; [exact IH|].
      eapply Permutation_Forall; [apply insert_sorted_perm|].
      constructor; [|exact Hall].
      unfold Lyrics.pair_order, Lyrics.pair_le. now rewrite E.
Qed.

Lemma std_sort_perm (l : list Lyrics.LyricLine) :
  Permutation l (Lyrics.std_sort l).
Proof.
  induction l as [|x l IH]; simpl.
  - constructor.
  - eapply perm_trans; [apply perm_skip, IH | apply insert_sorted_perm].
Qed.

Lemma std_sort_sorted (l : list Lyrics.LyricLine) :
  StronglySorted Lyrics.pair_order (Lyrics.std_sort l).
Proof.
  induction l as [|x l IH]; simpl.
  - constructor.
  - now apply insert_sorted_sorted.
Qed.

(** The sorted arrangement is unique, so every correct sorting algorithm
    returns what [std_sort] returns. *)
Lemma sorted_perm_unique (l1 : list Lyrics.LyricLine) :
  forall l2, StronglySorted Lyrics.pair_order l1 -> StronglySorted Lyrics.pair_order l2 ->
  Permutation l1 l2 -> l1 = l2.
Proof.
  induction l1 as [|a l1 IH]; intros l2 H1 H2 Hp.
  - apply Permutation_nil in Hp. now subst.
  - destruct l2 as [|b l2].
    { apply Permutation_sym, Permutation_nil in Hp. discriminate. }
    inversion H1 as [|? ? Hs1 Ha]; subst.
    inversion H2 as [|? ? Hs2 Hb]; subst.
    assert (Hab : a = b).
    { assert (Hin_b : In b (a :: l1))
        by (eapply Permutation_in; [apply Permutation_sym, Hp | now left]).
      assert (Hin_a : In a (b :: l2))
        by (eapply Permutation_in; [apply Hp | now left]).
      rewrite Forall_forall in Ha, Hb.
      destruct Hin_b as [-> | Hin_b]; [reflexivity|].
      destruct Hin_a as [-> | Hin_a]; [reflexivity|].
      apply pair_le_antisym; [now apply Ha | now apply Hb]. }
    subst b. f_equal. apply IH; try assumption.
    now apply Permutation_cons_inv with a.
Qed.

Lemma sorted_pairs_by_time (l : list Lyrics.LyricLine) :
  StronglySorted Lyrics.pair_order l -> Lyrics.sorted_by_time l.
Proof.
  unfold Lyrics.sorted_by_time.
  induction 1 as [|x l Hs IH Hall]; constructor; [exact IH|].
  eapply Forall_impl; [|exact Hall].
  intros y Hy. apply pair_le_iff in Hy. lia.
Qed.

(** *** The parser *)

Lemma parsed_lines_flat_map (seconds_to_ms : string -> option Z)
    (content : string) :
  Lyrics.parsed_lines seconds_to_ms content
  = flat_map
      (fun line =>
         match Lyrics.parse_line seconds_to_ms (Lyrics.strip_cr line) with
         | Some entry => [entry]
         | None => []
         end)
      (Lyrics.getlines content EmptyString).
Proof.
  unfold Lyrics.parsed_lines.
  generalize (Lyrics.getlines content EmptyString) as lines.
  assert (H : forall lines acc,
    fold_left
      (fun lyrics_ line =>
         match Lyrics.parse_line seconds_to_ms (Lyrics.strip_cr line) with
         | Some entry => lyrics_ ++ [entry]
         | None => lyrics_
         end) lines acc
    = acc ++ flat_map
        (fun line =>
           match Lyrics.parse_line seconds_to_ms (Lyrics.strip_cr line) with
           | Some entry => [entry]
           | None => []
           end) lines).
  { induction lines as [|line lines IH]; intros acc; simpl.
    - now rewrite app_nil_r.
    - rewrite IH.
      destruct (Lyrics.parse_line seconds_to_ms (Lyrics.strip_cr line)); simpl.
      + now rewrite <- app_assoc.
      + reflexivity. }
  intros lines. apply (H lines []).
Qed.

Lemma parse_lyrics_entries (seconds_to_ms : string -> option Z)
    (content : string) (entry : Lyrics.LyricLine) :
  In entry (Lyrics.ParseLyrics seconds_to_ms content)
  <-> exists line,
        In line (Lyrics.getlines content EmptyString)
        /\ Lyrics.parse_line seconds_to_ms (Lyrics.strip_cr line) = Some entry.
Proof.
  unfold Lyrics.ParseLyrics. split.
  - intros Hin.
    apply (Permutation_in _ (Permutation_sym (std_sort_perm _))) in Hin.
    rewrite parsed_lines_flat_map in Hin. apply in_flat_map in Hin.
    destruct Hin as (line & Hline & He). exists line. split; [exact Hline|].
    destruct (Lyrics.parse_line seconds_to_ms (Lyrics.strip_cr line)) as [e|];
      simpl in He; [|contradiction].
    destruct He as [-> | []]. reflexivity.
  - intros (line & Hline & He).
    apply (Permutation_in _ (std_sort_perm _)).
    rewrite parsed_lines_flat_map. apply in_flat_map.
    exists line. split; [exact Hline|]. rewrite He. now left.
Qed.

Lemma parse_line_short (seconds_to_ms : string -> option Z) (line : string) :
  (String.length line <= 10)%nat ->
  Lyrics.parse_line seconds_to_ms line = None.
Proof.
  intros Hlen. unfold Lyrics.parse_line.
  destruct line as [|first rest]; [reflexivity|].
  replace (10 <? String.length (String first rest))%nat with false
    by (symmetry; apply Nat.ltb_ge; exact Hlen).
  reflexivity.
Qed.

Lemma stoi_digits (s : string) :
  s <> EmptyString -> Lyrics.decimal_value s 0 <= 2 ^ 31 - 1 ->
  Lyrics.stoi s = Some (Lyrics.decimal_value s 0).
Proof.
  intros Hne Hmax. unfold Lyrics.stoi.
  destruct s as [|c s]; [congruence|].
  apply Z.leb_le in Hmax. now rewrite Hmax.
Qed.

(** C2, as stated, fails: a timed line of ten characters or fewer is
    dropped, and the seconds are multiplied by 1000 in single precision and
    then truncated, so that [[00:01.9999]Hello] gets 1999 where the formula
    with rounding gives 2000. *)
Lemma parse_lyrics_not_rounded :
  Lyrics.all_digits "0" = true
  /\ Lyrics.ParseLyrics Float32.seconds_to_ms "[0:1.0]Hi" = []
  /\ Lyrics.ParseLyrics Float32.seconds_to_ms "[00:01.9999]Hello"
     = [(1999, "Hello"%string)]
  /\ timestamp_ms_rounded 0 19999 10000 = 2000.
Proof. vm_compute. repeat split. Qed.

(** Truncation also shows with two decimals: 8.03 is not a binary32
    number, the nearest one is below it, and so is the rounded product. *)
Example parse_two_decimals_truncated :
  Float32.stof "08.03" = Some (Float32.mkFloat false 8420065 (-20))
  /\ Float32.mul (Float32.mkFloat false 8420065 (-20))
                 (Float32.mkFloat false 1000 0)
     = Some (Float32.mkFloat false 16445439 (-11))
  /\ Lyrics.ParseLyrics Float32.seconds_to_ms "[00:08.03]Hello"
     = [(8029, "Hello"%string)]
  /\ timestamp_ms_rounded 0 803 100 = 8030.
Proof. vm_compute. repeat split. Qed.

(** C2 (amended): a line of more than ten characters of the form
    [[minutes:seconds]text], with [minutes] a non-empty string of digits
    that fits an [int] and [seconds] accepted by [std::stof], yields
    [(timestamp_ms, text)], [timestamp_ms] being
    [minutes * 60000 + (int)(seconds * 1000)] in [int] arithmetic: the
    single-precision product truncated, not rounded.  [[01:02.50]Hello]
    yields (62500, "Hello").  A line whose part before the colon contains a
    character that is not a digit is dropped.  The parsed collection is
    sorted by ascending timestamp whatever the order of the lines. *)
Theorem parse_lyrics_timestamps (seconds_to_ms : string -> option Z) :
  (forall (minutes_text seconds_text text : string) (ms : Z),
     Lyrics.all_digits minutes_text = true ->
     minutes_text <> EmptyString ->
     Lyrics.decimal_value minutes_text 0 <= 2 ^ 31 - 1 ->
     Lyrics.find_char "]" seconds_text = None ->
     seconds_to_ms seconds_text = Some ms ->
     let line := String "[" (minutes_text ++ String ":"
                               (seconds_text ++ String "]" text)) in
     let minutes := Lyrics.decimal_value minutes_text 0 in
     (10 < String.length line)%nat ->
     Lyrics.parse_line seconds_to_ms line
     = Some (wrap_int (minutes * 60000 + ms), text)
     /\ (in_int (minutes * 60000 + ms) ->
         Lyrics.parse_line seconds_to_ms line
         = Some (minutes * 60000 + ms, text)))
  /\ (forall left rest text : string,
        Lyrics.find_char ":" left = None ->
        Lyrics.find_char "]" left = None ->
        Lyrics.find_char "]" rest = None ->
        Lyrics.all_digits left = false ->
        Lyrics.parse_line seconds_to_ms
          (String "[" (left ++ String ":" (rest ++ String "]" text))) = None)
  /\ (forall content : string,
        Lyrics.sorted_by_time (Lyrics.ParseLyrics seconds_to_ms content)
        /\ forall entry,
             In entry (Lyrics.ParseLyrics seconds_to_ms content)
             <-> exists line,
                   In line (Lyrics.getlines content EmptyString)
                   /\ Lyrics.parse_line seconds_to_ms (Lyrics.strip_cr line)
                      = Some entry)
  /\ Lyrics.ParseLyrics Float32.seconds_to_ms "[01:02.50]Hello"
     = [(62500, "Hello"%string)]
  /\ Lyrics.ParseLyrics Float32.seconds_to_ms "[ar:Someone]" = []
  /\ Lyrics.ParseLyrics Float32.seconds_to_ms
       "[00:01.9999]Hello" = [(1999, "Hello"%string)].
Proof.
  split; [|split; [|split]].
  - intros minutes_text seconds_text text ms Hdig Hne Hmax Hbr Hms line minutes Hlen.
    assert (Hparse : Lyrics.parse_line seconds_to_ms line
                     = Some (wrap_int (minutes * 60000 + ms), text)).
    { unfold line.
      rewrite parse_line_tagged; try assumption.
      - rewrite Hdig. simpl negb. cbv iota.
        rewrite (stoi_digits minutes_text Hne Hmax), Hms.
        now rewrite timestamp_wrap.
      - now apply all_digits_no_char.
      - now apply all_digits_no_char. }
    split; [exact Hparse|].
    intros Hfit. rewrite Hparse. now rewrite wrap_int_small.
  - intros left rest text Hcolon Hbl Hbr Hdig.
    destruct (Nat.le_gt_cases
                (String.length
                   (String "[" (left ++ String ":" (rest ++ String "]" text))))
                10) as [Hshort | Hlong].
    + now apply parse_line_short.
    + rewrite parse_line_tagged by assumption. now rewrite Hdig.
  - intros content. split.
    + apply sorted_pairs_by_time, std_sort_sorted.
    + intros entry. apply parse_lyrics_entries.
  - vm_compute. repeat split.
Qed.

Lemma parse_lyrics_timestamps_witness :
  Lyrics.parse_line Float32.seconds_to_ms "[01:02.50]Hello"
  = Some (1 * 60000 + 2500, "Hello"%string).
Proof.
  refine (proj2 (proj1 (parse_lyrics_timestamps Float32.seconds_to_ms)
                   "01"%string "02.50"%string "Hello"%string 2500
                   _ _ _ _ _ _) _).
  - reflexivity.
  - discriminate.
  - vm_compute. discriminate.
  - reflexivity.
  - reflexivity.
  - simpl. lia.
  - unfold in_int. simpl. lia.
Defined.

Lemma strongly_sorted_nth (l : list Lyrics.LyricLine) :
  StronglySorted Lyrics.pair_order l ->
  forall i j : nat, (i < j < List.length l)%nat ->
  Lyrics.pair_le (nth i l (0, EmptyString)) (nth j l (0, EmptyString)) = true.
Proof.
  induction 1 as [|x l Hs IH Hall]; intros i j Hij; simpl in Hij; [lia|].
  destruct j as [|j]; [lia|]. destruct i as [|i]; simpl.
  - rewrite Forall_forall in Hall. apply Hall. apply nth_In. lia.
  - apply IH. lia.
Qed.

(** C7, as stated, fails: two lines with the same timestamp come out in
    the order of their texts, here the reverse of the input order. *)
Lemma equal_timestamps_reordered :
  let content := String.concat (String "010" EmptyString)
                   ["[00:01.00]zebra"%string; "[00:01.00]apple"%string] in
  Lyrics.parsed_lines Float32.seconds_to_ms content
  = [(1000, "zebra"%string); (1000, "apple"%string)]
  /\ Lyrics.ParseLyrics Float32.seconds_to_ms content
     = [(1000, "apple"%string); (1000, "zebra"%string)].
Proof. vm_compute. split; reflexivity. Qed.

(** C7 (amended): the final sort orders the entries by timestamp and,
    among equal timestamps, by text (byte-wise, a prefix first); the result
    is the one sorted arrangement of the parsed entries, and it does not
    depend on their input order. *)
Theorem parse_lyrics_sorted_by_pair (seconds_to_ms : string -> option Z)
    (content : string) :
  let lyrics_ := Lyrics.ParseLyrics seconds_to_ms content in
  Permutation (Lyrics.parsed_lines seconds_to_ms content) lyrics_
  /\ StronglySorted Lyrics.pair_order lyrics_
  /\ (forall i j : nat, (i < j < List.length lyrics_)%nat ->
        let a := nth i lyrics_ (0, EmptyString) in
        let b := nth j lyrics_ (0, EmptyString) in
        fst a <= fst b /\ (fst a = fst b -> String.leb (snd a) (snd b) = true))
  /\ (forall other : list Lyrics.LyricLine,
        Permutation (Lyrics.parsed_lines seconds_to_ms content) other ->
        Lyrics.std_sort other = lyrics_).
Proof.
  intros lyrics_. subst lyrics_. unfold Lyrics.ParseLyrics.
  split; [apply std_sort_perm|].
  split; [apply std_sort_sorted|].
  split.
  - intros i j Hij.
    pose proof (strongly_sorted_nth _ (std_sort_sorted _) i j Hij) as Hle.
    apply pair_le_iff in Hle.
    destruct Hle as [Hlt | [Heq Hs]].
    + split; [lia | intros Habs; lia].
    + split; [lia | intros _; exact Hs].
  - intros other Hperm.
    apply sorted_perm_unique; try apply std_sort_sorted.
    eapply perm_trans; [apply Permutation_sym, std_sort_perm|].
    eapply perm_trans; [apply Permutation_sym, Hperm|].
    apply std_sort_perm.
Qed.

Lemma parse_lyrics_sorted_by_pair_witness :
  let content := String.concat (String "010" EmptyString)
                   ["[00:01.00]zebra"%string; "[00:01.00]apple"%string] in
  let lyrics_ := Lyrics.ParseLyrics Float32.seconds_to_ms content in
  String.leb (snd (nth 0 lyrics_ (0, EmptyString)))
             (snd (nth 1 lyrics_ (0, EmptyString))) = true.
Proof.
  intros content lyrics_.
  refine (proj2 (proj1 (proj2 (proj2
            (parse_lyrics_sorted_by_pair Float32.seconds_to_ms content)))
          0%nat 1%nat _) _).
  - vm_compute. split; repeat constructor.
  - reflexivity.
Defined.

(** C10: a line of ten characters or fewer adds no entry, also when it
    is a well-formed timed line such as [[0:1.0]Hi]; every entry of the
    parsed collection comes from a line of more than ten characters. *)
Theorem parse_line_length_guard (seconds_to_ms : string -> option Z)
    (line : string) :
  (String.length line <= 10)%nat ->
  Lyrics.parse_line seconds_to_ms (Lyrics.strip_cr line) = None
  /\ (forall content entry,
        In entry (Lyrics.ParseLyrics seconds_to_ms content) ->
        exists l,
          In l (Lyrics.getlines content EmptyString)
          /\ (10 < String.length (Lyrics.strip_cr l))%nat
          /\ Lyrics.parse_line seconds_to_ms (Lyrics.strip_cr l) = Some entry)
  /\ Lyrics.ParseLyrics seconds_to_ms "[0:1.0]Hi" = []
  /\ Lyrics.ParseLyrics Float32.seconds_to_ms "[0:1.0]Hi there"
     = [(1000, "Hi there"%string)].
Proof.
  intros Hlen. split; [|split; [|split]].
  - apply parse_line_short.
    pose proof (strip_cr_length line). lia.
  - intros content entry Hin.
    apply parse_lyrics_entries in Hin. destruct Hin as (l & Hl & He).
    exists l. repeat split; try assumption.
    destruct (Nat.le_gt_cases (String.length (Lyrics.strip_cr l)) 10)
      as [Hshort | Hlong]; [|exact Hlong].
    rewrite parse_line_short in He; [discriminate | exact Hshort].
  - reflexivity.
  - vm_compute. reflexivity.
Qed.

Lemma parse_line_length_guard_witness :
  Lyrics.parse_line Float32.seconds_to_ms (Lyrics.strip_cr "[0:1.0]Hi") = None.
Proof.
  refine (proj1 (parse_line_length_guard Float32.seconds_to_ms "[0:1.0]Hi" _)).
  simpl. lia.
Defined.

(** * Further properties of the code *)

(** ** URL encoding *)

Section UrlEncodeFacts.

Import Request.

Lemma hex_digit_code (n : nat) :
  (n < 16)%nat ->
  nat_of_ascii (hex_digit n) = if (n <? 10)%nat then (48 + n)%nat else (55 + n)%nat.
Proof.
  intros Hn. unfold hex_digit.
  destruct (n <? 10)%nat; apply nat_ascii_embedding; lia.
Qed.

Lemma hex_digit_inj (a b : nat) :
  (a < 16)%nat -> (b < 16)%nat -> hex_digit a = hex_digit b -> a = b.
Proof.
  intros Ha Hb H. apply (f_equal nat_of_ascii) in H.
  rewrite !hex_digit_code in H by assumption.
  destruct (a <? 10)%nat eqn:Ea; destruct (b <? 10)%nat eqn:Eb;
    try apply Nat.ltb_lt in Ea; try apply Nat.ltb_lt in Eb;
    try apply Nat.ltb_ge in Ea; try apply Nat.ltb_ge in Eb; lia.
Qed.

Lemma hex_digit_unreserved (n : nat) :
  (n < 16)%nat -> is_unreserved (hex_digit n) = true.
Proof.
  intros Hn. unfold is_unreserved. rewrite hex_digit_code by exact Hn.
  do 16 (destruct n as [|n]; [reflexivity|]). lia.
Qed.

Lemma nat_of_ascii_parts (c : ascii) :
  (nat_of_ascii c / 16 < 16 /\ nat_of_ascii c mod 16 < 16)%nat.
Proof.
  pose proof (nat_ascii_bounded c) as Hb. split.
  - apply Nat.Div0.div_lt_upper_bound. lia.
  - apply Nat.mod_upper_bound. lia.
Qed.

Lemma percent_hex_inj (c1 c2 : ascii) :
  percent_hex c1 = percent_hex c2 -> c1 = c2.
Proof.
  unfold percent_hex. intros H.
  destruct (nat_of_ascii_parts c1) as [H1 H1'].
  destruct (nat_of_ascii_parts c2) as [H2 H2'].
  pose proof (Nat.div_mod_eq (nat_of_ascii c1) 16) as E1.
  pose proof (Nat.div_mod_eq (nat_of_ascii c2) 16) as E2.
  remember (nat_of_ascii c1 / 16)%nat as q1.
  remember (nat_of_ascii c1 mod 16)%nat as m1.
  remember (nat_of_ascii c2 / 16)%nat as q2.
  remember (nat_of_ascii c2 mod 16)%nat as m2.
  injection H as Hhi Hlo.
  apply hex_digit_inj in Hhi; try assumption.
  apply hex_digit_inj in Hlo; try assumption.
  rewrite <- (ascii_nat_embedding c1), <- (ascii_nat_embedding c2).
  f_equal. lia.
Qed.

(** The three shapes of what one character becomes. *)
Lemma encode_char_cases (c : ascii) :
  (is_unreserved c = true /\ encode_char c = String c EmptyString)
  \/ (c = " "%char /\ encode_char c = String "+" EmptyString)
  \/ (is_unreserved c = false /\ c <> " "%char /\ encode_char c = percent_hex c).
Proof.
  unfold encode_char. destruct (is_unreserved c) eqn:Hu; [now left|].
  destruct (Ascii.eqb c " ") eqn:Hs.
  - apply Ascii.eqb_eq in Hs. right. left. now split.
  - apply Ascii.eqb_neq in Hs. right. right. repeat split; assumption.
Qed.

Lemma encode_char_inj (c1 c2 : ascii) (r1 r2 : string) :
  (encode_char c1 ++ r1 = encode_char c2 ++ r2)%string -> c1 = c2 /\ r1 = r2.
Proof.
  destruct (encode_char_cases c1) as [[U1 E1] | [[S1 E1] | (U1 & N1 & E1)]];
  destruct (encode_char_cases c2) as [[U2 E2] | [[S2 E2] | (U2 & N2 & E2)]];
    rewrite E1, E2; unfold percent_hex; cbn [String.append]; intros H.
  - injection H as -> ->. now split.
  - injection H as -> ->. discriminate.
  - injection H as Hc. subst c1. discriminate.
  - injection H as <- ->. discriminate.
  - injection H as ->. subst. now split.
  - discriminate.
  - injection H as Hc. subst c2. discriminate.
  - discriminate.
  - injection H as Hhi Hlo Hr.
    split; [|exact Hr].
    apply percent_hex_inj. unfold percent_hex.
    apply (f_equal2 (fun a b => String "%" (String a (String b EmptyString))));
      [exact Hhi | exact Hlo].
Qed.

Lemma string_forall_app (p : ascii -> bool) (a b : string) :
  string_forall p (a ++ b) = string_forall p a && string_forall p b.
Proof.
  induction a as [|c a IH]; simpl; [reflexivity|].
  now rewrite IH, andb_assoc.
Qed.

Lemma encode_char_alphabet (c : ascii) :
  string_forall is_encoded_char (encode_char c) = true.
Proof.
  destruct (encode_char_cases c) as [[U E] | [[S E] | (U & N & E)]]; rewrite E.
  - simpl. unfold is_encoded_char. now rewrite U.
  - reflexivity.
  - unfold percent_hex. destruct (nat_of_ascii_parts c) as [H1 H2].
    cbn [string_forall]. unfold is_encoded_char.
    rewrite !hex_digit_unreserved by assumption. reflexivity.
Qed.

Lemma encode_char_length (c : ascii) :
  (1 <= String.length (encode_char c) <= 3)%nat
  /\ (String.length (encode_char c) = 1%nat -> c = " "%char \/ is_unreserved c = true).
Proof.
  destruct (encode_char_cases c) as [[U E] | [[S E] | (U & N & E)]]; rewrite E;
    simpl; split; try lia; intros H; try discriminate; auto.
Qed.

End UrlEncodeFacts.

(** X1: the result of [url_encode] consists of letters, digits, [-], [_],
    [.], [~], [+] and [%] only; in particular it holds no space, [&], [=],
    [#], [?] or [/], whatever the input. *)
Theorem url_encode_alphabet (str : string) :
  Request.string_forall Request.is_encoded_char (Request.url_encode str) = true
  /\ forall c, Lyrics.find_char c (Request.url_encode str) <> None ->
       Request.is_encoded_char c = true.
Proof.
  assert (H1 : Request.string_forall Request.is_encoded_char
                 (Request.url_encode str) = true).
  { induction str as [|c rest IH]; simpl; [reflexivity|].
    now rewrite string_forall_app, encode_char_alphabet, IH. }
  split; [exact H1|].
  intros c. generalize dependent (Request.url_encode str). intros s.
  induction s as [|d s IH]; simpl; intros Hall Hfind; [congruence|].
  apply andb_prop in Hall. destruct Hall as [Hd Hs].
  destruct (Ascii.eqb d c) eqn:E.
  - apply Ascii.eqb_eq in E. now subst.
  - apply IH; [exact Hs|]. now destruct (Lyrics.find_char c s).
Qed.

(** X2: [url_encode] is injective: two different song names never give
    the same encoded text. *)
Theorem url_encode_injective (s1 s2 : string) :
  Request.url_encode s1 = Request.url_encode s2 -> s1 = s2.
Proof.
  revert s2. induction s1 as [|c1 r1 IH]; intros [|c2 r2]; simpl; intros H.
  - reflexivity.
  - exfalso. destruct (encode_char_cases c2) as [[_ E] | [[_ E] | (_ & _ & E)]];
      rewrite E in H; discriminate.
  - exfalso. destruct (encode_char_cases c1) as [[_ E] | [[_ E] | (_ & _ & E)]];
      rewrite E in H; discriminate.
  - apply encode_char_inj in H. destruct H as [-> H]. f_equal. now apply IH.
Qed.

Lemma url_encode_injective_witness :
  ("a b" = "a b")%string.
Proof.
  apply (url_encode_injective "a b" "a b"). reflexivity.
Defined.

(** X3: the encoded text has between one and three characters for each
    character of the input, and it equals the input exactly when every
    character of the input is a letter, a digit, [-], [_], [.] or [~]. *)
Theorem url_encode_identity_iff (str : string) :
  (String.length str <= String.length (Request.url_encode str)
   <= 3 * String.length str)%nat
  /\ (Request.url_encode str = str
      <-> Request.string_forall Request.is_unreserved str = true).
Proof.
  induction str as [|c rest [IHlen IHiff]]; simpl.
  - split; [lia | tauto].
  - rewrite string_length_app.
    destruct (encode_char_length c) as [Hlen H1].
    split; [lia|].
    destruct (encode_char_cases c) as [[U E] | [[S E] | (U & N & E)]]; rewrite E.
    + cbn [String.append Request.string_forall]. rewrite U.
      rewrite andb_true_l, <- IHiff. split; intros H.
      * now injection H.
      * now rewrite H.
    + subst c. cbn [String.append Request.string_forall].
      change (Request.is_unreserved " ") with false.
      split; intros H; discriminate.
    + unfold Request.percent_hex. cbn [String.append Request.string_forall].
      rewrite U. split; intros H; [|discriminate].
      exfalso. apply (f_equal String.length) in H.
      cbn [String.length] in H. lia.
Qed.

Section BuildUrlFacts.

Import Request.

Lemma string_app_nil_r (s : string) : (s ++ EmptyString)%string = s.
Proof. induction s as [|c s IH]; simpl; [reflexivity | now rewrite IH]. Qed.

Lemma split_params_segment (seg : string) : forall (rest param : string),
  Lyrics.find_char "&" seg = None ->
  split_params (seg ++ rest) param = split_params rest (param ++ seg).
Proof.
  induction seg as [|c seg IH]; intros rest param Hno; simpl.
  - now rewrite string_app_nil_r.
  - simpl in Hno. rewrite Ascii.eqb_sym.
    destruct (Ascii.eqb c "&") eqn:E; [discriminate|].
    rewrite Ascii.eqb_sym, E.
    rewrite IH by (now destruct (Lyrics.find_char "&" seg)).
    now rewrite string_app_assoc.
Qed.

Lemma split_params_concat (segs : list string) :
  segs <> [] ->
  Forall (fun seg => Lyrics.find_char "&" seg = None) segs ->
  split_params (String.concat "&" segs) EmptyString = segs.
Proof.
  induction segs as [|seg segs IH]; intros Hne Hall; [congruence|].
  inversion Hall as [|? ? Hseg Hrest]; subst.
  destruct segs as [|seg' segs'].
  - simpl. rewrite <- (string_app_nil_r seg) at 1.
    rewrite split_params_segment by exact Hseg. reflexivity.
  - change (String.concat "&" (seg :: seg' :: segs'))
      with (seg ++ String "&" (String.concat "&" (seg' :: segs')))%string.
    rewrite split_params_segment by exact Hseg.
    cbn [split_params]. simpl (Ascii.eqb "&" "&"). cbn [String.append].
    f_equal. apply IH; [discriminate | exact Hrest].
Qed.

Lemma encode_param_key_value (key value : string) :
  Lyrics.find_char "=" key = None ->
  encode_param (key ++ String "=" value)
  = (key ++ String "=" (url_encode value))%string.
Proof.
  intros Hkey. unfold encode_param.
  rewrite (find_char_app "=" key value Hkey).
  unfold Lyrics.substr. rewrite substring_prefix, substr_from_after.
  reflexivity.
Qed.

End BuildUrlFacts.

(** X4: for a query made of [key=value] pairs joined by [&], with no [&]
    or [=] inside a key and no [&] inside a value, [buildUrlWithParams] gives
    base, path, [?] and the same pairs with every value URL-encoded and every
    key copied as it is. *)
Theorem build_url_encodes_values
    (base_url path : string) (params : list (string * string)) :
  Forall (fun kv => Lyrics.find_char "&" (fst kv) = None
                    /\ Lyrics.find_char "=" (fst kv) = None
                    /\ Lyrics.find_char "&" (snd kv) = None) params ->
  Request.buildUrlWithParams base_url path
    (String.concat "&"
       (map (fun kv => (fst kv ++ String "=" (snd kv))%string) params))
  = (base_url ++ path ++ "?"
     ++ String.concat "&"
          (map (fun kv => (fst kv ++ String "=" (Request.url_encode (snd kv)))%string)
             params))%string.
Proof.
  intros Hall. unfold Request.buildUrlWithParams. do 3 f_equal.
  destruct params as [|kv params]; [reflexivity|].
  rewrite split_params_concat.
  - rewrite map_map. f_equal. apply map_ext_in.
    intros [k v] Hin. rewrite Forall_forall in Hall.
    destruct (Hall _ Hin) as (_ & Hk & _). simpl in *.
    now apply encode_param_key_value.
  - discriminate.
  - apply Forall_map. eapply Forall_impl; [|exact Hall].
    intros [k v] (Hk & _ & Hv). simpl in *.
    apply find_char_app_none; [exact Hk|]. simpl. now rewrite Hv.
Qed.

Lemma build_url_encodes_values_witness :
  Request.buildUrlWithParams "https://h/" "search.php"
    (String.concat "&"
       (map (fun kv => (fst kv ++ String "=" (snd kv))%string)
          [("song"%string, "a b=c"%string); ("n"%string, "1"%string)]))
  = ("https://h/" ++ "search.php" ++ "?"
     ++ String.concat "&"
          (map (fun kv => (fst kv ++ String "=" (Request.url_encode (snd kv)))%string)
             [("song"%string, "a b=c"%string); ("n"%string, "1"%string)]))%string.
Proof.
  apply (build_url_encodes_values "https://h/" "search.php").
  repeat constructor.
Defined.

Example build_url_example :
  Request.buildUrlWithParams "https://h/" "search.php" "song=a b=c&n=1&flag"
  = "https://h/search.php?song=a+b%3Dc&n=1&flag"%string.
Proof. vm_compute. reflexivity. Qed.

(** ** Authentication headers *)

Section AuthFacts.

Import Request.

Lemma hex_digit_upper (n : nat) :
  (n < 16)%nat -> is_upper_hex (hex_digit n) = true.
Proof.
  intros Hn. unfold is_upper_hex. rewrite hex_digit_code by exact Hn.
  do 16 (destruct n as [|n]; [reflexivity|]). lia.
Qed.

Lemma byte_parts (b : byte) :
  (Byte.to_nat b / 16 < 16 /\ Byte.to_nat b mod 16 < 16)%nat.
Proof.
  assert (Hb : (Byte.to_nat b < 256)%nat)
    by (pose proof (Byte.to_nat_bounded b); lia).
  split.
  - apply Nat.Div0.div_lt_upper_bound. lia.
  - apply Nat.mod_upper_bound. lia.
Qed.

Lemma hex_byte_inj (a b : byte) : hex_byte a = hex_byte b -> a = b.
Proof.
  unfold hex_byte. intros H.
  destruct (byte_parts a) as [A1 A2]. destruct (byte_parts b) as [B1 B2].
  pose proof (Nat.div_mod_eq (Byte.to_nat a) 16) as Ea.
  pose proof (Nat.div_mod_eq (Byte.to_nat b) 16) as Eb.
  remember (Byte.to_nat a / 16)%nat as qa. remember (Byte.to_nat a mod 16)%nat as ma.
  remember (Byte.to_nat b / 16)%nat as qb. remember (Byte.to_nat b mod 16)%nat as mb.
  injection H as Hhi Hlo.
  apply hex_digit_inj in Hhi; try assumption.
  apply hex_digit_inj in Hlo; try assumption.
  assert (E : Byte.to_nat a = Byte.to_nat b) by lia.
  apply (f_equal Byte.of_nat) in E. rewrite !Byte.of_to_nat in E.
  now injection E.
Qed.

Lemma hex_string_length (bytes : list byte) :
  String.length (hex_string bytes) = (2 * List.length bytes)%nat.
Proof.
  induction bytes as [|b bytes IH]; simpl; [reflexivity|]. rewrite IH. lia.
Qed.

Lemma hex_string_upper (bytes : list byte) :
  string_forall is_upper_hex (hex_string bytes) = true.
Proof.
  induction bytes as [|b bytes IH]; [reflexivity|].
  destruct (byte_parts b) as [H1 H2].
  cbn [hex_string]. unfold hex_byte. cbn [String.append string_forall].
  now rewrite !hex_digit_upper, IH by assumption.
Qed.

Lemma hex_string_inj (a : list byte) : forall b,
  List.length a = List.length b -> hex_string a = hex_string b -> a = b.
Proof.
  induction a as [|x a IH]; intros [|y b] Hlen H; try discriminate; [reflexivity|].
  cbn [hex_string] in H. unfold hex_byte in H. cbn [String.append] in H.
  injection H as Hhi Hlo Hrest.
  assert (x = y).
  { apply hex_byte_inj. unfold hex_byte.
    apply (f_equal2 (fun p q => String p (String q EmptyString)));
      [exact Hhi | exact Hlo]. }
  subst y. f_equal. apply IH; [simpl in Hlen; lia | exact Hrest].
Qed.

End AuthFacts.

(** X5: whatever the MAC address and the time, the dynamic key is 32
    characters long, all of them digits or the capitals A to F, and two keys
    are equal only if the first 16 bytes of the two digests are equal. *)
Theorem dynamic_key_format (mac : string) (sha256 : string -> list byte)
    (timestamp timestamp' : Z) :
  (forall data, List.length (sha256 data) = 32%nat) ->
  let key := Request.generate_dynamic_key mac sha256 timestamp in
  let key' := Request.generate_dynamic_key mac sha256 timestamp' in
  String.length key = 32%nat
  /\ Request.string_forall Request.is_upper_hex key = true
  /\ (key = key' ->
      firstn 16 (sha256 (Request.dynamic_key_data mac timestamp))
      = firstn 16 (sha256 (Request.dynamic_key_data mac timestamp'))).
Proof.
  intros Hlen key key'. subst key key'. unfold Request.generate_dynamic_key.
  split; [|split].
  - rewrite hex_string_length, length_firstn, Hlen. reflexivity.
  - apply hex_string_upper.
  - apply hex_string_inj. now rewrite !length_firstn, !Hlen.
Qed.

Lemma dynamic_key_format_witness :
  let sha256 := fun data : string =>
    repeat (Ascii.byte_of_ascii (match data with
                                 | String c _ => c
                                 | EmptyString => "000"%char
                                 end)) 32 in
  let key := Request.generate_dynamic_key "AA:BB" sha256 7 in
  let key' := Request.generate_dynamic_key "AA:BB" sha256 8 in
  String.length key = 32%nat
  /\ Request.string_forall Request.is_upper_hex key = true
  /\ (key = key' ->
      firstn 16 (sha256 (Request.dynamic_key_data "AA:BB" 7))
      = firstn 16 (sha256 (Request.dynamic_key_data "AA:BB" 8))).
Proof.
  intros sha256.
  apply (dynamic_key_format "AA:BB" sha256 7 8).
  intros data. apply repeat_length.
Defined.

(** X6: the chip identifier is the MAC address without its colons: it
    holds no colon, a MAC without colons is returned unchanged, and the
    lengths differ by the number of colons removed. *)
Theorem chip_id_without_colons (mac : string) :
  Lyrics.find_char ":" (Request.get_device_chip_id mac) = None
  /\ (Lyrics.find_char ":" mac = None -> Request.get_device_chip_id mac = mac)
  /\ Request.get_device_chip_id (Request.get_device_chip_id mac)
     = Request.get_device_chip_id mac
  /\ (String.length (Request.get_device_chip_id mac) <= String.length mac)%nat
  /\ Request.get_device_chip_id "AA:BB:CC:DD:EE:FF" = "AABBCCDDEEFF"%string.
Proof.
  unfold Request.get_device_chip_id.
  assert (H1 : forall s, Lyrics.find_char ":" (Request.remove_colons s) = None).
  { induction s as [|c s IH]; simpl; [reflexivity|].
    destruct (Ascii.eqb c ":") eqn:E; [exact IH|].
    simpl. now rewrite E, IH. }
  assert (H2 : forall s, Lyrics.find_char ":" s = None ->
                         Request.remove_colons s = s).
  { induction s as [|c s IH]; simpl; intros H; [reflexivity|].
    destruct (Ascii.eqb c ":"); [discriminate|].
    rewrite IH; [reflexivity | now destruct (Lyrics.find_char ":" s)]. }
  split; [apply H1|]. split; [apply H2|]. split; [apply H2, H1|].
  split; [|reflexivity].
  induction mac as [|c s IH]; simpl; [lia|].
  destruct (Ascii.eqb c ":"); simpl; lia.
Qed.

(** ** URL check of the downloader *)

Lemma prefix_http_accepted (url : string) :
  String.prefix "http" url = true -> Stream.url_rejected url = false.
Proof.
  intros H. unfold Stream.url_rejected.
  destruct url as [|c rest]; [discriminate|].
  cbn [String.index]. now rewrite H.
Qed.

Lemma prefix_app (p s t : string) :
  String.prefix p s = true -> String.prefix p (s ++ t) = true.
Proof.
  revert s. induction p as [|a p IH]; intros s H;
    [destruct (s ++ t)%string; reflexivity|].
  destruct s as [|b s]; [discriminate|]. simpl in *.
  destruct (ascii_dec a b); [now apply IH | discriminate].
Qed.

Lemma prefix_shorter (a b s : string) :
  String.prefix (a ++ b) s = true -> String.prefix a s = true.
Proof.
  revert s. induction a as [|x a IH]; intros s H; [now destruct s|].
  destruct s as [|y s]; [discriminate|]. simpl in *.
  destruct (ascii_dec x y); [now apply IH | discriminate].
Qed.

(** X7: every URL that [Download] resolves is absolute: it starts with
    [http://] or [https://], the downloader's URL check accepts it, and
    resolving it once more changes nothing. *)
Theorem resolve_url_absolute (path : string) :
  (Url.starts_with "http://" (Url.resolve_url path) = true
   \/ Url.starts_with "https://" (Url.resolve_url path) = true)
  /\ Stream.url_rejected (Url.resolve_url path) = false
  /\ Url.resolve_url (Url.resolve_url path) = Url.resolve_url path.
Proof.
  assert (Hbase : forall p, Url.starts_with "https://" (Url.base_url ++ p) = true).
  { intros p. unfold Url.starts_with. now apply prefix_app. }
  assert (Habs : Url.starts_with "http://" (Url.resolve_url path) = true
                 \/ Url.starts_with "https://" (Url.resolve_url path) = true).
  { unfold Url.resolve_url.
    destruct (Url.starts_with "http://" path) eqn:E1; [now left|].
    destruct (Url.starts_with "https://" path) eqn:E2; [now right|].
    simpl. right. now destruct (Url.contains "radio_proxy.php" path). }
  split; [exact Habs|]. split.
  - apply prefix_http_accepted.
    destruct Habs as [H | H]; unfold Url.starts_with in H.
    + now apply (prefix_shorter "http" "://").
    + now apply (prefix_shorter "http" "s://").
  - unfold Url.resolve_url at 1.
    destruct Habs as [H | H]; rewrite H; [reflexivity | now rewrite orb_true_r].
Qed.

(** ** The chunk queue: nothing lost, nothing twice *)

Lemma log_run_state (cap : Z) (evs : list ChunkBuffer.event) :
  forall s, fst (ChunkLog.log_run cap s evs) = ChunkBuffer.run cap (fst s) evs.
Proof.
  induction evs as [|e evs IH]; intros [r l]; [reflexivity|].
  unfold ChunkLog.log_run, ChunkBuffer.run in *. cbn [fold_left].
  rewrite IH. reflexivity.
Qed.

Lemma log_step_conserves (cap : Z) (r : ChunkBuffer.Radio) (l : ChunkLog.log)
    (e : ChunkBuffer.event) :
  ChunkLog.accepted l
  = map ChunkLog.released_chunk (ChunkLog.released l) ++ ChunkBuffer.audio_buffer_ r ->
  let s' := ChunkLog.log_step cap (r, l) e in
  ChunkLog.accepted (snd s')
  = map ChunkLog.released_chunk (ChunkLog.released (snd s'))
    ++ ChunkBuffer.audio_buffer_ (fst s').
Proof.
  intros H. destruct e as [bytes| | |b]; cbn [ChunkLog.log_step fst snd ChunkBuffer.step].
  - unfold ChunkBuffer.push_chunk.
    destruct ((ChunkBuffer.buffer_size_ r <? cap) || negb (ChunkBuffer.is_downloading_ r));
      [|exact H].
    destruct (ChunkBuffer.is_downloading_ r); cbn; [|exact H].
    now rewrite H, app_assoc.
  - unfold ChunkBuffer.pop_chunk.
    destruct (ChunkBuffer.audio_buffer_ r) as [|c rest] eqn:Hq; cbn.
    + now rewrite H, Hq.
    + rewrite H, map_app, <- app_assoc. reflexivity.
  - cbn. rewrite H, map_app, map_map, app_nil_r. cbn.
    now rewrite map_id.
  - exact H.
Qed.

(** X8: the chunks the downloader queued are, in the same order, the
    chunks that have left the queue (popped by the decoder or freed by a
    clear) followed by the chunks still queued: none is lost, none leaves
    twice, none overtakes another. *)
Theorem queue_conserves_chunks (MAX_BUFFER_SIZE : Z) (evs : list ChunkBuffer.event) :
  let s := ChunkLog.log_run MAX_BUFFER_SIZE (ChunkBuffer.init, ChunkLog.empty_log) evs in
  fst s = ChunkBuffer.run MAX_BUFFER_SIZE ChunkBuffer.init evs
  /\ ChunkLog.accepted (snd s)
     = map ChunkLog.released_chunk (ChunkLog.released (snd s))
       ++ ChunkBuffer.audio_buffer_ (fst s).
Proof.
  intros s. split; [apply log_run_state|]. subst s.
  assert (H : forall evs r l,
    ChunkLog.accepted l
    = map ChunkLog.released_chunk (ChunkLog.released l) ++ ChunkBuffer.audio_buffer_ r ->
    ChunkLog.accepted (snd (ChunkLog.log_run MAX_BUFFER_SIZE (r, l) evs))
    = map ChunkLog.released_chunk
        (ChunkLog.released (snd (ChunkLog.log_run MAX_BUFFER_SIZE (r, l) evs)))
      ++ ChunkBuffer.audio_buffer_ (fst (ChunkLog.log_run MAX_BUFFER_SIZE (r, l) evs))).
  { clear evs. induction evs as [|e evs IH]; intros r l Hinv; [exact Hinv|].
    unfold ChunkLog.log_run. cbn [fold_left].
    pose proof (log_step_conserves MAX_BUFFER_SIZE r l e Hinv) as Hstep.
    destruct (ChunkLog.log_step MAX_BUFFER_SIZE (r, l) e) as [r' l'].
    now apply IH. }
  now apply H.
Qed.

Example queue_conserves_example :
  let evs := [ChunkBuffer.SetDownloading true;
              ChunkBuffer.Push [x49]; ChunkBuffer.Push [x44; x33];
              ChunkBuffer.Pop; ChunkBuffer.Push [xff];
              ChunkBuffer.Clear; ChunkBuffer.Pop;
              ChunkBuffer.SetDownloading false; ChunkBuffer.Push [x00]] in
  snd (ChunkLog.log_run 8192 (ChunkBuffer.init, ChunkLog.empty_log) evs)
  = ChunkLog.mkLog
      [ChunkBuffer.mkChunk [x49] 1; ChunkBuffer.mkChunk [x44; x33] 2;
       ChunkBuffer.mkChunk [xff] 1]
      [ChunkBuffer.mkChunk [x00] 1]
      [ChunkLog.ToDecoder (ChunkBuffer.mkChunk [x49] 1);
       ChunkLog.FreedByClear (ChunkBuffer.mkChunk [x44; x33] 2);
       ChunkLog.FreedByClear (ChunkBuffer.mkChunk [xff] 1)].
Proof. vm_compute. reflexivity. Qed.

(** X9: in every reachable state the byte total is zero exactly when the
    queue is empty, so [GetBufferSize() == 0] tells that no chunk waits. *)
Theorem buffer_empty_iff_zero (MAX_BUFFER_SIZE : Z) (evs : list ChunkBuffer.event) :
  0 <= MAX_BUFFER_SIZE ->
  MAX_BUFFER_SIZE + ChunkBuffer.chunk_size <= 2 ^ 32 ->
  Forall ChunkBuffer.read_ok evs ->
  let r := ChunkBuffer.run MAX_BUFFER_SIZE ChunkBuffer.init evs in
  ChunkBuffer.buffer_size_ r = 0 <-> ChunkBuffer.audio_buffer_ r = [].
Proof.
  intros Hnn Hfit Hok r.
  destruct (run_inv MAX_BUFFER_SIZE Hnn Hfit evs ChunkBuffer.init Hok
              (init_inv MAX_BUFFER_SIZE Hnn)) as (Hsum & Hall & _).
  fold r in Hsum, Hall. rewrite Hsum.
  destruct (ChunkBuffer.audio_buffer_ r) as [|c q]; simpl.
  - tauto.
  - inversion Hall as [|? ? Hc Hq]; subst.
    pose proof (queued_bytes_nonneg q Hq). unfold ChunkBuffer.chunk_ok in Hc.
    split; [lia | discriminate].
Qed.

Lemma buffer_empty_iff_zero_witness :
  let r := ChunkBuffer.run 8192 ChunkBuffer.init
             [ChunkBuffer.SetDownloading true; ChunkBuffer.Push [xff; xfb];
              ChunkBuffer.Pop] in
  ChunkBuffer.buffer_size_ r = 0 <-> ChunkBuffer.audio_buffer_ r = [].
Proof.
  apply (buffer_empty_iff_zero 8192).
  - lia.
  - unfold ChunkBuffer.chunk_size. lia.
  - repeat constructor; simpl; unfold ChunkBuffer.chunk_size; lia.
Defined.

(** ** ID3 skip and the refill of the input window *)

(** X10: [SkipId3Tag] never skips past the bytes it was given: the result
    is 0 when fewer than 10 bytes are available or the marker is missing, and
    otherwise at least 10 and at most [size]. *)
Theorem skip_id3_within_size (data : list byte) (size : Z) :
  0 <= size ->
  0 <= Id3.SkipId3Tag data size <= size
  /\ (Id3.SkipId3Tag data size = 0
      <-> size < 10 \/ Id3.has_id3_marker data = false)
  /\ (Id3.SkipId3Tag data size <> 0 -> 10 <= Id3.SkipId3Tag data size).
Proof.
  intros Hsize.
  pose proof (tag_size_synchsafe data) as Htag.
  pose proof (synchsafe28_range (Id3.byte_at data 6) (Id3.byte_at data 7)
                (Id3.byte_at data 8) (Id3.byte_at data 9)) as Hrange.
  rewrite <- Htag in Hrange.
  unfold Id3.SkipId3Tag.
  destruct (size <? 10) eqn:Hlt.
  { apply Z.ltb_lt in Hlt. repeat split; try lia; intros; try lia; now left. }
  apply Z.ltb_ge in Hlt.
  destruct (Id3.has_id3_marker data) eqn:Hm; simpl negb; cbv iota.
  2:{ repeat split; try lia; intros; try lia; now right. }
  rewrite wrap_u32_small by lia.
  destruct (10 + Id3.tag_size data >? size) eqn:Hgt.
  - repeat split; try lia; try (intros [H | H]; [lia | discriminate]).
  - rewrite Z.gtb_ltb in Hgt. apply Z.ltb_ge in Hgt.
    repeat split; try lia; try (intros [H | H]; [lia | discriminate]).
Qed.

Lemma skip_id3_within_size_witness :
  0 <= Id3.SkipId3Tag [x49; x44; x33; x04; x00; x00; x00; x00; x02; x01] 64 <= 64
  /\ (Id3.SkipId3Tag [x49; x44; x33; x04; x00; x00; x00; x00; x02; x01] 64 = 0
      <-> 64 < 10
          \/ Id3.has_id3_marker [x49; x44; x33; x04; x00; x00; x00; x00; x02; x01]
             = false)
  /\ (Id3.SkipId3Tag [x49; x44; x33; x04; x00; x00; x00; x00; x02; x01] 64 <> 0 ->
      10 <= Id3.SkipId3Tag [x49; x44; x33; x04; x00; x00; x00; x00; x02; x01] 64).
Proof.
  apply (skip_id3_within_size
           [x49; x44; x33; x04; x00; x00; x00; x00; x02; x01] 64).
  lia.
Defined.

Section RefillFacts.

Import Stream.

Lemma skip_id3_range (data : list byte) (size : Z) :
  0 <= size -> 0 <= Id3.SkipId3Tag data size <= size.
Proof.
  intros Hsize.
  pose proof (tag_size_synchsafe data) as Htag.
  pose proof (synchsafe28_range (Id3.byte_at data 6) (Id3.byte_at data 7)
                (Id3.byte_at data 8) (Id3.byte_at data 9)) as Hrange.
  rewrite <- Htag in Hrange. unfold Id3.SkipId3Tag.
  destruct (size <? 10); [lia|].
  destruct (negb (Id3.has_id3_marker data)); [lia|].
  rewrite wrap_u32_small by lia.
  destruct (10 + Id3.tag_size data >? size) eqn:Hgt; [lia|].
  rewrite Z.gtb_ltb in Hgt. apply Z.ltb_ge in Hgt. lia.
Qed.

Lemma byte_at_firstn (data : list byte) (i n : nat) :
  (i < n)%nat -> Id3.byte_at (firstn n data) i = Id3.byte_at data i.
Proof.
  intros Hi. unfold Id3.byte_at. f_equal.
  revert i n Hi. induction data as [|b data IH]; intros i n Hi.
  - now rewrite firstn_nil.
  - destruct n as [|n]; [lia|]. destruct i as [|i]; simpl; [reflexivity|].
    apply IH. lia.
Qed.

(** [SkipId3Tag] looks at the first ten bytes only. *)
Lemma skip_id3_first_ten (a b : list byte) (size : Z) :
  firstn 10 a = firstn 10 b -> Id3.SkipId3Tag a size = Id3.SkipId3Tag b size.
Proof.
  intros H.
  assert (Hb : forall i, (i < 10)%nat -> Id3.byte_at a i = Id3.byte_at b i).
  { intros i Hi. rewrite <- (byte_at_firstn a i 10 Hi), <- (byte_at_firstn b i 10 Hi).
    now rewrite H. }
  unfold Id3.SkipId3Tag, Id3.has_id3_marker, Id3.tag_size.
  rewrite !(Hb 0%nat), !(Hb 1%nat), !(Hb 2%nat), !(Hb 6%nat), !(Hb 7%nat),
    !(Hb 8%nat), !(Hb 9%nat) by lia.
  reflexivity.
Qed.

Lemma write_at_length (buffer src : list byte) (offset : Z) :
  (Z.to_nat offset + List.length src <= List.length buffer)%nat ->
  List.length (write_at buffer offset src) = List.length buffer.
Proof.
  intros H. unfold write_at.
  rewrite !length_app, length_firstn, length_skipn. lia.
Qed.

Lemma write_at_prefix (buffer src : list byte) (offset : Z) :
  (Z.to_nat offset + List.length src <= List.length buffer)%nat ->
  firstn (Z.to_nat offset + List.length src) (write_at buffer offset src)
  = firstn (Z.to_nat offset) buffer ++ src.
Proof.
  intros H. unfold write_at. rewrite app_assoc.
  rewrite firstn_app.
  rewrite length_app, length_firstn.
  replace (Z.to_nat offset + List.length src
           - (Nat.min (Z.to_nat offset) (List.length buffer) + List.length src))%nat
    with 0%nat by lia.
  rewrite firstn_O, app_nil_r.
  apply firstn_all2. rewrite length_app, length_firstn. lia.
Qed.

Lemma window_length (s : input) :
  input_ok s -> List.length (window s) = Z.to_nat (bytes_left s).
Proof.
  intros (Hlen & Hrp & Hbl & Hsum). unfold window.
  rewrite length_firstn, length_skipn, Hlen. unfold buffer_capacity in *. lia.
Qed.

End RefillFacts.

(** X11: a refill of the decoder's input, done as the loop does it when
    fewer than 4096 bytes are left, loses nothing: the window afterwards is
    the old window followed by the whole chunk, less the ID3 skip that is
    applied the first time at least 10 bytes are in view; the window stays
    inside the 8192-byte buffer. *)
Theorem refill_keeps_bytes (s : Stream.input) (chunk : ChunkBuffer.AudioChunk) :
  Stream.input_ok s ->
  Stream.chunk_wf chunk ->
  Stream.bytes_left s < 4096 ->
  let s' := Stream.refill s chunk in
  let joined := Stream.window s ++ ChunkBuffer.data chunk in
  let total := Stream.bytes_left s + ChunkBuffer.size chunk in
  let skip :=
    if negb (Stream.id3_processed s) && (total >=? 10)
    then Id3.SkipId3Tag joined total else 0 in
  Stream.input_ok s'
  /\ Stream.window s' = skipn (Z.to_nat skip) joined
  /\ Stream.bytes_left s' = total - skip
  /\ Stream.id3_processed s' = Stream.id3_processed s || (total >=? 10).
Proof.
  intros Hok (Hsize & Hpos & Hmax) Hfill s' joined total skip.
  pose proof (window_length s Hok) as Hwlen.
  destruct Hok as (Hlen & Hrp & Hbl & Hsum).
  unfold Stream.buffer_capacity, ChunkBuffer.chunk_size in *.
  set (bl := Z.to_nat (Stream.bytes_left s)) in *.
  set (moved := if (Stream.bytes_left s >? 0) && negb (Stream.read_ptr s =? 0)
                then Stream.write_at (Stream.mp3_input_buffer s) 0 (Stream.window s)
                else Stream.mp3_input_buffer s).
  assert (Hmoved : List.length moved = Z.to_nat 8192 /\ firstn bl moved = Stream.window s).
  { subst moved.
    destruct ((Stream.bytes_left s >? 0) && negb (Stream.read_ptr s =? 0)) eqn:E.
    - split.
      + rewrite write_at_length; [exact Hlen | rewrite Hwlen; simpl; lia].
      + pose proof (write_at_prefix (Stream.mp3_input_buffer s) (Stream.window s) 0
                      ltac:(rewrite Hwlen; simpl; lia)) as Hp.
        simpl in Hp. rewrite Hwlen in Hp. exact Hp.
    - split; [exact Hlen|].
      apply andb_false_iff in E. destruct E as [E | E].
      + rewrite Z.gtb_ltb in E. apply Z.ltb_ge in E.
        assert (bl = 0%nat) by (subst bl; lia).
        unfold Stream.window. fold bl. replace bl with 0%nat. reflexivity.
      + apply negb_false_iff, Z.eqb_eq in E.
        unfold Stream.window. rewrite E. reflexivity. }
  destruct Hmoved as [Hmlen Hmpre].
  set (src := firstn (Z.to_nat (Z.min (ChunkBuffer.size chunk)
                                      (8192 - Stream.bytes_left s)))
                (ChunkBuffer.data chunk)).
  assert (Hsrc : src = ChunkBuffer.data chunk).
  { subst src. apply firstn_all2. lia. }
  set (filled := Stream.write_at moved (Stream.bytes_left s) src).
  assert (Hflen : List.length filled = Z.to_nat 8192).
  { subst filled. rewrite write_at_length; [exact Hmlen|]. rewrite Hsrc. lia. }
  assert (Hfpre : firstn (Z.to_nat total) filled = joined).
  { subst filled joined total.
    replace (Z.to_nat (Stream.bytes_left s + ChunkBuffer.size chunk))
      with (Z.to_nat (Stream.bytes_left s) + List.length src)%nat
      by (rewrite Hsrc; lia).
    rewrite write_at_prefix by (rewrite Hsrc; lia).
    fold bl. now rewrite Hmpre, Hsrc. }
  assert (Hs' : s' =
    if negb (Stream.id3_processed s) && (total >=? 10) then
      if Id3.SkipId3Tag filled total >? 0
      then Stream.mkInput filled (Id3.SkipId3Tag filled total)
             (total - Id3.SkipId3Tag filled total) true
      else Stream.mkInput filled 0 total true
    else Stream.mkInput filled 0 total (Stream.id3_processed s)).
  { subst s'. unfold Stream.refill.
    destruct (ChunkBuffer.size chunk >? 0) eqn:E;
      [|rewrite Z.gtb_ltb in E; apply Z.ltb_ge in E; lia].
    fold moved. unfold Stream.buffer_capacity. fold src. fold filled.
    replace (Stream.bytes_left s
             + Z.min (ChunkBuffer.size chunk) (8192 - Stream.bytes_left s))
      with total by (subst total; lia).
    reflexivity. }
  assert (Hjoin_len : List.length joined = Z.to_nat total).
  { subst joined total. rewrite length_app, Hwlen. lia. }
  assert (Hplain : Stream.window (Stream.mkInput filled 0 total true) = joined
                   /\ forall b, Stream.window (Stream.mkInput filled 0 total b) = joined).
  { split; [|intros b]; unfold Stream.window; simpl; exact Hfpre. }
  destruct (negb (Stream.id3_processed s) && (total >=? 10)) eqn:Eid3.
  - apply andb_prop in Eid3. destruct Eid3 as [Enp Ege].
    apply negb_true_iff in Enp. rewrite Enp.
    rewrite Z.geb_leb in Ege. apply Z.leb_le in Ege.
    assert (Hsame : Id3.SkipId3Tag filled total = Id3.SkipId3Tag joined total).
    { apply skip_id3_first_ten. rewrite <- Hfpre.
      rewrite firstn_firstn. f_equal. lia. }
    pose proof (skip_id3_range joined total ltac:(lia)) as Hrange.
    fold skip in Hrange, Hsame. rewrite Hsame in Hs'. fold skip in Hs'.
    assert (Ege' : (total >=? 10) = true) by (rewrite Z.geb_leb; now apply Z.leb_le).
    rewrite Ege'.
    destruct (skip >? 0) eqn:Epos; rewrite Hs'.
    + unfold Stream.input_ok, Stream.window, Stream.buffer_capacity. simpl.
      repeat split; try lia; try assumption.
      rewrite <- Hfpre, firstn_skipn_comm.
      do 2 f_equal. lia.
    + rewrite Z.gtb_ltb in Epos. apply Z.ltb_ge in Epos.
      assert (skip = 0) as -> by lia.
      unfold Stream.input_ok, Stream.buffer_capacity. simpl.
      repeat split; try lia; try assumption; try apply Hplain.
  - subst skip. rewrite Hs'.
    unfold Stream.input_ok, Stream.buffer_capacity. simpl.
    repeat split; try lia; try assumption; try apply Hplain.
    apply andb_false_iff in Eid3. destruct Eid3 as [E | E].
    + apply negb_false_iff in E. now rewrite E.
    + rewrite E. now rewrite orb_false_r.
Qed.

Lemma refill_keeps_bytes_witness :
  let s := Stream.mkInput (repeat x00 (Z.to_nat 8192)) 0 0 false in
  let chunk := ChunkBuffer.mkChunk
                 [x49; x44; x33; x04; x00; x00; x00; x00; x00; x01; xaa; xff; xfb] 13 in
  let s' := Stream.refill s chunk in
  let joined := Stream.window s ++ ChunkBuffer.data chunk in
  let total := Stream.bytes_left s + ChunkBuffer.size chunk in
  let skip :=
    if negb (Stream.id3_processed s) && (total >=? 10)
    then Id3.SkipId3Tag joined total else 0 in
  Stream.input_ok s'
  /\ Stream.window s' = skipn (Z.to_nat skip) joined
  /\ Stream.bytes_left s' = total - skip
  /\ Stream.id3_processed s' = Stream.id3_processed s || (total >=? 10).
Proof.
  intros s chunk.
  apply (refill_keeps_bytes s chunk).
  - unfold Stream.input_ok, Stream.buffer_capacity, s.
    cbn [Stream.mp3_input_buffer Stream.read_ptr Stream.bytes_left].
    split; [apply repeat_length | lia].
  - unfold Stream.chunk_wf, ChunkBuffer.chunk_size, chunk.
    cbn [ChunkBuffer.size ChunkBuffer.data List.length]. lia.
  - unfold s. cbn [Stream.bytes_left]. lia.
Defined.

(** The first chunk of a stream with an 11-byte ID3 tag: the tag is
    skipped and the window starts at the frame header. *)
Example refill_skips_tag :
  let s := Stream.mkInput (repeat x00 64) 0 0 false in
  let chunk := ChunkBuffer.mkChunk
                 [x49; x44; x33; x04; x00; x00; x00; x00; x00; x01; xaa; xff; xfb] 13 in
  Stream.window (Stream.refill s chunk) = [xff; xfb]
  /\ Stream.read_ptr (Stream.refill s chunk) = 11
  /\ Stream.id3_processed (Stream.refill s chunk) = true.
Proof. vm_compute. repeat split. Qed.

(** ** Play time and downmix *)

Lemma frame_duration_valid (fi : Frame.MP3FrameInfo) :
  PlayTime.frame_valid fi ->
  let rate := Frame.samprate fi * Frame.nChans fi in
  let d := Frame.outputSamps fi * 1000 / rate in
  Frame.frame_duration fi = Frame.Duration d
  /\ 0 <= d
  /\ d * rate <= Frame.outputSamps fi * 1000 < (d + 1) * rate.
Proof.
  intros (Hs & Hc & Ho & Hnum & Hden) rate d.
  assert (Hrate : 0 < rate) by (subst rate; nia).
  assert (Hd : 0 <= d) by (subst d; apply Z.div_pos; lia).
  assert (Hbound : d * rate <= Frame.outputSamps fi * 1000 < (d + 1) * rate).
  { subst d.
    pose proof (Z.div_mod (Frame.outputSamps fi * 1000) rate ltac:(lia)) as Hdm.
    pose proof (Z.mod_pos_bound (Frame.outputSamps fi * 1000) rate Hrate) as Hm.
    nia. }
  split; [|split; assumption].
  unfold Frame.frame_duration.
  destruct (Frame.samprate fi =? 0) eqn:E1; [apply Z.eqb_eq in E1; lia|].
  destruct (Frame.nChans fi =? 0) eqn:E2; [apply Z.eqb_eq in E2; lia|].
  cbn [orb].
  rewrite (wrap_int_small _ Hnum), (wrap_int_small _ Hden). fold rate.
  destruct (rate =? 0) eqn:E3; [apply Z.eqb_eq in E3; lia|].
  rewrite Z.quot_div_nonneg by lia. fold d.
  rewrite wrap_int_small; [reflexivity|].
  unfold in_int in *. split; [lia|].
  assert (d <= Frame.outputSamps fi * 1000) by nia. lia.
Qed.

Lemma play_time_repeat (fi : Frame.MP3FrameInfo) (d : Z) (n : nat) :
  Frame.frame_duration fi = Frame.Duration d ->
  forall start, fold_left PlayTime.advance (repeat fi n) start = start + Z.of_nat n * d.
Proof.
  intros Hd. induction n as [|n IH]; intros start; cbn [repeat fold_left]; [lia|].
  rewrite IH. unfold PlayTime.advance. rewrite Hd. lia.
Qed.

(** X12: the duration added for a valid frame is its true duration in
    milliseconds rounded down; over a stream of [n] equal frames (fewer than
    2^32 of them) the elapsed play time stays inside its 64-bit counter, never
    runs ahead of the audio decoded and falls behind by less than [n]
    milliseconds. *)
Theorem play_time_lags_below_one_ms_per_frame
    (fi : Frame.MP3FrameInfo) (n : nat) :
  PlayTime.frame_valid fi ->
  Z.of_nat n < 2 ^ 32 ->
  let rate := Frame.samprate fi * Frame.nChans fi in
  let samples_ms := Z.of_nat n * (Frame.outputSamps fi * 1000) in
  let elapsed := PlayTime.play_time (repeat fi n) in
  elapsed = Z.of_nat n * (Frame.outputSamps fi * 1000 / rate)
  /\ 0 <= elapsed < 2 ^ 63
  /\ elapsed * rate <= samples_ms
  /\ ((0 < n)%nat -> samples_ms < (elapsed + Z.of_nat n) * rate).
Proof.
  intros Hvalid Hn32 rate samples_ms elapsed.
  destruct (frame_duration_valid fi Hvalid) as (Hd & Hnn & Hlo & Hhi).
  fold rate in Hd, Hnn, Hlo, Hhi.
  assert (He : elapsed = Z.of_nat n * (Frame.outputSamps fi * 1000 / rate)).
  { subst elapsed. unfold PlayTime.play_time.
    rewrite (play_time_repeat fi _ n Hd). lia. }
  split; [exact He|]. rewrite He. subst samples_ms.
  destruct Hvalid as (Hr & Hc & Hs & Hi1 & Hi2). unfold in_int in Hi1, Hi2.
  fold rate in Hi2.
  assert (Hd31 : Frame.outputSamps fi * 1000 / rate < 2 ^ 31).
  { apply Z.le_lt_trans with (Frame.outputSamps fi * 1000); [|lia].
    apply Z.div_le_upper_bound; nia. }
  split; [|split; [nia | intros Hn; nia]].
  split; [nia|].
  change (2 ^ 63) with (2 ^ 32 * 2 ^ 31). nia.
Qed.

Lemma play_time_lags_below_one_ms_per_frame_witness :
  let fi := Frame.mkFrameInfo 2 44100 2304 in
  let rate := Frame.samprate fi * Frame.nChans fi in
  let samples_ms := Z.of_nat 1000 * (Frame.outputSamps fi * 1000) in
  let elapsed := PlayTime.play_time (repeat fi 1000) in
  elapsed = Z.of_nat 1000 * (Frame.outputSamps fi * 1000 / rate)
  /\ 0 <= elapsed < 2 ^ 63
  /\ elapsed * rate <= samples_ms
  /\ ((0 < 1000)%nat -> samples_ms < (elapsed + Z.of_nat 1000) * rate).
Proof.
  intros fi.
  apply (play_time_lags_below_one_ms_per_frame fi 1000).
  - unfold PlayTime.frame_valid, in_int, fi.
    cbn [Frame.samprate Frame.nChans Frame.outputSamps]. lia.
  - reflexivity.
Defined.

(** A thousand stereo frames at 44.1 kHz hold 26.122 s of audio; the play
    time reads 26 s. *)
Example play_time_example :
  PlayTime.play_time (repeat (Frame.mkFrameInfo 2 44100 2304) 1000) = 26000
  /\ PlayTime.lyric_time (repeat (Frame.mkFrameInfo 2 44100 2304) 1000) = 26600
  /\ PlayTime.play_time [Frame.mkFrameInfo 2 44100 2304; Frame.mkFrameInfo 0 0 0;
                         Frame.mkFrameInfo 1 22050 576] = 52.
Proof. vm_compute. repeat split. Qed.

(** X13: each mono sample of a stereo frame lies between its left and
    its right sample, so it is a 16-bit value again, and a pair of equal
    samples gives that sample. *)
Theorem downmix_between_channels (outputSamps : Z) (pcm_buffer : list Z) (i : nat) :
  Forall in_i16 pcm_buffer ->
  (i < Z.to_nat (Z.quot outputSamps 2))%nat ->
  let left := nth (i * 2) pcm_buffer 0 in
  let right := nth (i * 2 + 1) pcm_buffer 0 in
  let mono := nth i (Frame.downmix 2 outputSamps pcm_buffer) 0 in
  Z.min left right <= mono <= Z.max left right
  /\ in_i16 mono
  /\ (left = right -> mono = left).
Proof.
  intros Hall Hi left right mono.
  assert (Hm : mono = Z.quot (left + right) 2).
  { subst mono. unfold Frame.downmix, Frame.stereo_to_mono. simpl (2 =? 2).
    cbv iota.
    rewrite nth_indep with (d' := Frame.mix_pair pcm_buffer 0%nat)
      by (now rewrite length_map, length_seq).
    rewrite map_nth, seq_nth by exact Hi. simpl (0 + i)%nat.
    now apply mix_pair_average. }
  pose proof (nth_in_i16 pcm_buffer (i * 2) Hall) as Hl.
  pose proof (nth_in_i16 pcm_buffer (i * 2 + 1) Hall) as Hr.
  fold left in Hl. fold right in Hr. unfold in_i16 in *.
  rewrite Hm. Z.quot_rem_to_equations. lia.
Qed.

Lemma downmix_between_channels_witness :
  let pcm_buffer := [-32768; 32767; -3; -4] in
  let left := nth (1 * 2) pcm_buffer 0 in
  let right := nth (1 * 2 + 1) pcm_buffer 0 in
  let mono := nth 1 (Frame.downmix 2 4 pcm_buffer) 0 in
  Z.min left right <= mono <= Z.max left right
  /\ in_i16 mono
  /\ (left = right -> mono = left).
Proof.
  intros pcm_buffer.
  apply (downmix_between_channels 4 pcm_buffer 1).
  - repeat constructor; unfold in_i16; lia.
  - simpl. lia.
Defined.

(** ** The outcome of a lyric fetch *)

Section OutcomeFacts.

Import LyricFetch FetchOutcome.

Lemma count_create_app (a b : list io) :
  count_io is_create (a ++ b) = (count_io is_create a + count_io is_create b)%nat.
Proof. unfold count_io. now rewrite filter_app, length_app. Qed.

Lemma c_str_no_nul (s : string) : Lyrics.find_char "000" (c_str s) = None.
Proof.
  induction s as [|c s IH]; simpl; [reflexivity|].
  destruct (Ascii.eqb c "000") eqn:E; simpl; [reflexivity|].
  now rewrite E, IH.
Qed.

Lemma body_no_nul (r : response) : Lyrics.find_char "000" (body r) = None.
Proof.
  assert (H : forall l acc, Lyrics.find_char "000" acc = None ->
            Lyrics.find_char "000"
              (fold_left (fun acc buffer => (acc ++ c_str buffer)%string) l acc)
            = None).
  { induction l as [|b l IH]; intros acc Hacc; simpl; [exact Hacc|].
    apply IH. apply find_char_app_none; [exact Hacc | apply c_str_no_nul]. }
  unfold body, read_body.
  specialize (H (chunks r) EmptyString eq_refl).
  destruct (last_read r =? 0); [exact H|].
  destruct (fold_left _ (chunks r) EmptyString); [reflexivity | exact H].
Qed.

Lemma read_body_error_empty (r : response) :
  snd (read_body r) = true -> body r = EmptyString.
Proof.
  unfold body, read_body.
  destruct (last_read r =? 0); [discriminate|].
  destruct (fold_left _ (chunks r) EmptyString); [reflexivity | discriminate].
Qed.

Lemma read_body_ok (r : response) :
  snd (fst (read_body r)) = negb (snd (read_body r)).
Proof.
  unfold read_body.
  destruct (last_read r =? 0); [reflexivity|].
  now destruct (fold_left _ (chunks r) EmptyString).
Qed.

Lemma attempt_outcome (r : response) (s : loop_state) :
  success s = false -> lyric_content s = EmptyString ->
  current_url (attempt r s) = current_url s
  /\ redirect_count (attempt r s) = redirect_count s
  /\ count_io is_create (trace (attempt r s))
     = S (count_io is_create (trace s))
  /\ (if pass_succeeds r
      then success (attempt r s) = true
           /\ lyric_content (attempt r s) = body r
           /\ retry_count (attempt r s) = retry_count s
      else success (attempt r s) = false
           /\ lyric_content (attempt r s) = EmptyString
           /\ retry_count (attempt r s) = wrap_int (retry_count s + 1)).
Proof.
  intros Hs Hc.
  assert (Ht0 : count_io is_create
                  (if retry_count s >? 0 then trace s ++ [Sleep 500] else trace s)
                = count_io is_create (trace s)).
  { destruct (retry_count s >? 0); [|reflexivity].
    rewrite count_create_app. unfold count_io. simpl. lia. }
  unfold attempt, pass_succeeds.
  destruct (http_created r); simpl negb; cbv iota;
    [|cbn [current_url redirect_count trace success lyric_content retry_count andb];
      rewrite count_create_app, Ht0; cbn; repeat split; auto; lia].
  destruct (open_ok r); simpl negb; cbv iota;
    [|cbn [current_url redirect_count trace success lyric_content retry_count andb];
      rewrite !count_create_app, Ht0; cbn; repeat split; auto; lia].
  destruct (is_redirect (status_code r)); simpl negb; cbv iota;
    [cbn [current_url redirect_count trace success lyric_content retry_count andb];
     rewrite !count_create_app, Ht0; cbn; repeat split; auto; lia|].
  destruct ((status_code r <? 200) || (status_code r >=? 300)); simpl negb; cbv iota;
    [cbn [current_url redirect_count trace success lyric_content retry_count andb];
     rewrite !count_create_app, Ht0; cbn; repeat split; auto; lia|].
  pose proof (read_body_error_empty r) as Hempty.
  pose proof (read_body_ok r) as Hok.
  unfold body in *.
  destruct (read_body r) as [[content ok] read_error].
  cbn [fst snd andb] in *.
  destruct read_error; simpl negb; cbv iota;
    cbn [current_url redirect_count trace success lyric_content retry_count];
    rewrite !count_create_app, Ht0; cbn.
  - repeat split; auto; lia.
  - subst ok. repeat split; auto; lia.
Qed.

Lemma retry_loop_stop (fuel : nat) (network : nat -> response) (pass : nat)
    (s : loop_state) :
  success s = true \/ retry_count s = 3 -> retry_loop fuel network pass s = s.
Proof.
  intros H. destruct fuel as [|fuel]; [reflexivity|].
  cbn [retry_loop]. destruct H as [H | H]; rewrite H.
  - now rewrite andb_false_r.
  - reflexivity.
Qed.

Lemma retry_loop_step (fuel : nat) (network : nat -> response) (pass : nat)
    (s : loop_state) :
  success s = false -> retry_count s < 3 -> redirect_count s = 0 ->
  retry_loop (S fuel) network pass s
  = retry_loop fuel network (S pass) (attempt (network pass) s).
Proof.
  intros Hs Hn Hr. cbn [retry_loop]. rewrite Hs, Hr.
  unfold max_retries. apply Z.ltb_lt in Hn. now rewrite Hn.
Qed.

End OutcomeFacts.

(** X14: a lyric fetch hands the parser the body of the first of its three
    passes that gets a client, a connection, a status in 200..299 and a read
    loop that ends with 0 or with data received; the passes before it have
    failed and none follows it.  When that body is empty, or when no pass of
    the three succeeds, nothing is parsed.  The text handed on never holds a
    NUL character. *)
Theorem download_lyrics_outcome
    (network : nat -> LyricFetch.response) (lyric_url : string) (fuel : nat) :
  (3 <= fuel)%nat ->
  lyric_url <> EmptyString ->
  let out := LyricFetch.DownloadLyrics fuel network lyric_url in
  match FetchOutcome.first_success network 0 3 with
  | Some p =>
      snd out = FetchOutcome.nonempty (FetchOutcome.body (network p))
      /\ LyricFetch.count_io LyricFetch.is_create (fst out) = S p
  | None =>
      snd out = None
      /\ LyricFetch.count_io LyricFetch.is_create (fst out) = 3%nat
  end
  /\ forall content, snd out = Some content ->
       Lyrics.find_char "000" content = None.
Proof.
  intros Hfuel Hne out.
  assert (Hmain :
    match FetchOutcome.first_success network 0 3 with
    | Some p =>
        snd out = FetchOutcome.nonempty (FetchOutcome.body (network p))
        /\ LyricFetch.count_io LyricFetch.is_create (fst out) = S p
    | None =>
        snd out = None
        /\ LyricFetch.count_io LyricFetch.is_create (fst out) = 3%nat
    end).
  { subst out. rewrite (DownloadLyrics_nonempty fuel network lyric_url Hne).
    cbv zeta. cbn [fst snd].
    rewrite (retry_loop_fuel network lyric_url fuel 0 _
               (fetch_inv_start network lyric_url) ltac:(lia)).
    change (3 - 0)%nat with 3%nat.
    set (s0 := LyricFetch.mkLoop 0 false EmptyString lyric_url 0 []).
    cbn [FetchOutcome.first_success].
    rewrite (retry_loop_step 2 network 0 s0 eq_refl ltac:(simpl; lia) eq_refl).
    destruct (attempt_outcome (network 0%nat) s0 eq_refl eq_refl)
      as (_ & Hr1 & Ht1 & H1).
    set (s1 := LyricFetch.attempt (network 0%nat) s0) in *.
    change (LyricFetch.redirect_count s0) with 0 in Hr1.
    change (LyricFetch.count_io LyricFetch.is_create (LyricFetch.trace s0))
      with 0%nat in Ht1.
    change (LyricFetch.retry_count s0) with 0 in H1.
    change (wrap_int (0 + 1)) with 1 in H1.
    destruct (FetchOutcome.pass_succeeds (network 0%nat)).
    { destruct H1 as (Hs & Hc & Hn).
      rewrite (retry_loop_stop 2 network 1 s1 (or_introl Hs)).
      rewrite Hn, Hc, Ht1. unfold FetchOutcome.nonempty.
      split; [now destruct (FetchOutcome.body (network 0%nat)) | reflexivity]. }
    destruct H1 as (Hs1 & Hc1 & Hn1).
    rewrite (retry_loop_step 1 network 1 s1 Hs1 ltac:(lia) Hr1).
    destruct (attempt_outcome (network 1%nat) s1 Hs1 Hc1) as (_ & Hr2 & Ht2 & H2).
    set (s2 := LyricFetch.attempt (network 1%nat) s1) in *.
    rewrite Hr1 in Hr2. rewrite Ht1 in Ht2. rewrite Hn1 in H2.
    change (wrap_int (1 + 1)) with 2 in H2.
    destruct (FetchOutcome.pass_succeeds (network 1%nat)).
    { destruct H2 as (Hs & Hc & Hn).
      rewrite (retry_loop_stop 1 network 2 s2 (or_introl Hs)).
      rewrite Hn, Hc, Ht2. unfold FetchOutcome.nonempty.
      split; [now destruct (FetchOutcome.body (network 1%nat)) | reflexivity]. }
    destruct H2 as (Hs2 & Hc2 & Hn2).
    rewrite (retry_loop_step 0 network 2 s2 Hs2 ltac:(lia) Hr2).
    destruct (attempt_outcome (network 2%nat) s2 Hs2 Hc2) as (_ & Hr3 & Ht3 & H3).
    set (s3 := LyricFetch.attempt (network 2%nat) s2) in *.
    rewrite Ht2 in Ht3. rewrite Hn2 in H3.
    change (wrap_int (2 + 1)) with 3 in H3.
    cbn [LyricFetch.retry_loop].
    destruct (FetchOutcome.pass_succeeds (network 2%nat)).
    { destruct H3 as (Hs & Hc & Hn).
      rewrite Hn, Hc, Ht3. unfold FetchOutcome.nonempty.
      split; [now destruct (FetchOutcome.body (network 2%nat)) | reflexivity]. }
    destruct H3 as (Hs3 & Hc3 & Hn3).
    rewrite Hn3, Ht3. split; reflexivity. }
  split; [exact Hmain|].
  intros content Hres.
  destruct (FetchOutcome.first_success network 0 3) as [p|].
  - destruct Hmain as [Hm _]. rewrite Hm in Hres.
    pose proof (body_no_nul (network p)) as Hnul.
    unfold FetchOutcome.nonempty in Hres.
    destruct (FetchOutcome.body (network p)); [discriminate|].
    injection Hres as <-. exact Hnul.
  - destruct Hmain as [Hm _]. congruence.
Qed.

Lemma download_lyrics_outcome_witness :
  let network := fun pass : nat =>
    match pass with
    | O => LyricFetch.mkResponse true true 503 [] 0
    | _ => LyricFetch.mkResponse true true 200
             ["[00:01.00]la"%string; String "l" (String "000" "x")] (-1)
    end in
  let out := LyricFetch.DownloadLyrics 3 network "http://h/l.lrc" in
  match FetchOutcome.first_success network 0 3 with
  | Some p =>
      snd out = FetchOutcome.nonempty (FetchOutcome.body (network p))
      /\ LyricFetch.count_io LyricFetch.is_create (fst out) = S p
  | None =>
      snd out = None
      /\ LyricFetch.count_io LyricFetch.is_create (fst out) = 3%nat
  end
  /\ forall content, snd out = Some content ->
       Lyrics.find_char "000" content = None.
Proof.
  intros network.
  apply (download_lyrics_outcome network "http://h/l.lrc" 3).
  - apply le_n.
  - discriminate.
Defined.

(** A 503, then a 200 whose second read holds a NUL and whose third read
    fails: the text before the NUL is kept, the pass counts as a success. *)
Example download_lyrics_outcome_example :
  let network := fun pass : nat =>
    match pass with
    | O => LyricFetch.mkResponse true true 503 [] 0
    | _ => LyricFetch.mkResponse true true 200
             ["[00:01.00]la"%string; String "l" (String "000" "x")] (-1)
    end in
  snd (LyricFetch.DownloadLyrics 3 network "http://h/l.lrc")
  = Some "[00:01.00]lal"%string
  /\ snd (LyricFetch.DownloadLyrics 3
            (fun _ => LyricFetch.mkResponse true true 200 [] 0) "http://h/l.lrc")
     = None
  /\ fst (LyricFetch.DownloadLyrics 3
            (fun _ => LyricFetch.mkResponse true true 200 [] 0) "http://h/l.lrc")
     = [LyricFetch.CreateHttp; LyricFetch.OpenGet "http://h/l.lrc"; LyricFetch.Close].
Proof. vm_compute. repeat split. Qed.

(** ** Lyric text as lines *)

Section LineFacts.

Import Lyrics LrcText.

Lemma getlines_line (line : string) : forall (rest acc : string),
  no_line_feed line ->
  getlines (line ++ String LF rest) acc = (acc ++ line)%string :: getlines rest EmptyString.
Proof.
  unfold no_line_feed.
  induction line as [|c line IH]; intros rest acc Hno.
  - cbn [String.append getlines]. change (Ascii.eqb LF "010") with true.
    cbv iota. now rewrite string_app_nil_r.
  - cbn [String.append getlines]. cbn [find_char] in Hno.
    fold LF. destruct (Ascii.eqb c LF); [discriminate|].
    rewrite IH by (now destruct (find_char LF line)).
    now rewrite string_app_assoc.
Qed.

Lemma getlines_unlines (lines : list string) :
  Forall no_line_feed lines -> getlines (unlines lines) EmptyString = lines.
Proof.
  induction 1 as [|line lines Hline _ IH]; [reflexivity|].
  cbn [unlines]. rewrite getlines_line by exact Hline.
  cbn [String.append]. now rewrite IH.
Qed.

End LineFacts.

(** X15: the parsed lyrics depend only on which lines the text holds, a
    carriage return at the end of a line apart: two texts whose lines are the
    same up to order and up to that carriage return give the same lyrics. *)
Theorem parse_lyrics_line_order (seconds_to_ms : string -> option Z)
    (lines1 lines2 : list string) :
  Forall LrcText.no_line_feed lines1 ->
  Forall LrcText.no_line_feed lines2 ->
  Permutation (map Lyrics.strip_cr lines1) (map Lyrics.strip_cr lines2) ->
  Lyrics.ParseLyrics seconds_to_ms (LrcText.unlines lines1)
  = Lyrics.ParseLyrics seconds_to_ms (LrcText.unlines lines2).
Proof.
  intros H1 H2 Hperm. unfold Lyrics.ParseLyrics.
  apply sorted_perm_unique; try apply std_sort_sorted.
  eapply perm_trans; [apply Permutation_sym, std_sort_perm|].
  eapply perm_trans; [|apply std_sort_perm].
  rewrite !parsed_lines_flat_map, !getlines_unlines by assumption.
  set (g := fun stripped : string =>
              match Lyrics.parse_line seconds_to_ms stripped with
              | Some entry => [entry]
              | None => []
              end).
  assert (Hg : forall lines,
    flat_map (fun line => g (Lyrics.strip_cr line)) lines
    = flat_map g (map Lyrics.strip_cr lines)).
  { induction lines as [|l lines IH]; simpl; [reflexivity | now rewrite IH]. }
  change (Permutation (flat_map (fun line => g (Lyrics.strip_cr line)) lines1)
            (flat_map (fun line => g (Lyrics.strip_cr line)) lines2)).
  rewrite !Hg. now apply Permutation_flat_map.
Qed.

Lemma parse_lyrics_line_order_witness :
  Lyrics.ParseLyrics Float32.seconds_to_ms
    (LrcText.unlines [String.append "[00:02.50]second" (String "013" EmptyString);
                      "[00:01.00]first"%string; "[ti:Title of it]"%string])
  = Lyrics.ParseLyrics Float32.seconds_to_ms
      (LrcText.unlines ["[ti:Title of it]"%string;
                        String.append "[00:01.00]first" (String "013" EmptyString);
                        "[00:02.50]second"%string]).
Proof.
  apply (parse_lyrics_line_order Float32.seconds_to_ms).
  - repeat constructor.
  - repeat constructor.
  - cbn [map]. 
    change (Lyrics.strip_cr ("[00:02.50]second" ++ String "013" EmptyString))
      with "[00:02.50]second"%string.
    change (Lyrics.strip_cr ("[00:01.00]first" ++ String "013" EmptyString))
      with "[00:01.00]first"%string.
    change (Lyrics.strip_cr "[00:01.00]first") with "[00:01.00]first"%string.
    change (Lyrics.strip_cr "[00:02.50]second") with "[00:02.50]second"%string.
    change (Lyrics.strip_cr "[ti:Title of it]") with "[ti:Title of it]"%string.
    apply Permutation_sym.
    apply perm_trans with ["[00:01.00]first"%string; "[ti:Title of it]"%string;
                           "[00:02.50]second"%string].
    + apply perm_swap.
    + apply perm_trans with ["[00:01.00]first"%string; "[00:02.50]second"%string;
                             "[ti:Title of it]"%string].
      * apply perm_skip, perm_swap.
      * apply perm_swap.
Defined.

Example parse_lyrics_line_order_example :
  Lyrics.ParseLyrics Float32.seconds_to_ms
    (LrcText.unlines [String.append "[00:02.50]second" (String "013" EmptyString);
                      "[00:01.00]first"%string; "[ti:Title of it]"%string])
  = [(1000, "first"%string); (2500, "second"%string)].
Proof. vm_compute. reflexivity. Qed.

(** ** Lyrics during playback *)

Section SyncFacts.

Import LyricSync.

Variable lyrics_ : list Lyrics.LyricLine.
Hypothesis lyrics_sorted : Lyrics.sorted_by_time lyrics_.

Lemma index_not_later_mono (t t' i : Z) :
  t <= t' -> Lyrics.index_not_later lyrics_ t i ->
  Lyrics.index_not_later lyrics_ t' i.
Proof.
  intros Hle [Hi | [Hr Hts]]; [now left | right; split; [exact Hr | lia]].
Qed.

Lemma on_frame_usable (s : state) (fi : Frame.MP3FrameInfo) :
  frame_usable fi ->
  Lyrics.index_not_later lyrics_ (time s + 600) (index s) ->
  time (on_frame lyrics_ s fi) = PlayTime.advance (time s) fi
  /\ time s <= time (on_frame lyrics_ s fi)
  /\ (if counted fi
      then Lyrics.last_not_later lyrics_ (time (on_frame lyrics_ s fi) + 600)
             (index (on_frame lyrics_ s fi))
      else on_frame lyrics_ s fi = s).
Proof.
  intros [Hvalid | Hskip] Hidx.
  - destruct (frame_duration_valid fi Hvalid) as (Hd & Hnn & _).
    unfold on_frame, PlayTime.advance, counted. rewrite Hd. cbn [time index].
    split; [reflexivity|]. split; [lia|].
    apply matcher_selects_last; [exact lyrics_sorted|].
    apply index_not_later_mono with (time s + 600); [lia | exact Hidx].
  - unfold on_frame, PlayTime.advance, counted. rewrite Hskip.
    split; [reflexivity|]. split; [lia | reflexivity].
Qed.

Lemma play_from (frames : list Frame.MP3FrameInfo) : forall s : state,
  Forall frame_usable frames ->
  Lyrics.index_not_later lyrics_ (time s + 600) (index s) ->
  let final := fold_left (on_frame lyrics_) frames s in
  time final = fold_left PlayTime.advance frames (time s)
  /\ time s <= time final
  /\ (if existsb counted frames
      then Lyrics.last_not_later lyrics_ (time final + 600) (index final)
      else final = s).
Proof.
  induction frames as [|fi frames IH]; intros s Hall Hidx final.
  - subst final. cbn. split; [reflexivity|]. split; [lia | reflexivity].
  - inversion Hall as [|? ? Hfi Hrest]; subst.
    destruct (on_frame_usable s fi Hfi Hidx) as (Ht & Hle & Hc).
    assert (Hidx' : Lyrics.index_not_later lyrics_
                      (time (on_frame lyrics_ s fi) + 600)
                      (index (on_frame lyrics_ s fi))).
    { destruct (counted fi).
      - apply last_not_later_usable with (time (on_frame lyrics_ s fi) + 600);
          [lia | exact Hc].
      - rewrite Hc. exact Hidx. }
    destruct (IH (on_frame lyrics_ s fi) Hrest Hidx') as (Ht' & Hle' & Hc').
    subst final. cbn [fold_left existsb].
    split; [now rewrite Ht', Ht|]. split; [lia|].
    destruct (existsb counted frames).
    + rewrite orb_true_r. exact Hc'.
    + rewrite orb_false_r. rewrite Hc'. exact Hc.
Qed.

Lemma run_without_lyrics (frames : list Frame.MP3FrameInfo) : forall s : state,
  index (run [] frames s) = index s
  /\ time (run [] frames s) = fold_left PlayTime.advance frames (time s).
Proof.
  unfold run. induction frames as [|fi frames IH]; intros s; [now split|].
  cbn [fold_left]. destruct (IH (on_frame [] s fi)) as [Hi Ht].
  rewrite Hi, Ht. unfold on_frame, PlayTime.advance.
  destruct (Frame.frame_duration fi); now split.
Qed.

End SyncFacts.

(** X16: a song with lyrics, from the moment [Download] has reset the
    index: while [lyrics_] is still empty the index stays -1; once
    [ParseLyrics] has filled it, after every frame that counts the index is
    that of the last line not later than the play time plus the 600 ms
    latency, the play time being the sum of the frame durations. *)
Theorem lyrics_follow_play_time (seconds_to_ms : string -> option Z)
    (content : string) (t0 : Z) (before after : list Frame.MP3FrameInfo) :
  Forall LyricSync.frame_usable (before ++ after) ->
  let lyrics_ := Lyrics.ParseLyrics seconds_to_ms content in
  let s := LyricSync.play lyrics_ t0 before after in
  let elapsed := fold_left PlayTime.advance (before ++ after) t0 in
  LyricSync.time s = elapsed
  /\ LyricSync.index (LyricSync.run [] before (LyricSync.mkState t0 (-1))) = -1
  /\ (if existsb LyricSync.counted after
      then Lyrics.last_not_later lyrics_ (elapsed + 600) (LyricSync.index s)
      else LyricSync.index s = -1).
Proof.
  intros Hall lyrics_ s elapsed.
  apply Forall_app in Hall. destruct Hall as [_ Hafter].
  assert (Hsorted : Lyrics.sorted_by_time lyrics_)
    by (apply sorted_pairs_by_time, std_sort_sorted).
  destruct (run_without_lyrics before (LyricSync.mkState t0 (-1))) as [Hi1 Ht1].
  set (s1 := LyricSync.run [] before (LyricSync.mkState t0 (-1))) in *.
  cbn [LyricSync.index LyricSync.time] in Hi1, Ht1.
  assert (Hidx : Lyrics.index_not_later lyrics_ (LyricSync.time s1 + 600)
                   (LyricSync.index s1)) by (left; exact Hi1).
  destruct (play_from lyrics_ Hsorted after s1 Hafter Hidx) as (Ht & _ & Hc).
  fold (LyricSync.run lyrics_ after s1) in Ht, Hc.
  change (LyricSync.run lyrics_ after s1) with s in Ht, Hc.
  assert (He : LyricSync.time s = elapsed).
  { subst elapsed. now rewrite fold_left_app, <- Ht1. }
  split; [exact He|]. split; [exact Hi1|].
  destruct (existsb LyricSync.counted after).
  - now rewrite <- He.
  - now rewrite Hc.
Qed.

Lemma lyrics_follow_play_time_witness :
  let before := [Frame.mkFrameInfo 2 44100 2304; Frame.mkFrameInfo 0 0 0] in
  let after := repeat (Frame.mkFrameInfo 2 44100 2304) 40 in
  let lyrics_ := Lyrics.ParseLyrics Float32.seconds_to_ms
                   (LrcText.unlines ["[00:02.50]second"%string;
                                     "[00:01.00]first"%string]) in
  let s := LyricSync.play lyrics_ 0 before after in
  let elapsed := fold_left PlayTime.advance (before ++ after) 0 in
  LyricSync.time s = elapsed
  /\ LyricSync.index (LyricSync.run [] before (LyricSync.mkState 0 (-1))) = -1
  /\ (if existsb LyricSync.counted after
      then Lyrics.last_not_later lyrics_ (elapsed + 600) (LyricSync.index s)
      else LyricSync.index s = -1).
Proof.
  intros before after.
  apply (lyrics_follow_play_time Float32.seconds_to_ms
           (LrcText.unlines ["[00:02.50]second"%string; "[00:01.00]first"%string])
           0 before after).
  assert (Hv : PlayTime.frame_valid (Frame.mkFrameInfo 2 44100 2304)).
  { unfold PlayTime.frame_valid, in_int.
    cbn [Frame.samprate Frame.nChans Frame.outputSamps]. lia. }
  apply Forall_app. split.
  - constructor; [now left|]. constructor; [|constructor]. right. reflexivity.
  - apply Forall_forall. intros fi Hin. apply repeat_spec in Hin. subst fi.
    now left.
Defined.

(** One frame while the lyrics load, then forty more: 1066 ms played,
    1666 ms with the latency, so the line of 1000 ms shows and the one of
    2500 ms not yet. *)
Example lyrics_follow_play_time_example :
  LyricSync.play
    (Lyrics.ParseLyrics Float32.seconds_to_ms
       (LrcText.unlines ["[00:02.50]second"%string; "[00:01.00]first"%string]))
    0 [Frame.mkFrameInfo 2 44100 2304; Frame.mkFrameInfo 0 0 0]
    (repeat (Frame.mkFrameInfo 2 44100 2304) 40)
  = LyricSync.mkState 1066 0.
Proof. vm_compute. reflexivity. Qed.

(** ** The tool list of the MCP server *)

Section ToolFacts.

Import Mcp.

Lemma find_tool_app (a b : list McpTool) (n : string) :
  find_tool (a ++ b) n
  = match find_tool a n with
    | Some t => Some t
    | None => find_tool b n
    end.
Proof.
  unfold find_tool. induction a as [|x a IH]; simpl; [reflexivity|].
  destruct (has_name n x); [reflexivity | exact IH].
Qed.

Lemma find_tool_name (tools : list McpTool) (n : string) (t : McpTool) :
  find_tool tools n = Some t -> name t = n /\ In t tools.
Proof.
  unfold find_tool. intros H. apply find_some in H. destruct H as [Hin Hn].
  unfold has_name in Hn. apply String.eqb_eq in Hn. now split.
Qed.

Lemma existsb_has_name (tools : list McpTool) (n : string) :
  existsb (has_name n) tools = true <-> In n (map name tools).
Proof.
  rewrite existsb_exists, in_map_iff. unfold has_name.
  split; intros (t & H1 & H2).
  - exists t. apply String.eqb_eq in H2. now split.
  - exists t. split; [exact H2 | now apply String.eqb_eq].
Qed.

Lemma find_tool_none (tools : list McpTool) (n : string) :
  find_tool tools n = None <-> ~ In n (map name tools).
Proof.
  rewrite <- existsb_has_name. unfold find_tool.
  induction tools as [|x tools IH]; simpl.
  - split; [discriminate | reflexivity].
  - destruct (has_name n x); simpl.
    + split; [discriminate | intros H; now elim H].
    + exact IH.
Qed.

Lemma add_tool_nodup (tools_ : list McpTool) (tool : McpTool) :
  NoDup (map name tools_) -> NoDup (map name (AddTool tools_ tool)).
Proof.
  intros Hnd. unfold AddTool.
  destruct (existsb (has_name (name tool)) tools_) eqn:E; [exact Hnd|].
  rewrite map_app. simpl.
  apply NoDup_app; [exact Hnd | repeat constructor; intros [] |].
  intros n Hin [<- | []].
  apply existsb_has_name in Hin. congruence.
Qed.

Lemma add_tool_find (tools_ : list McpTool) (tool : McpTool) (n : string) :
  find_tool (AddTool tools_ tool) n
  = match find_tool tools_ n with
    | Some t => Some t
    | None => if has_name n tool then Some tool else None
    end.
Proof.
  unfold AddTool.
  destruct (existsb (has_name (name tool)) tools_) eqn:E.
  - destruct (find_tool tools_ n) eqn:F; [reflexivity|].
    destruct (has_name n tool) eqn:Hn; [|reflexivity].
    unfold has_name in Hn. apply String.eqb_eq in Hn. subst n.
    apply existsb_has_name in E. apply find_tool_none in F. contradiction.
  - rewrite find_tool_app. unfold find_tool at 2. simpl.
    now destruct (has_name n tool).
Qed.

Lemma add_tools_find (added : list McpTool) : forall (tools_ : list McpTool) (n : string),
  find_tool (fold_left AddTool added tools_) n
  = match find_tool tools_ n with
    | Some t => Some t
    | None => find_tool added n
    end.
Proof.
  induction added as [|a added IH]; intros tools_ n; cbn [fold_left].
  - unfold find_tool at 3. simpl. now destruct (find_tool tools_ n).
  - rewrite IH, add_tool_find. unfold find_tool at 4. cbn [find].
    fold (find_tool added n).
    destruct (find_tool tools_ n); [reflexivity|].
    now destruct (has_name n a).
Qed.

Lemma add_tools_nodup (added : list McpTool) : forall tools_ : list McpTool,
  NoDup (map name tools_) -> NoDup (map name (fold_left AddTool added tools_)).
Proof.
  induction added as [|a added IH]; intros tools_ Hnd; cbn [fold_left];
    [exact Hnd|].
  apply IH. now apply add_tool_nodup.
Qed.

Lemma add_tools_extend (added : list McpTool) : forall tools_ : list McpTool,
  exists suffix,
    fold_left AddTool added tools_ = tools_ ++ suffix
    /\ incl suffix added.
Proof.
  induction added as [|a added IH]; intros tools_; cbn [fold_left].
  - exists []. split; [now rewrite app_nil_r | intros x []].
  - destruct (IH (AddTool tools_ a)) as (suffix & Heq & Hincl).
    unfold AddTool in *.
    destruct (existsb (has_name (name a)) tools_).
    + exists suffix. split; [exact Heq|]. intros x Hx. right. now apply Hincl.
    + exists (a :: suffix). split; [now rewrite Heq, <- app_assoc|].
      intros x [<- | Hx]; [now left | right; now apply Hincl].
Qed.

End ToolFacts.

(** X17: [AddTool] never registers a second tool under a name already
    taken: after any series of calls on a list of distinct names the names
    are still distinct, the tools that were there stay in front in their
    order, and the lookup by name that [DoToolCall] makes finds the tool
    registered first under that name. *)
Theorem add_tool_first_registration_wins (tools_ added : list Mcp.McpTool) :
  NoDup (map Mcp.name tools_) ->
  let result := fold_left Mcp.AddTool added tools_ in
  NoDup (map Mcp.name result)
  /\ (exists suffix, result = tools_ ++ suffix /\ incl suffix added)
  /\ forall tool_name,
       Mcp.find_tool result tool_name
       = match Mcp.find_tool tools_ tool_name with
         | Some t => Some t
         | None => Mcp.find_tool added tool_name
         end.
Proof.
  intros Hnd result. split; [now apply add_tools_nodup|].
  split; [apply add_tools_extend|].
  intros tool_name. apply add_tools_find.
Qed.

Lemma add_tool_first_registration_wins_witness :
  let tools_ := [Mcp.mkTool "self.get_device_status" false "{}"] in
  let added := [Mcp.mkTool "self.radio.stop" false "{}";
                Mcp.mkTool "self.get_device_status" true "{}";
                Mcp.mkTool "self.radio.stop" true "{}"] in
  let result := fold_left Mcp.AddTool added tools_ in
  NoDup (map Mcp.name result)
  /\ (exists suffix, result = tools_ ++ suffix /\ incl suffix added)
  /\ forall tool_name,
       Mcp.find_tool result tool_name
       = match Mcp.find_tool tools_ tool_name with
         | Some t => Some t
         | None => Mcp.find_tool added tool_name
         end.
Proof.
  intros tools_ added.
  apply (add_tool_first_registration_wins tools_ added).
  repeat constructor. intros [].
Defined.

(** X18: after [AddCommonTools] the common tools stand before the tools
    registered earlier, which are all kept, without a check of their names
    against the common ones: the lookup by name prefers a common tool, so an
    earlier tool that bears the name of a common tool stays in the list but
    is never the one found. *)
Theorem common_tools_shadow_earlier_tools (common tools_ : list Mcp.McpTool) :
  let result := Mcp.AddCommonTools common tools_ in
  (forall tool_name,
     Mcp.find_tool result tool_name
     = match Mcp.find_tool common tool_name with
       | Some t => Some t
       | None => Mcp.find_tool tools_ tool_name
       end)
  /\ (exists first, result = first ++ tools_
        /\ NoDup (map Mcp.name first) /\ incl first common)
  /\ (forall t c, In t tools_ ->
        Mcp.find_tool common (Mcp.name t) = Some c ->
        In t result /\ Mcp.find_tool result (Mcp.name t) = Some c).
Proof.
  intros result.
  assert (Hfind : forall tool_name,
     Mcp.find_tool result tool_name
     = match Mcp.find_tool common tool_name with
       | Some t => Some t
       | None => Mcp.find_tool tools_ tool_name
       end).
  { intros tool_name. subst result. unfold Mcp.AddCommonTools.
    rewrite find_tool_app, add_tools_find. reflexivity. }
  split; [exact Hfind|]. split.
  - exists (fold_left Mcp.AddTool common []). split; [reflexivity|].
    split; [apply add_tools_nodup; constructor|].
    destruct (add_tools_extend common []) as (suffix & Heq & Hincl).
    now rewrite Heq.
  - intros t c Hin Hc. split.
    + subst result. unfold Mcp.AddCommonTools. apply in_or_app. now right.
    + now rewrite Hfind, Hc.
Qed.

Example common_tools_shadow_example :
  let board_tool := Mcp.mkTool "self.get_device_status" false "{board}" in
  let common_tool := Mcp.mkTool "self.get_device_status" false "{common}" in
  let result := Mcp.AddCommonTools [common_tool] (Mcp.AddTool [] board_tool) in
  result = [common_tool; board_tool]
  /\ Mcp.find_tool result "self.get_device_status" = Some common_tool.
Proof. vm_compute. split; reflexivity. Qed.

Section ListFacts.

Import Mcp.

Lemma len_app (a b : string) : len (a ++ b) = len a + len b.
Proof. unfold len. rewrite string_length_app. lia. Qed.

Lemma len_nonneg (s : string) : 0 <= len s.
Proof. unfold len. lia. Qed.

Lemma back_app (a b : string) :
  b <> EmptyString -> back (a ++ b) = back b.
Proof.
  intros Hb. induction a as [|c a IH]; [reflexivity|].
  cbn [String.append back]. rewrite IH.
  destruct (a ++ b)%string eqn:E; [|reflexivity].
  destruct a; [simpl in E; congruence | discriminate].
Qed.

Lemma pop_back_app_char (a : string) (c : ascii) :
  pop_back (a ++ String c EmptyString) = a.
Proof.
  induction a as [|d a IH]; [reflexivity|].
  cbn [String.append pop_back]. rewrite IH.
  destruct (a ++ String c EmptyString)%string eqn:E; [|reflexivity].
  destruct a; discriminate.
Qed.


Lemma loop_from_cursor (cursor : string) (l : bool) (json : string)
    (tools : list McpTool) :
  list_loop tools cursor l (is_empty cursor) json
  = list_loop (from_cursor cursor tools) cursor l true json.
Proof.
  destruct (is_empty cursor) eqn:E.
  - destruct tools as [|t rest]; [reflexivity|].
    cbn [from_cursor]. now rewrite E.
  - induction tools as [|t rest IH]; [reflexivity|].
    cbn [from_cursor list_loop]. rewrite E. cbn [negb orb andb].
    destruct (String.eqb (name t) cursor); cbn [negb]; [reflexivity | exact IH].
Qed.

Lemma loop_visible (cursor : string) (l : bool) (tools : list McpTool) :
  forall json,
  list_loop tools cursor l true json
  = list_loop (visible l tools) cursor true true json.
Proof.
  unfold visible.
  induction tools as [|t rest IH]; intros json; [reflexivity|].
  cbn [list_loop filter]. cbn [negb andb].
  replace (l || negb (user_only t)) with (negb (negb l && user_only t))
    by (destruct l, (user_only t); reflexivity).
  destruct (negb l && user_only t); cbn [negb]; [apply IH|].
  cbn [list_loop]. cbn [negb andb].
  destruct (max_payload_size <? len json + len (to_json t ++ ",") + 30);
    [reflexivity | apply IH].
Qed.

Lemma loop_page (cursor : string) (vis : list McpTool) : forall json,
  list_loop vis cursor true true json
  = ((json ++ with_commas (fst (take_page (len json) vis)))%string,
     next_name (snd (take_page (len json) vis)))
  /\ vis = fst (take_page (len json) vis) ++ snd (take_page (len json) vis)
  /\ (fst (take_page (len json) vis) <> [] ->
      len json + len (with_commas (fst (take_page (len json) vis))) + 30
      <= max_payload_size).
Proof.
  induction vis as [|t rest IH]; intros json.
  - cbn [list_loop take_page fst snd with_commas next_name app].
    rewrite string_app_nil_r. repeat split. congruence.
  - cbn [list_loop take_page negb andb].
    assert (Hl : len (to_json t ++ ",") = len (to_json t) + 1)
      by (rewrite len_app; reflexivity).
    rewrite Hl, Z.add_assoc.
    destruct (max_payload_size <? len json + len (to_json t) + 1 + 30) eqn:E.
    + cbn [fst snd with_commas next_name app].
      rewrite string_app_nil_r. repeat split. congruence.
    + destruct (IH (json ++ (to_json t ++ ","))%string) as (H1 & H2 & H3).
      rewrite len_app, Hl, Z.add_assoc in H1, H2, H3.
      destruct (take_page (len json + len (to_json t) + 1) rest)
        as [page remaining] eqn:Ep.
      cbn [fst snd] in *. rewrite H1. split; [|split].
      * cbn [with_commas]. now rewrite !string_app_assoc.
      * cbn [app]. now rewrite <- H2.
      * intros _. cbn [with_commas]. rewrite !len_app.
        change (len ",") with 1.
        apply Z.ltb_ge in E.
        destruct page as [|p page].
        -- cbn [with_commas]. change (len EmptyString) with 0. lia.
        -- specialize (H3 ltac:(discriminate)). lia.
Qed.

Lemma with_commas_concat (t : McpTool) (page : list McpTool) :
  with_commas (t :: page)
  = (String.concat "," (map to_json (t :: page)) ++ ",")%string.
Proof.
  revert t. induction page as [|p page IH]; intros t.
  - reflexivity.
  - change (with_commas (t :: p :: page))
      with (to_json t ++ "," ++ with_commas (p :: page))%string.
    rewrite IH.
    change (String.concat "," (map to_json (t :: p :: page)))
      with (to_json t ++ "," ++ String.concat "," (map to_json (p :: page)))%string.
    now rewrite !string_app_assoc.
Qed.

Lemma concat_back (t : McpTool) (page : list McpTool) :
  Forall prints_object (t :: page) ->
  back (String.concat "," (map to_json (t :: page))) = Some "}"%char.
Proof.
  revert t. induction page as [|p page IH]; intros t Hall.
  - inversion Hall; subst. assumption.
  - inversion Hall as [|? ? _ Hrest]; subst.
    specialize (IH p Hrest).
    change (String.concat "," (map to_json (t :: p :: page)))
      with (to_json t ++ "," ++ String.concat "," (map to_json (p :: page)))%string.
    set (r := String.concat "," (map to_json (p :: page))) in *.
    rewrite back_app by (cbn; discriminate).
    rewrite back_app; [exact IH|].
    intros E. rewrite E in IH. discriminate.
Qed.

Lemma from_cursor_incl (cursor : string) (tools : list McpTool) :
  exists before, tools = before ++ from_cursor cursor tools
    /\ (is_empty cursor = false ->
        forall x, In x before -> name x <> cursor).
Proof.
  induction tools as [|t rest IH].
  - exists []. split; [reflexivity | intros _ x []].
  - cbn [from_cursor].
    destruct (is_empty cursor) eqn:E; cbn [orb].
    + exists []. split; [reflexivity | discriminate].
    + destruct (String.eqb (name t) cursor) eqn:En.
      * exists []. split; [reflexivity | intros _ x []].
      * destruct IH as (before & Heq & Hne). exists (t :: before). split.
        -- cbn [app]. now rewrite <- Heq.
        -- intros _ x [<- | Hx]; [now apply String.eqb_neq | now apply Hne].
Qed.

End ListFacts.

Section PageFacts.

Import Mcp.

Lemma page_prints_object (cursor : string) (l : bool) (tools_ : list McpTool) :
  Forall prints_object tools_ ->
  Forall prints_object (visible l (from_cursor cursor tools_)).
Proof.
  intros Hall. rewrite Forall_forall in *. intros x Hx.
  unfold visible in Hx. apply filter_In in Hx. destruct Hx as [Hx _].
  destruct (from_cursor_incl cursor tools_) as (before & Heq & _).
  apply Hall. rewrite Heq. apply in_or_app. now right.
Qed.

Lemma filter_split (f : McpTool -> bool) (l : list McpTool) :
  forall (a b : list McpTool) (x : McpTool),
  filter f l = a ++ x :: b ->
  exists l1 l2, l = l1 ++ x :: l2 /\ filter f l1 = a /\ filter f l2 = b.
Proof.
  induction l as [|y l IH]; intros a b x H.
  - destruct a; discriminate.
  - cbn [filter] in H. destruct (f y) eqn:Ey.
    + destruct a as [|a0 a].
      * cbn [app] in H. injection H as -> Hb.
        exists [], l. repeat split. exact Hb.
      * cbn [app] in H. injection H as -> Ha.
        destruct (IH a b x Ha) as (l1 & l2 & -> & H1 & H2).
        exists (a0 :: l1), l2. repeat split; [|exact H2].
        cbn [filter]. now rewrite Ey, H1.
    + destruct (IH a b x H) as (l1 & l2 & -> & H1 & H2).
      exists (y :: l1), l2. repeat split; [|exact H2].
      cbn [filter]. now rewrite Ey.
Qed.

Lemma from_cursor_found (before : list McpTool) (t : McpTool)
    (rest : list McpTool) :
  is_empty (name t) = false ->
  (forall x, In x before -> name x <> name t) ->
  from_cursor (name t) (before ++ t :: rest) = t :: rest.
Proof.
  intros Hne Hbefore. induction before as [|y before IH]; cbn [app from_cursor].
  - now rewrite Hne, String.eqb_refl.
  - rewrite Hne. cbn [orb].
    destruct (String.eqb (name y) (name t)) eqn:E.
    + apply String.eqb_eq in E. elim (Hbefore y (or_introl eq_refl) E).
    + apply IH. intros x Hx. apply Hbefore. now right.
Qed.



End PageFacts.

(** X19: the answer to [tools/list], for tools whose [to_json] text ends
    with a closing brace: of the tools from the cursor on that the request
    may see, the page holds the longest run from the start that keeps the
    text within the limit, joined by commas in their order, and the name of
    the tool after the run is the next cursor.  When the run is empty the
    answer is an empty list if no tool is registered at all and an error
    otherwise -- also for a cursor that names no tool, and when every tool
    is for the user only. *)
Theorem tools_list_page (id : Z) (cursor : string) (list_user_only_tools : bool)
    (tools_ : list Mcp.McpTool) :
  Forall Mcp.prints_object tools_ ->
  let seen := Mcp.visible list_user_only_tools (Mcp.from_cursor cursor tools_) in
  let page := fst (Mcp.take_page 10 seen) in
  let remaining := snd (Mcp.take_page 10 seen) in
  seen = page ++ remaining
  /\ Mcp.GetToolsList id cursor list_user_only_tools tools_
     = match page, tools_ with
       | [], _ :: _ =>
           Mcp.ReplyError id
             ("Failed to add tool " ++ Mcp.next_name remaining
              ++ " because of payload size limit")%string
       | _, _ =>
           Mcp.ReplyResult id
             (Mcp.tools_open ++ String.concat "," (map Mcp.to_json page)
              ++ Mcp.cursor_tail (Mcp.next_name remaining))%string
       end.
Proof.
  intros Hall seen page remaining.
  destruct (loop_page cursor seen Mcp.tools_open) as (H1 & H2 & _).
  change (Mcp.len Mcp.tools_open) with 10 in H1, H2.
  fold page in H1, H2. fold remaining in H1, H2.
  split; [exact H2|].
  unfold Mcp.GetToolsList.
  rewrite loop_from_cursor, loop_visible. fold seen. rewrite H1.
  cbv beta iota zeta.
  assert (Hpage : Forall Mcp.prints_object page).
  { pose proof (page_prints_object cursor list_user_only_tools tools_ Hall) as Hs.
    fold seen in Hs. rewrite H2 in Hs. apply Forall_app in Hs. tauto. }
  destruct page as [|p page'].
  - cbn [Mcp.with_commas]. rewrite string_app_nil_r.
    change (Mcp.back_is "," Mcp.tools_open) with false. cbv iota.
    change (Mcp.back_is "[" Mcp.tools_open) with true.
    destruct tools_; reflexivity.
  - rewrite with_commas_concat.
    set (C := String.concat "," (map Mcp.to_json (p :: page'))).
    pose proof (concat_back p page' Hpage) as Hback. fold C in Hback.
    rewrite <- string_app_assoc.
    assert (Hcomma : Mcp.back_is "," ((Mcp.tools_open ++ C) ++ ",") = true).
    { unfold Mcp.back_is. now rewrite back_app by discriminate. }
    rewrite Hcomma, pop_back_app_char.
    assert (Hbrace : Mcp.back_is "[" (Mcp.tools_open ++ C) = false).
    { unfold Mcp.back_is. rewrite back_app, Hback; [reflexivity|].
      intros E. rewrite E in Hback. discriminate. }
    rewrite Hbrace. cbn [andb]. rewrite string_app_assoc.
    destruct tools_; reflexivity.
Qed.

Lemma tools_list_page_witness :
  let tools_ := [Mcp.mkTool "self.screen.get_info" true "{}";
                 Mcp.mkTool "self.radio.stop" false "{}"] in
  let seen := Mcp.visible false (Mcp.from_cursor EmptyString tools_) in
  let page := fst (Mcp.take_page 10 seen) in
  let remaining := snd (Mcp.take_page 10 seen) in
  seen = page ++ remaining
  /\ Mcp.GetToolsList 7 EmptyString false tools_
     = match page, tools_ with
       | [], _ :: _ =>
           Mcp.ReplyError 7
             ("Failed to add tool " ++ Mcp.next_name remaining
              ++ " because of payload size limit")%string
       | _, _ =>
           Mcp.ReplyResult 7
             (Mcp.tools_open ++ String.concat "," (map Mcp.to_json page)
              ++ Mcp.cursor_tail (Mcp.next_name remaining))%string
       end.
Proof.
  intros tools_.
  apply (tools_list_page 7 EmptyString false tools_).
  repeat constructor.
Defined.

(** No tool, one tool, a cursor that names no tool, and tools for the user
    only. *)
Example tools_list_examples :
  let stop := Mcp.mkTool "self.radio.stop" false "{}" in
  let info := Mcp.mkTool "self.screen.get_info" true "{}" in
  Mcp.GetToolsList 1 EmptyString false []
  = Mcp.ReplyResult 1 (Mcp.tools_open ++ "]}")
  /\ Mcp.GetToolsList 2 EmptyString false [info; stop]
     = Mcp.ReplyResult 2 (Mcp.tools_open ++ "{}]}")
  /\ Mcp.GetToolsList 3 "self.unknown" false [info; stop]
     = Mcp.ReplyError 3 "Failed to add tool  because of payload size limit"
  /\ Mcp.GetToolsList 4 EmptyString false [info]
     = Mcp.ReplyError 4 "Failed to add tool  because of payload size limit".
Proof. vm_compute. repeat split. Qed.

(** X20: with distinct tool names, the next cursor of a page leads to the
    tools that the page left over: the request made with it sees exactly
    those, starting with the tool it names. *)
Theorem tools_list_next_cursor (cursor : string) (list_user_only_tools : bool)
    (tools_ : list Mcp.McpTool) (t : Mcp.McpTool) (rest : list Mcp.McpTool) :
  NoDup (map Mcp.name tools_) ->
  Mcp.name t <> EmptyString ->
  snd (Mcp.take_page 10
         (Mcp.visible list_user_only_tools (Mcp.from_cursor cursor tools_)))
  = t :: rest ->
  Mcp.visible list_user_only_tools (Mcp.from_cursor (Mcp.name t) tools_)
  = t :: rest.
Proof.
  intros Hnd Hname Hrem.
  set (seen := Mcp.visible list_user_only_tools (Mcp.from_cursor cursor tools_))
    in *.
  destruct (loop_page cursor seen Mcp.tools_open) as (_ & H2 & _).
  change (Mcp.len Mcp.tools_open) with 10 in H2. rewrite Hrem in H2.
  unfold seen, Mcp.visible in H2.
  destruct (filter_split _ _ _ _ _ H2) as (l1 & l2 & Hfrom & _ & Hl2).
  destruct (from_cursor_incl cursor tools_) as (before & Heq & _).
  rewrite Hfrom in Heq.
  assert (Hvis : (list_user_only_tools || negb (Mcp.user_only t)) = true).
  { assert (Hin : In t (filter (fun x => list_user_only_tools
                                         || negb (Mcp.user_only x))
                          (Mcp.from_cursor cursor tools_))).
    { rewrite H2. apply in_or_app. right. now left. }
    apply filter_In in Hin. tauto. }
  assert (Hempty : Mcp.is_empty (Mcp.name t) = false)
    by (destruct (Mcp.name t); [congruence | reflexivity]).
  rewrite Heq, app_assoc.
  rewrite from_cursor_found; [|exact Hempty|].
  - unfold Mcp.visible. cbn [filter]. now rewrite Hvis, Hl2.
  - intros x Hx Hsame.
    rewrite Heq, app_assoc, map_app in Hnd. cbn [map] in Hnd.
    apply NoDup_remove_2 in Hnd. apply Hnd.
    apply in_or_app. left. rewrite <- Hsame. now apply in_map.
Qed.

Lemma tools_list_next_cursor_witness :
  let big := fun c : ascii =>
    (String "{" (string_of_list_ascii (repeat c 3500)) ++ "}")%string in
  let a := Mcp.mkTool "self.a" false (big "a"%char) in
  let u := Mcp.mkTool "self.u" true (big "u"%char) in
  let b := Mcp.mkTool "self.b" false (big "b"%char) in
  let c := Mcp.mkTool "self.c" false (big "c"%char) in
  Mcp.visible false (Mcp.from_cursor (Mcp.name c) [a; u; b; c]) = [c].
Proof.
  intros big a u b c.
  apply (tools_list_next_cursor EmptyString false [a; u; b; c] c []).
  - repeat constructor; cbn; intuition discriminate.
  - discriminate.
  - vm_compute. reflexivity.
Defined.


(** ** Stopping a stream *)

Section StopFacts.

Import Stop.

Variable joinable : nat -> bool.

Lemma wait_loop_spec (fuel : nat) : forall (calls : nat) (wait_count : Z),
  0 <= wait_count <= max_wait ->
  max_wait <= Z.of_nat fuel + wait_count ->
  let r := wait_loop fuel joinable calls wait_count in
  let w := fst (fst r) in
  let c := snd (fst r) in
  wait_count <= w <= max_wait
  /\ Z.of_nat c = Z.of_nat calls + (w - wait_count)
  /\ snd r = repeat (Delay 10) (Z.to_nat (w - wait_count))
  /\ (forall k, (calls <= k)%nat -> (S k < c)%nat -> joinable k = true)
  /\ (w < max_wait -> (calls < c)%nat /\ joinable (c - 1)%nat = false).
Proof.
  unfold max_wait.
  induction fuel as [|fuel IH]; intros calls wait_count Hw Hfuel.
  - cbn [wait_loop fst snd].
    replace (wait_count - wait_count) with 0 by lia.
    repeat split; intros; try lia; try reflexivity.
  - cbn [wait_loop]. unfold max_wait.
    destruct (wait_count <? 100) eqn:E.
    + apply Z.ltb_lt in E.
      destruct (joinable calls) eqn:Ej; cbn [negb].
      * specialize (IH (S calls) (wait_count + 1) ltac:(lia) ltac:(lia)).
        cbv zeta in IH. cbn [fst snd].
        set (r := wait_loop fuel joinable (S calls) (wait_count + 1)) in *.
        destruct IH as (H1 & H2 & H3 & H4 & H5).
        split; [lia|]. split; [lia|]. split.
        { rewrite H3.
          replace (Z.to_nat (fst (fst r) - wait_count))
            with (S (Z.to_nat (fst (fst r) - (wait_count + 1)))) by lia.
          reflexivity. }
        split.
        { intros k Hk Hc. destruct (Nat.eq_dec k calls) as [-> | Hne];
            [exact Ej | apply H4; lia]. }
        intros Hlt. destruct (H5 Hlt) as [Hc Hj]. split; [lia | exact Hj].
      * cbn [fst snd].
        replace (wait_count + 1 - wait_count) with 1 by lia.
        split; [lia|]. split; [lia|]. split; [reflexivity|]. split.
        { intros k Hk Hc. lia. }
        intros _. split; [lia|].
        replace (S calls - 1)%nat with calls by lia. exact Ej.
    + apply Z.ltb_ge in E. cbn [fst snd].
      replace (wait_count - wait_count) with 0 by lia.
      repeat split; intros; try lia; try reflexivity.
Qed.

Lemma wait_loop_fuel (fuel : nat) : forall (calls : nat) (wait_count : Z),
  0 <= wait_count <= max_wait ->
  max_wait <= Z.of_nat fuel + wait_count ->
  wait_loop fuel joinable calls wait_count
  = wait_loop (Z.to_nat (max_wait - wait_count)) joinable calls wait_count.
Proof.
  unfold max_wait.
  induction fuel as [|fuel IH]; intros calls wait_count Hw Hfuel.
  - replace (Z.to_nat (100 - wait_count)) with 0%nat by lia. reflexivity.
  - destruct (Z.to_nat (100 - wait_count)) as [|n] eqn:En.
    + cbn [wait_loop]. unfold max_wait.
      replace (wait_count <? 100) with false
        by (symmetry; apply Z.ltb_ge; lia).
      reflexivity.
    + cbn [wait_loop]. unfold max_wait.
      destruct (wait_count <? 100) eqn:E; [|reflexivity].
      destruct (negb (joinable calls)); [reflexivity|].
      rewrite IH by lia.
      replace (Z.to_nat (100 - (wait_count + 1))) with n by lia.
      reflexivity.
Qed.

Lemma delays_app (a b : list action) :
  delays (a ++ b) = (delays a + delays b)%nat.
Proof. unfold delays. now rewrite filter_app, length_app. Qed.

Lemma delays_repeat (n : nat) : delays (repeat (Delay 10) n) = n.
Proof.
  unfold delays. induction n as [|n IH]; [reflexivity|].
  cbn [repeat filter is_delay List.length]. now rewrite IH.
Qed.

Lemma stop_play_thread_spec (fuel : nat) :
  (100 <= fuel)%nat ->
  stop_play_thread fuel joinable = stop_play_thread 100 joinable
  /\ (delays (stop_play_thread fuel joinable) <= 100)%nat
  /\ (stays_false joinable -> ~ In JoinPlay (stop_play_thread fuel joinable))
  /\ ((forall k, joinable k = true) ->
      stop_play_thread fuel joinable
      = NotifyAll :: repeat (Delay 10) 100 ++ [DetachPlay]).
Proof.
  intros Hfuel.
  assert (Hsame : stop_play_thread fuel joinable = stop_play_thread 100 joinable).
  { unfold stop_play_thread.
    now rewrite (wait_loop_fuel fuel 1 0 ltac:(unfold max_wait; lia)
                   ltac:(unfold max_wait; lia)). }
  split; [exact Hsame|].
  unfold stop_play_thread.
  destruct (joinable 0%nat) eqn:E0.
  2:{ split; [cbn; lia|]. split; [intros _ []|].
      intros Hall. rewrite Hall in E0. discriminate. }
  pose proof (wait_loop_spec fuel 1 0 ltac:(unfold max_wait; lia)
                ltac:(unfold max_wait; lia)) as Hspec.
  cbv zeta in Hspec |- *.
  set (r := wait_loop fuel joinable 1 0) in *.
  destruct Hspec as (Hw & Hc & Hacts & Htrue & Hfalse).
  unfold max_wait in *. rewrite Hacts.
  replace (fst (fst r) - 0) with (fst (fst r)) by lia.
  split; [|split].
  - change (NotifyAll :: ?a ++ ?b) with ([NotifyAll] ++ a ++ b).
    rewrite !delays_app, delays_repeat.
    assert (delays [NotifyAll] = 0%nat) by reflexivity.
    assert (delays (if joinable (snd (fst r))
                    then if fst (fst r) >=? 100 then [DetachPlay] else [JoinPlay]
                    else []) = 0%nat)
      by (destruct (joinable (snd (fst r)));
          [destruct (fst (fst r) >=? 100)|]; reflexivity).
    lia.
  - intros Hstay [Hin | Hin]; [discriminate|].
    apply in_app_or in Hin. destruct Hin as [Hin | Hin].
    { apply repeat_spec in Hin. discriminate. }
    destruct (joinable (snd (fst r))) eqn:Ej; [|destruct Hin].
    destruct (fst (fst r) >=? 100) eqn:Eg.
    { destruct Hin as [Hin | []]. discriminate. }
    rewrite Z.geb_leb in Eg. apply Z.leb_gt in Eg.
    destruct (Hfalse Eg) as [Hlt Hj].
    rewrite (Hstay (snd (fst r) - 1)%nat (snd (fst r)) ltac:(lia) Hj) in Ej.
    discriminate.
  - intros Hall.
    assert (Hfull : fst (fst r) = 100).
    { destruct (Z.eq_dec (fst (fst r)) 100) as [H | H]; [exact H|].
      destruct (Hfalse ltac:(lia)) as [_ Hj]. rewrite Hall in Hj. discriminate. }
    rewrite Hall, Hfull. reflexivity.
Qed.

End StopFacts.

(** X22: [StopStreaming] returns [true] on every path, so the tool
    [self.radio.stop] always answers that the radio was stopped; it leaves
    both flags false and waits for the play thread in at most 100 delays of
    10 ms.  As [joinable()] does not turn false when a thread finishes, the
    play thread is never joined there: when nothing else joins or detaches
    it, the wait lasts the full 100 delays and the thread is detached. *)
Theorem stop_streaming_detaches_play_thread
    (fuel : nat) (s : Stop.flags) (display spectrum download_joinable : bool)
    (play_joinable : nat -> bool) :
  (100 <= fuel)%nat ->
  let out := Stop.StopStreaming fuel s display spectrum download_joinable
               play_joinable in
  let acts := snd out in
  out = Stop.StopStreaming 100 s display spectrum download_joinable play_joinable
  /\ fst (fst out) = true
  /\ Stop.radio_stop_tool (fst (fst out)) = Stop.Stopped
  /\ Stop.is_playing_ (snd (fst out)) = false
  /\ Stop.is_downloading_ (snd (fst out)) = false
  /\ (Stop.delays acts <= 100)%nat
  /\ (Stop.stays_false play_joinable -> ~ In Stop.JoinPlay acts)
  /\ (Stop.is_playing_ s || Stop.is_downloading_ s = true ->
      (forall k, play_joinable k = true) ->
      Stop.delays acts = 100%nat /\ In Stop.DetachPlay acts).
Proof.
  intros Hfuel out acts.
  destruct (stop_play_thread_spec play_joinable fuel Hfuel)
    as (Hsame & Hdelays & Hjoin & Hfull).
  subst acts out. unfold Stop.StopStreaming. rewrite <- Hsame.
  destruct (Stop.is_playing_ s) eqn:Ep; destruct (Stop.is_downloading_ s) eqn:Ed;
    cbn [negb andb orb fst snd Stop.is_playing_ Stop.is_downloading_
         Stop.radio_stop_tool].
  4:{ repeat split; try assumption.
      - cbn; lia.
      - intros _ [H | []]; discriminate.
      - discriminate.
      - discriminate. }
  all: split; [reflexivity|]; split; [reflexivity|]; split; [reflexivity|];
    split; [reflexivity|]; split; [reflexivity|].
  all: assert (Hd1 : Stop.delays (if display then [Stop.SetMusicInfo EmptyString]
                                  else []) = 0%nat)
         by (destruct display; reflexivity).
  all: assert (Hd2 : Stop.delays (if download_joinable then [Stop.JoinDownload]
                                  else []) = 0%nat)
         by (destruct download_joinable; reflexivity).
  all: assert (Hd3 : Stop.delays (if display && spectrum then [Stop.StopFft]
                                  else []) = 0%nat)
         by (destruct (display && spectrum); reflexivity).
  all: assert (Hd4 : Stop.delays [Stop.ResetSampleRate] = 0%nat) by reflexivity.
  all: assert (Hd5 : Stop.delays [Stop.NotifyAll] = 0%nat) by reflexivity.
  all: split; [rewrite !delays_app; lia|].
  all: split.
  all: try (intros Hstay Hin;
            apply in_app_or in Hin; destruct Hin as [[Hin | []] | Hin];
              [discriminate|];
            apply in_app_or in Hin; destruct Hin as [Hin | Hin];
              [destruct display; [destruct Hin as [Hin | []]; discriminate
                                 | destruct Hin]|];
            apply in_app_or in Hin; destruct Hin as [[Hin | []] | Hin];
              [discriminate|];
            apply in_app_or in Hin; destruct Hin as [Hin | Hin];
              [destruct download_joinable;
                 [destruct Hin as [Hin | []]; discriminate | destruct Hin]|];
            apply in_app_or in Hin; destruct Hin as [Hin | Hin];
              [exact (Hjoin Hstay Hin)|];
            destruct (display && spectrum);
              [destruct Hin as [Hin | []]; discriminate | destruct Hin]).
  all: intros _ Hall; rewrite (Hfull Hall) in *; split;
    [rewrite !delays_app, Hd1, Hd2, Hd3, Hd4, Hd5;
     change (Stop.NotifyAll :: repeat (Stop.Delay 10) 100 ++ [Stop.DetachPlay])
       with ([Stop.NotifyAll] ++ repeat (Stop.Delay 10) 100 ++ [Stop.DetachPlay]);
     rewrite !delays_app, delays_repeat, Hd5; reflexivity|].
  all: apply in_or_app; right; apply in_or_app; right; apply in_or_app; right;
    apply in_or_app; right; apply in_or_app; left;
    right; apply in_or_app; right; now left.
Qed.

Lemma stop_streaming_detaches_play_thread_witness :
  let s := Stop.mkFlags true true in
  let play_joinable := fun _ : nat => true in
  let out := Stop.StopStreaming 100 s true false true play_joinable in
  let acts := snd out in
  out = Stop.StopStreaming 100 s true false true play_joinable
  /\ fst (fst out) = true
  /\ Stop.radio_stop_tool (fst (fst out)) = Stop.Stopped
  /\ Stop.is_playing_ (snd (fst out)) = false
  /\ Stop.is_downloading_ (snd (fst out)) = false
  /\ (Stop.delays acts <= 100)%nat
  /\ (Stop.stays_false play_joinable -> ~ In Stop.JoinPlay acts)
  /\ (Stop.is_playing_ s || Stop.is_downloading_ s = true ->
      (forall k, play_joinable k = true) ->
      Stop.delays acts = 100%nat /\ In Stop.DetachPlay acts).
Proof.
  intros s play_joinable.
  apply (stop_streaming_detaches_play_thread 100 s true false true play_joinable).
  apply le_n.
Defined.
